(** * Initial split policies of the sharding catalog

    A shallow embedding of [src/mongo/db/s/config/initial_split_policy.cpp]
    and the properties of the chunk layouts it computes. *)

From Stdlib Require Import ZArith Lia List Sorting.Permutation Sorting.Sorted.
From stdpp Require Import base gmap strings list fin_maps pretty.

Local Open Scope Z_scope.

(** ** Outcomes

    A [uassert] throws a user assertion carrying a numeric code and a
    message, an [invariant] aborts the process, and a few operations of
    the source (reading through an end iterator, indexing past a vector,
    dividing by zero) have no defined outcome at all. *)

Inductive Failure : Type :=
| UserAssertion (code : Z) (reason : string)
| InvariantFailure
| UndefinedBehaviour.

Inductive Result (A : Type) : Type :=
| Ok (a : A)
| Err (f : Failure).
Arguments Ok {A} a.
Arguments Err {A} f.

#[global] Instance Result_ret : MRet Result := fun _ a => Ok a.
#[global] Instance Result_bind : MBind Result :=
  fun _ _ k r => match r with Ok a => k a | Err f => Err f end.

#[global] Instance Result_fmap : FMap Result :=
  fun _ _ g r => match r with Ok a => Ok (g a) | Err f => Err f end.

Definition uassert (code : Z) (reason : string) (cond : bool) : Result unit :=
  if cond then Ok tt else Err (UserAssertion code reason).

Definition invariant (cond : bool) : Result unit :=
  if cond then Ok tt else Err InvariantFailure.

Definition isOk {A} (r : Result A) : bool :=
  match r with Ok _ => true | Err _ => false end.

(** ** Three-way comparisons *)

Class CmpOrder {A : Type} (cmp : A → A → comparison) : Prop := {
  cmp_opp : ∀ a b, cmp b a = CompOpp (cmp a b);
  cmp_eq : ∀ a b, cmp a b = Eq → a = b;
  cmp_trans : ∀ a b c, cmp a b = Lt → cmp b c = Lt → cmp a c = Lt
}.

(** Lexicographic combination of two comparisons. *)
Definition lexCmp (c1 c2 : comparison) : comparison :=
  match c1 with Eq => c2 | _ => c1 end.

(** ** BSON values and objects

    Modelled from the spec: the BSON value and object types and their
    comparison are declared outside this file.  A shard-key value is an
    ordered tuple of named, typed values that compares lexicographically
    field by field, with MinKey below and MaxKey above every concrete
    value. *)

Inductive BSONValue : Type :=
| VMinKey
| VNull
| VNumberLong (z : Z)
| VString (s : string)
| VMaxKey.

Definition BSONElement : Type := string * BSONValue.
Definition BSONObj : Type := list BSONElement.

#[global] Instance BSONValue_eq_dec : EqDecision BSONValue.
Proof. solve_decision. Defined.

Definition canonicalType (v : BSONValue) : Z :=
  match v with
  | VMinKey => -1
  | VNull => 5
  | VNumberLong _ => 10
  | VString _ => 15
  | VMaxKey => 127
  end.

Definition compareElementValues (l r : BSONValue) : comparison :=
  match l, r with
  | VNumberLong a, VNumberLong b => Z.compare a b
  | VString a, VString b => String.compare a b
  | _, _ => Eq
  end.

Definition elemWoCompare (l r : BSONElement) : comparison :=
  lexCmp (Z.compare (canonicalType l.2) (canonicalType r.2))
         (lexCmp (String.compare l.1 r.1) (compareElementValues l.2 r.2)).

Fixpoint woCompare (l r : BSONObj) : comparison :=
  match l, r with
  | [], [] => Eq
  | [], _ :: _ => Lt
  | _ :: _, [] => Gt
  | x :: l', y :: r' => lexCmp (elemWoCompare x y) (woCompare l' r')
  end.

(** [SimpleBSONObjComparator::kInstance] less-than, less-or-equal. *)
Definition bsonLt (a b : BSONObj) : bool :=
  match woCompare a b with Lt => true | _ => false end.
Definition bsonLe (a b : BSONObj) : bool :=
  match woCompare a b with Gt => false | _ => true end.


(** ** Machine integers

    Values that come from the caller are kept at their C++ width; the
    conversions between widths are written out.  Sizes of vectors and
    counters that are bounded by the size of a vector are unbounded
    integers. *)

Definition toSizeT (z : Z) : Z := z mod 2 ^ 64.
Definition toInt (z : Z) : Z := (z + 2 ^ 31) mod 2 ^ 32 - 2 ^ 31.
Definition toLongLong (z : Z) : Z := (z + 2 ^ 63) mod 2 ^ 64 - 2 ^ 63.
Definition LLONG_MAX : Z := 2 ^ 63 - 1.
Definition INT_MAX : Z := 2 ^ 31 - 1.

Definition vsize {A} (v : list A) : Z := Z.of_nat (length v).

(** [v[i]]: reading past the end of a vector is undefined. *)
Definition vecAt {A} (v : list A) (i : Z) : Result A :=
  if 0 <=? i then
    match v !! Z.to_nat i with
    | Some x => Ok x
    | None => Err UndefinedBehaviour
    end
  else Err UndefinedBehaviour.

(** [x % y] on unsigned operands. *)
Definition umod (x y : Z) : Result Z :=
  if y =? 0 then Err UndefinedBehaviour else Ok (Z.rem x y).

(** [x / y] on unsigned operands. *)
Definition udiv (x y : Z) : Result Z :=
  if y =? 0 then Err UndefinedBehaviour else Ok (Z.quot x y).

Fixpoint foldM {S X : Type} (f : S → X → Result S) (s : S) (l : list X)
  : Result S :=
  match l with
  | [] => Ok s
  | x :: l' => s' ← f s x; foldM f s' l'
  end.

(** ** Error codes and messages *)

Definition InvalidOptions : Z := 2.
Definition RangeOverlapConflict : Z := 178.

Definition decimal (z : Z) : string := pretty z.

(** ** Shard key patterns

    Modelled from the spec: [ShardKeyPattern] and [KeyPattern] are declared
    outside this file.  A pattern is an ordered list of fields, at most one
    of which is the hashed field; it is kept as the pattern document, whose
    hashed field has the value ["hashed"].  A pattern is hashed-prefix iff
    its first field is the hashed field; [globalMin] and [globalMax] set
    every field to MinKey and MaxKey; [extendRangeBound] fills the trailing
    fields a bound leaves out. *)

Definition ShardKeyPattern : Type := BSONObj.

Definition isHashedElement (e : BSONElement) : bool :=
  bool_decide (e.2 = VString "hashed").

Definition getHashedField (p : ShardKeyPattern) : option BSONElement :=
  List.find isHashedElement p.

Definition isHashedPattern (p : ShardKeyPattern) : bool :=
  match getHashedField p with Some _ => true | None => false end.

Definition hasHashedPrefix (p : ShardKeyPattern) : bool :=
  match p with
  | e :: _ => isHashedElement e
  | [] => false
  end.

(** The name of the hashed field; the end-of-object element, whose name is
    empty, when there is none. *)
Definition hashedFieldName (p : ShardKeyPattern) : string :=
  match getHashedField p with Some e => e.1 | None => EmptyString end.

Definition globalMin (p : ShardKeyPattern) : BSONObj :=
  map (λ e : BSONElement, (e.1, VMinKey)) p.

Definition globalMax (p : ShardKeyPattern) : BSONObj :=
  map (λ e : BSONElement, (e.1, VMaxKey)) p.

Definition extendRangeBound (p : ShardKeyPattern) (bound : BSONObj)
    (makeUpperInclusive : bool) : BSONObj :=
  bound ++ map (λ e : BSONElement,
                  (e.1, if makeUpperInclusive then VMaxKey else VMinKey))
               (drop (length bound) p).

(** ** Ordered sets of BSON objects ([BSONObjSet])

    A [std::set] under the simple comparator: the elements in ascending
    order, without duplicates. *)

Definition BSONObjSet : Type := list BSONObj.

(** [insert]: the new set, and whether the element was new. *)
Fixpoint setInsert (x : BSONObj) (s : BSONObjSet) : BSONObjSet * bool :=
  match s with
  | [] => ([x], true)
  | y :: s' =>
      match woCompare x y with
      | Lt => (x :: y :: s', true)
      | Eq => (y :: s', false)
      | Gt => let r := setInsert x s' in (y :: r.1, r.2)
      end
  end.

Fixpoint setErase (x : BSONObj) (s : BSONObjSet) : BSONObjSet :=
  match s with
  | [] => []
  | y :: s' =>
      match woCompare x y with
      | Eq => s'
      | _ => y :: setErase x s'
      end
  end.

Definition setInsertAll (l : list BSONObj) (s : BSONObjSet) : BSONObjSet :=
  foldl (λ acc x, (setInsert x acc).1) s l.

(** [std::sort] under the comparator's less-than. *)
Fixpoint sortInsert (x : BSONObj) (l : list BSONObj) : list BSONObj :=
  match l with
  | [] => [x]
  | y :: l' => if bsonLt y x then y :: sortInsert x l' else x :: y :: l'
  end.

Definition sort (l : list BSONObj) : list BSONObj := foldr sortInsert [] l.

(** ** Catalog types *)

Definition ShardId : Type := string.
Definition OID : Type := Z.
Definition Timestamp : Type := Z.
Definition UUID : Type := Z.

Record ChunkRange : Type := {
  getMin : BSONObj;
  getMax : BSONObj
}.

(** Modelled from the spec: [ChunkVersion] is declared outside this file.
    A version is [((epoch, timestamp), (major, minor))], and [incMinor]
    increments the minor counter. *)
Record ChunkVersion : Type := {
  epoch : OID;
  getTimestamp : Timestamp;
  majorVersion : Z;
  minorVersion : Z
}.

Definition incMinor (v : ChunkVersion) : ChunkVersion :=
  {| epoch := epoch v; getTimestamp := getTimestamp v;
     majorVersion := majorVersion v; minorVersion := minorVersion v + 1 |}.

Record ChunkHistory : Type := {
  getValidAfter : Timestamp;
  historyShard : ShardId
}.

Record ChunkType : Type := {
  getCollectionUUID : UUID;
  getRange : ChunkRange;
  getVersion : ChunkVersion;
  getShard : ShardId;
  getOnCurrentShardSince : option Timestamp;
  getHistory : list ChunkHistory
}.

Record SplitPolicyParams : Type := {
  collectionUUID : UUID;
  primaryShardId : ShardId
}.

Record TagsType : Type := {
  getNS : string;
  getTag : string;
  getMinKey : BSONObj;
  getMaxKey : BSONObj
}.

Record ShardType : Type := {
  getName : string;
  getTags : list string
}.

(** A document of [config.shards]: [ShardType::fromBSON] parses it or
    reports why it cannot. *)
Inductive ShardDoc : Type :=
| WellFormed (s : ShardType)
| Malformed (code : Z) (reason : string).

Definition fromBSON (d : ShardDoc) : Result ShardType :=
  match d with
  | WellFormed s => Ok s
  | Malformed c r => Err (UserAssertion c r)
  end.

Record ShardKeyRange : Type := {
  skrShard : ShardId;
  skrMin : option BSONObj;
  skrMax : option BSONObj
}.

Definition ShardCollectionConfig : Type := list ChunkType.

(** What a planning call reads from its operation context: the shard
    registry, the permutation the default-seeded shuffle applies, the
    outcome of the query on [config.shards], the cluster time and the
    object id [OID::gen] hands out. *)
Record OperationContext : Type := {
  getAllShardIds : list ShardId;
  shuffle : list ShardId → list ShardId;
  exhaustiveFindOnConfig : Result (list ShardDoc);
  clusterTime : Timestamp;
  genOID : OID
}.

(** ** Zones

    Modelled from the spec: [ZoneInfo] is declared outside this file.  It
    holds non-overlapping named ranges; [getZoneForChunk] is the name of
    the zone that contains the range, or the empty name for a range in no
    zone. *)

Record ZoneRange : Type := {
  zoneMin : BSONObj;
  zoneMax : BSONObj;
  zoneName : string
}.

Definition ZoneInfo : Type := list ZoneRange.

Definition rangesOverlap (a b : ZoneRange) : bool :=
  bsonLt (zoneMin a) (zoneMax b) && bsonLt (zoneMin b) (zoneMax a).

Definition addRangeToZone (zi : ZoneInfo) (zr : ZoneRange) : Result ZoneInfo :=
  if existsb (rangesOverlap zr) zi
  then Err (UserAssertion RangeOverlapConflict "Zone range overlaps an existing zone range")
  else Ok (zi ++ [zr]).

Definition getZoneForChunk (zi : ZoneInfo) (chunk : ChunkRange) : string :=
  match List.find (λ z, bsonLe (zoneMin z) (getMin chunk)
                        && bsonLe (getMax chunk) (zoneMax z)) zi with
  | Some z => zoneName z
  | None => EmptyString
  end.

(** ** Helpers of the anonymous namespace *)

Definition getAllShardIdsShuffled (opCtx : OperationContext) : list ShardId :=
  shuffle opCtx (getAllShardIds opCtx).

(** The state the emitter works on: the running version and the chunks
    emitted so far. *)
Definition Emitter : Type := ChunkVersion * list ChunkType.

(** Creates a chunk, appends it to the chunks and increments the version. *)
Definition appendChunk (params : SplitPolicyParams) (min max : BSONObj)
    (shardId : ShardId) (st : Emitter) : Emitter :=
  let version := st.1 in
  let chunk :=
    {| getCollectionUUID := collectionUUID params;
       getRange := {| getMin := min; getMax := max |};
       getVersion := version;
       getShard := shardId;
       getOnCurrentShardSince := Some (getTimestamp version);
       getHistory := [ {| getValidAfter := getTimestamp version;
                          historyShard := shardId |} ] |} in
  (incMinor version, st.2 ++ [chunk]).

Definition initialVersion (opCtx : OperationContext) (validAfter : Timestamp)
  : ChunkVersion :=
  {| epoch := genOID opCtx; getTimestamp := validAfter;
     majorVersion := 1; minorVersion := 0 |}.

Definition noShardsForZone (zone : string) : string :=
  "no shards found for zone: " +:+ zone +:+
  ", while creating initial chunks for new resharded collection".

(** One step of the scan for the least loaded shard.  [best] and the
    candidate are iterators into the chunk map, [None] being its end; the
    count of an end iterator is read only when [best] is set. *)
Definition selectBestShardStep (chunkMap : gmap ShardId Z)
    (best : option (ShardId * Z)) (shard : ShardId)
  : Result (option (ShardId * Z)) :=
  let candidate := (λ n, (shard, n)) <$> chunkMap !! shard in
  match best with
  | None => Ok candidate
  | Some b =>
      match candidate with
      | None => Err UndefinedBehaviour
      | Some c => Ok (if c.2 <? b.2 then Some c else Some b)
      end
  end.

(** Return the shard with least amount of chunks while respecting the zone
    settings. *)
Definition selectBestShard (chunkMap : gmap ShardId Z) (zoneInfo : ZoneInfo)
    (zoneToShards : gmap string (list ShardId)) (chunkRange : ChunkRange)
  : Result ShardId :=
  let zone := getZoneForChunk zoneInfo chunkRange in
  match zoneToShards !! zone with
  | None => Err (UserAssertion 4952605 (noShardsForZone zone))
  | Some shards =>
      _ ← uassert 4952607 (noShardsForZone zone)
            (negb (bool_decide (shards = [])));
      best ← foldM (selectBestShardStep chunkMap) None shards;
      match best with
      | None => Err InvariantFailure
      | Some b => Ok b.1
      end
  end.

(** [m[tag].push_back(shard)], the entry being created empty when absent. *)
Definition pushShard (shard : ShardId) (m : gmap string (list ShardId))
    (tag : string) : gmap string (list ShardId) :=
  <[tag := default [] (m !! tag) ++ [shard]]> m.

Definition addShardDoc (m : gmap string (list ShardId)) (doc : ShardDoc)
  : Result (gmap string (list ShardId)) :=
  parsedShard ← fromBSON doc;
  Ok (foldl (pushShard (getName parsedShard)) m (getTags parsedShard)).

(** Returns a map mapping each tag name to a vector of shard ids with that
    tag name. *)
Definition buildTagsToShardIdsMap (opCtx : OperationContext)
    (tags : list TagsType) : Result (gmap string (list ShardId)) :=
  match tags with
  | [] => Ok ∅
  | _ :: _ =>
      shardDocs ← exhaustiveFindOnConfig opCtx;
      _ ← uassert 50986 "Could not find any shard documents"
            (negb (bool_decide (shardDocs = [])));
      let tagToShardIds :=
        foldl (λ m tag, <[getTag tag := []]> m) ∅ tags in
      foldM addShardDoc tagToShardIds shardDocs
  end.

(** Returns a set of split points to ensure that chunk boundaries will
    align with the zone ranges. *)
Definition extractSplitPointsFromZones (shardKey : ShardKeyPattern)
    (zones : option (list TagsType)) : BSONObjSet :=
  match zones with
  | None => []
  | Some zs =>
      let splitPoints :=
        foldl (λ acc zone,
                 (setInsert (getMaxKey zone)
                            (setInsert (getMinKey zone) acc).1).1) [] zs in
      setErase (globalMax shardKey) (setErase (globalMin shardKey) splitPoints)
  end.

Definition addShardDocTags (m : gmap ShardId (gset string)) (doc : ShardDoc)
  : Result (gmap ShardId (gset string)) :=
  parsedShard ← fromBSON doc;
  Ok (foldl (λ m tag, <[getName parsedShard :=
                          default ∅ (m !! getName parsedShard) ∪ {[tag]}]> m)
            m (getTags parsedShard)).

(** Returns a map mapping shard id to a set of zone tags. *)
Definition buildShardIdToTagsMap (opCtx : OperationContext)
    (shards : list ShardKeyRange) : Result (gmap ShardId (gset string)) :=
  match shards with
  | [] => Ok ∅
  | _ :: _ =>
      shardDocs ← exhaustiveFindOnConfig opCtx;
      _ ← uassert 7661502 "Could not find any shard documents"
            (negb (bool_decide (shardDocs = [])));
      let shardIdToTags :=
        foldl (λ m shard, <[skrShard shard := ∅]> m) ∅ shards in
      foldM addShardDocTags shardIdToTags shardDocs
  end.

(** ** [InitialSplitPolicy] static members *)

(** The fields of the pattern after the field called [name]. *)
Fixpoint fieldsAfter (name : string) (p : BSONObj) : BSONObj :=
  match p with
  | [] => []
  | e :: rest => if bool_decide (e.1 = name) then rest else fieldsAfter name rest
  end.

(** The fields of an object before the field called [name]. *)
Fixpoint fieldsBefore (name : string) (o : BSONObj) : BSONObj :=
  match o with
  | [] => []
  | elem :: rest =>
      if bool_decide (elem.1 = name) then [] else elem :: fieldsBefore name rest
  end.

(** The split point of one hashed value: the prefix, the hashed field with
    the value, and MinKey for every field after the hashed field. *)
Definition buildSplitPoint (shardKeyPattern : ShardKeyPattern)
    (prefix : BSONObj) (value : Z) : BSONObj :=
  prefix
  ++ [(hashedFieldName shardKeyPattern, VNumberLong value)]
  ++ map (λ e : BSONElement, (e.1, VMinKey))
         (fieldsAfter (hashedFieldName shardKeyPattern) shardKeyPattern).

(** The loop that pushes the pairs of split points at [current] and
    [-current], [count] times. *)
Fixpoint hashedSplitLoop (count : nat) (intervalSize : Z) (current : Z)
    (build : Z → BSONObj) (splitPoints : list BSONObj) : list BSONObj :=
  match count with
  | O => splitPoints
  | S count' =>
      hashedSplitLoop count' intervalSize
        (toLongLong (current + intervalSize)) build
        (splitPoints ++ [build current; build (toLongLong (- current))])
  end.

Definition calculateHashedSplitPoints (shardKeyPattern : ShardKeyPattern)
    (prefix : BSONObj) (numInitialChunks : Z) : Result (list BSONObj) :=
  _ ← invariant (isHashedPattern shardKeyPattern);
  _ ← invariant (0 <? numInitialChunks);
  if numInitialChunks =? 1 then Ok []
  else
    let intervalSize := toLongLong (Z.quot LLONG_MAX numInitialChunks * 2) in
    let build := buildSplitPoint shardKeyPattern prefix in
    let start :=
      if Z.rem numInitialChunks 2 =? 0
      then ([build 0], toLongLong (0 + intervalSize))
      else ([], toLongLong (0 + Z.quot intervalSize 2)) in
    Ok (sort (hashedSplitLoop (Z.to_nat (Z.quot (numInitialChunks - 1) 2))
                              intervalSize start.2 build start.1)).

(** The body of the loop over [i] from [0] to [finalSplitPoints.size()]. *)
Definition generateChunk (params : SplitPolicyParams)
    (shardKeyPattern : ShardKeyPattern) (finalSplitPoints : list BSONObj)
    (allShardIds : list ShardId) (numContiguousChunksPerShard : Z)
    (st : Emitter) (i : Z) : Result Emitter :=
  min ← (if i =? 0 then Ok (globalMin shardKeyPattern)
         else vecAt finalSplitPoints (i - 1));
  max ← (if i <? vsize finalSplitPoints then vecAt finalSplitPoints i
         else Ok (globalMax shardKeyPattern));
  q ← udiv i (toSizeT numContiguousChunksPerShard);
  r ← umod q (vsize allShardIds);
  shardId ← vecAt allShardIds r;
  Ok (appendChunk params min max shardId st).

Definition generateShardCollectionInitialChunks (opCtx : OperationContext)
    (params : SplitPolicyParams) (shardKeyPattern : ShardKeyPattern)
    (validAfter : Timestamp) (splitPoints : list BSONObj)
    (allShardIds : list ShardId) (numContiguousChunksPerShard : Z)
  : Result ShardCollectionConfig :=
  _ ← invariant (negb (bool_decide (allShardIds = [])));
  (* Make sure points are unique and ordered *)
  let orderedPts := setInsertAll splitPoints [] in
  let finalSplitPoints := orderedPts in
  let version := initialVersion opCtx validAfter in
  st ← foldM (generateChunk params shardKeyPattern finalSplitPoints
                allShardIds numContiguousChunksPerShard)
         (version, [])
         (map Z.of_nat (seq 0 (S (length finalSplitPoints))));
  Ok st.2.

(** ** The policies *)

Module SingleChunkOnPrimarySplitPolicy.

Definition createFirstChunks (opCtx : OperationContext)
    (shardKeyPattern : ShardKeyPattern) (params : SplitPolicyParams)
  : Result ShardCollectionConfig :=
  let validAfter := clusterTime opCtx in
  let version := initialVersion opCtx validAfter in
  Ok (appendChunk params (globalMin shardKeyPattern)
        (globalMax shardKeyPattern) (primaryShardId params) (version, [])).2.

End SingleChunkOnPrimarySplitPolicy.

Module SplitPointsBasedSplitPolicy.

Record t : Type := {
  _splitPoints : list BSONObj;
  _numContiguousChunksPerShard : Z
}.

Definition createFirstChunks (self : t) (opCtx : OperationContext)
    (shardKeyPattern : ShardKeyPattern) (params : SplitPolicyParams)
  : Result ShardCollectionConfig :=
  (* On which shards are the generated chunks allowed to be placed. *)
  let shardIds := getAllShardIdsShuffled opCtx in
  let validAfter := clusterTime opCtx in
  generateShardCollectionInitialChunks opCtx params shardKeyPattern validAfter
    (_splitPoints self) shardIds (_numContiguousChunksPerShard self).

End SplitPointsBasedSplitPolicy.

(** [AbstractTagsBasedSplitPolicy] and its two subclasses: the subclass
    decides [buildSplitInfoForTag] and holds the state it needs. *)
Module AbstractTagsBasedSplitPolicy.

Record SplitInfo : Type := {
  splitPoints : list BSONObj;
  chunkDistribution : list (ShardId * Z)
}.

Inductive Subclass : Type :=
| SingleChunkPerTag (_nextShardIndexForZone : gmap string Z)
| PresplitHashedZones (_numInitialChunks : Z) (_numTagsPerShard : gmap string Z).

Record t : Type := {
  _tags : list TagsType;
  _tagToShardIds : gmap string (list ShardId);
  subclass : Subclass
}.

(** The base-class constructor. *)
Definition make (opCtx : OperationContext) (tags : list TagsType)
    (sub : Subclass) : Result t :=
  tagToShardIds ← buildTagsToShardIdsMap opCtx tags;
  Ok {| _tags := tags; _tagToShardIds := tagToShardIds; subclass := sub |}.

(** [SingleChunkPerTagSplitPolicy::buildSplitInfoForTag] *)
Definition buildSplitInfoForTag_SingleChunkPerTag (self : t)
    (nextShardIndexForZone : gmap string Z) (tag : TagsType)
  : Result (SplitInfo * t) :=
  let nextShardIndex := default 0 (nextShardIndexForZone !! getTag tag) in
  let self' :=
    {| _tags := _tags self; _tagToShardIds := _tagToShardIds self;
       subclass := SingleChunkPerTag
                     (<[getTag tag := nextShardIndex + 1]> nextShardIndexForZone) |} in
  match _tagToShardIds self !! getTag tag with
  | None => Err UndefinedBehaviour
  | Some shardIdsForTag =>
      i ← umod nextShardIndex (vsize shardIdsForTag);
      shardId ← vecAt shardIdsForTag i;
      (* Do not generate any split points when using this strategy. *)
      Ok ({| splitPoints := []; chunkDistribution := [(shardId, 1)] |}, self')
  end.

(** Returns the ceiling number for the decimal value of x/y. *)
Definition ceilOfXOverY (x y : Z) : Result Z :=
  q ← udiv x y;
  r ← umod x y;
  Ok (q + (if r =? 0 then 0 else 1)).

(** The quota of one shard of the current zone. *)
Definition quotaOnShard (numChunksPerShard : Z) (numTagsPerShard : gmap string Z)
    (acc : list (ShardId * Z) * Z) (shard : ShardId)
  : Result (list (ShardId * Z) * Z) :=
  numChunksForCurrentTagOnShard ←
    ceilOfXOverY numChunksPerShard (default 0 (numTagsPerShard !! shard));
  Ok (acc.1 ++ [(shard, numChunksForCurrentTagOnShard)],
      toInt (toSizeT (toSizeT acc.2 + numChunksForCurrentTagOnShard))).

(** [PresplitHashedZonesSplitPolicy::buildSplitInfoForTag] *)
Definition buildSplitInfoForTag_PresplitHashedZones (self : t)
    (numInitialChunks : Z) (numTagsPerShard : gmap string Z) (tag : TagsType)
    (shardKeyPattern : ShardKeyPattern) : Result (SplitInfo * t) :=
  numChunksPerShard ←
    ceilOfXOverY numInitialChunks (Z.of_nat (size numTagsPerShard));
  match _tagToShardIds self !! getTag tag with
  | None => Err InvariantFailure
  | Some shardsForCurrentTag =>
      '(chunkDistribution, numChunksForCurrentTag) ←
        foldM (quotaOnShard numChunksPerShard numTagsPerShard) ([], 0)
              shardsForCurrentTag;
      (* Extract the fields preceding the hashed field. *)
      let prefixBSON :=
        fieldsBefore (hashedFieldName shardKeyPattern) (getMinKey tag) in
      points ← calculateHashedSplitPoints shardKeyPattern prefixBSON
                 numChunksForCurrentTag;
      Ok ({| splitPoints := points; chunkDistribution := chunkDistribution |},
          self)
  end.

Definition buildSplitInfoForTag (self : t) (tag : TagsType)
    (shardKeyPattern : ShardKeyPattern) : Result (SplitInfo * t) :=
  match subclass self with
  | SingleChunkPerTag next =>
      buildSplitInfoForTag_SingleChunkPerTag self next tag
  | PresplitHashedZones numInitialChunks numTagsPerShard =>
      buildSplitInfoForTag_PresplitHashedZones self numInitialChunks
        numTagsPerShard tag shardKeyPattern
  end.

(** The state of the loop over the tags: the policy object, the index of
    the next shard for a hole, the emitter and the upper bound of the last
    chunk. *)
Record LoopState : Type := {
  policy : t;
  indx : Z;
  emitter : Emitter;
  lastChunkMax : BSONObj
}.

(** [nextShardIdForHole]: [shardIds[indx++ % shardIds.size()]]. *)
Definition nextShardIdForHole (shardIds : list ShardId) (indx : Z)
  : Result (ShardId * Z) :=
  i ← umod indx (vsize shardIds);
  shardId ← vecAt shardIds i;
  Ok (shardId, indx + 1).

Definition notAssignedToShard (tag : TagsType) : string :=
  "Cannot shard collection " +:+ getNS tag +:+ " due to zone " +:+ getTag tag
  +:+ " which is not assigned to a shard. Please assign this zone to a shard.".

(** One chunk of a zone, [splitPointIdx] counting the chunks of the zone
    emitted so far. *)
Definition zoneChunk (params : SplitPolicyParams) (tag : TagsType)
    (info : SplitInfo) (targetShard : ShardId) (st : Emitter * Z)
  : Result (Emitter * Z) :=
  let splitPointIdx := st.2 in
  min ← (if splitPointIdx =? 0 then Ok (getMinKey tag)
         else vecAt (splitPoints info) (splitPointIdx - 1));
  max ← (if splitPointIdx =? vsize (splitPoints info) then Ok (getMaxKey tag)
         else vecAt (splitPoints info) splitPointIdx);
  Ok (appendChunk params min max targetShard st.1, splitPointIdx + 1).

(** The chunks of one entry of the chunk distribution. *)
Definition zoneChunksOnShard (params : SplitPolicyParams) (tag : TagsType)
    (info : SplitInfo) (st : Emitter * Z) (chunksOnShard : ShardId * Z)
  : Result (Emitter * Z) :=
  foldM (λ s _, zoneChunk params tag info chunksOnShard.1 s) st
        (replicate (Z.to_nat chunksOnShard.2) tt).

Definition sumChunkDistribution (d : list (ShardId * Z)) : Z :=
  foldl (λ runningSum currentElem, toSizeT (runningSum + currentElem.2)) 0 d.

(** Create a chunk for the hole [lastChunkMax, bound) on the next shard for
    a hole. *)
Definition appendHole (params : SplitPolicyParams) (shardIds : list ShardId)
    (lastMax bound : BSONObj) (indx : Z) (em : Emitter)
  : Result (Z * Emitter) :=
  '(shardId, indx') ← nextShardIdForHole shardIds indx;
  Ok (indx', appendChunk params lastMax bound shardId em).

(** The body of the loop over the tags. *)
Definition createChunksForTag (params : SplitPolicyParams)
    (shardKeyPattern : ShardKeyPattern) (shardIds : list ShardId)
    (tagToShards : gmap string (list ShardId)) (st : LoopState)
    (tag : TagsType) : Result LoopState :=
  (* Create a chunk for the hole [lastChunkMax, tag.getMinKey) *)
  '(indx', em1) ←
    match woCompare (getMinKey tag) (lastChunkMax st) with
    | Gt => appendHole params shardIds (lastChunkMax st) (getMinKey tag)
              (indx st) (emitter st)
    | _ => Ok (indx st, emitter st)
    end;
  (* Create chunk for the actual tag - [tag.getMinKey, tag.getMaxKey) *)
  match tagToShards !! getTag tag with
  | None => Err InvariantFailure
  | Some shards =>
      _ ← uassert 50973 (notAssignedToShard tag)
            (negb (bool_decide (shards = [])));
      '(splitInfo, policy') ← buildSplitInfoForTag (policy st) tag shardKeyPattern;
      _ ← invariant (vsize (splitPoints splitInfo) + 1
                     =? sumChunkDistribution (chunkDistribution splitInfo));
      '(em2, _) ← foldM (zoneChunksOnShard params tag splitInfo) (em1, 0)
                    (chunkDistribution splitInfo);
      Ok {| policy := policy'; indx := indx'; emitter := em2;
            lastChunkMax := getMaxKey tag |}
  end.

Definition createFirstChunks (self : t) (opCtx : OperationContext)
    (shardKeyPattern : ShardKeyPattern) (params : SplitPolicyParams)
  : Result ShardCollectionConfig :=
  _ ← invariant (negb (bool_decide (_tags self = [])));
  let shardIds := getAllShardIdsShuffled opCtx in
  let validAfter := clusterTime opCtx in
  let tagToShards := _tagToShardIds self in
  let version := initialVersion opCtx validAfter in
  st ← foldM (createChunksForTag params shardKeyPattern shardIds tagToShards)
         {| policy := self; indx := 0; emitter := (version, []);
            lastChunkMax := globalMin shardKeyPattern |}
         (_tags self);
  (* Create a chunk for the hole [lastChunkMax, MaxKey] *)
  '(_, em) ←
    match woCompare (lastChunkMax st) (globalMax shardKeyPattern) with
    | Lt => appendHole params shardIds (lastChunkMax st)
              (globalMax shardKeyPattern) (indx st) (emitter st)
    | _ => Ok (indx st, emitter st)
    end;
  Ok em.2.

End AbstractTagsBasedSplitPolicy.

Module PresplitHashedZonesSplitPolicy.
Import AbstractTagsBasedSplitPolicy.

Definition notPresplittable (what : string) (tag : TagsType) : string :=
  "One or more zones are not defined in a manner that supports hashed pre-splitting. "
  +:+ what +:+ ", for zone " +:+ getTag tag.

Definition isMinKey (e : BSONElement) : bool := bool_decide (e.2 = VMinKey).
Definition isMaxKey (e : BSONElement) : bool := bool_decide (e.2 = VMaxKey).

(** The do-while loop over the fields preceding the hashed field, with the
    two iterators as the fields still ahead of them.  Reading or advancing
    an iterator that stands at the end of its object is undefined.  The
    result is [isPrefixDifferent] and the lower bound from the hashed field
    on. *)
Fixpoint validatePrefix (hashedName : string) (tag : TagsType)
    (startItr endItr : BSONObj) (isPrefixDifferent : bool)
  : Result (bool * BSONObj) :=
  match startItr, endItr with
  | s :: startItr', e :: endItr' =>
      _ ← uassert 31388
            (notPresplittable "Cannot have MinKey or MaxKey in the lower bound for fields preceding the hashed field but found one" tag)
            (negb (isMinKey s) && negb (isMaxKey s));
      let isPrefixDifferent' :=
        isPrefixDifferent
        || negb (bool_decide (elemWoCompare s e = Eq)) in
      match startItr' with
      | [] => Err UndefinedBehaviour
      | next :: _ =>
          if bool_decide (next.1 = hashedName)
          then Ok (isPrefixDifferent', startItr')
          else validatePrefix hashedName tag startItr' endItr' isPrefixDifferent'
      end
  | _, _ => Err UndefinedBehaviour
  end.

Definition validateZone (shardKeyPattern : ShardKeyPattern) (tag : TagsType)
  : Result unit :=
  '(isPrefixDifferent, startItr) ←
    validatePrefix (hashedFieldName shardKeyPattern) tag
      (getMinKey tag) (getMaxKey tag) false;
  _ ← uassert 31390
        (notPresplittable "The value preceding hashed field of the upper bound should be greater than that of lower bound" tag)
        isPrefixDifferent;
  _ ← uassert 31389
        (notPresplittable "The hashed field value for lower bound must be MinKey" tag)
        (match startItr with e :: _ => isMinKey e | [] => false end);
  (* Each field in the lower bound after the hashed field must be set to
     MinKey. *)
  uassert 31391
    (notPresplittable "The fields after the hashed field must have MinKey value" tag)
    (forallb isMinKey startItr).

Definition _validate (self : t) (shardKeyPattern : ShardKeyPattern)
    (isCollectionEmpty : bool) : Result unit :=
  let tags := _tags self in
  _ ← uassert 31387
        "'presplitHashedZones' is only supported when the collection is empty, zones are set up and shard key pattern has a hashed field"
        (isCollectionEmpty && negb (bool_decide (tags = []))
         && isHashedPattern shardKeyPattern);
  if hasHashedPrefix shardKeyPattern then
    uassert 31412
      "For hashed prefix shard keys, 'presplitHashedZones' is only supported when there is a single zone defined which covers entire shard key range"
      (match tags with
       | [tag0] =>
           bool_decide (woCompare (globalMin shardKeyPattern) (getMinKey tag0) = Eq)
           && bool_decide (woCompare (globalMax shardKeyPattern) (getMaxKey tag0) = Eq)
       | _ => false
       end)
  else
    foldM (λ _ tag, validateZone shardKeyPattern tag) tt tags.

(** [_numTagsPerShard[shard]++] for every shard of the tag. *)
Definition countTag (tagsToShards : gmap string (list ShardId))
    (numTagsPerShard : gmap string Z) (tag : TagsType)
  : Result (gmap string Z) :=
  match tagsToShards !! getTag tag with
  | None => Err UndefinedBehaviour
  | Some shardsForCurrentTag =>
      Ok (foldl (λ m shard, <[shard := default 0 (m !! shard) + 1]> m)
                numTagsPerShard shardsForCurrentTag)
  end.

(** The constructor; [numInitialChunks] is a [size_t]. *)
Definition make (opCtx : OperationContext) (shardKeyPattern : ShardKeyPattern)
    (tags : list TagsType) (numInitialChunks : Z) (isCollectionEmpty : bool)
  : Result t :=
  base ← AbstractTagsBasedSplitPolicy.make opCtx tags (PresplitHashedZones 0 ∅);
  (* Verify that tags have been set up correctly for this split policy. *)
  _ ← _validate base shardKeyPattern isCollectionEmpty;
  (* Calculate the count of zones on each shard and save it in a map for
     later. *)
  numTagsPerShard ← foldM (countTag (_tagToShardIds base)) ∅ tags;
  _ ← invariant (negb (bool_decide (numTagsPerShard = ∅)));
  (* If 'numInitialChunks' was not specified, use default value. *)
  let n := if numInitialChunks =? 0
           then toSizeT (Z.of_nat (size numTagsPerShard) * 2)
           else numInitialChunks in
  Ok {| _tags := tags; _tagToShardIds := _tagToShardIds base;
        subclass := PresplitHashedZones n numTagsPerShard |}.

End PresplitHashedZonesSplitPolicy.

Module SingleChunkPerTagSplitPolicy.
Import AbstractTagsBasedSplitPolicy.

Definition make (opCtx : OperationContext) (tags : list TagsType) : Result t :=
  AbstractTagsBasedSplitPolicy.make opCtx tags (SingleChunkPerTag ∅).

End SingleChunkPerTagSplitPolicy.

Module SamplingBasedSplitPolicy.

(** [_samples] is the sample source: the documents its [getNext] has yet to
    yield, in order. *)
Record t : Type := {
  _numInitialChunks : Z;
  _zones : option (list TagsType);
  _samples : list BSONObj
}.

(** The constructor. *)
Definition make (numInitialChunks : Z) (zones : option (list TagsType))
    (samples : list BSONObj) : Result t :=
  _ ← uassert 4952602 "numInitialChunks should be > 0" (0 <? numInitialChunks);
  _ ← uassert 4952604 "provided zones should not be empty"
        (match zones with Some [] => false | _ => true end);
  Ok {| _numInitialChunks := numInitialChunks; _zones := zones;
        _samples := samples |}.

(** The loop of [_appendSplitPointsFromSample], entered with [nextKey]
    just read from the source: the set, and what is left of the source. *)
Fixpoint appendFromSample (samples : list BSONObj) (nRemaining : Z)
    (splitPoints : BSONObjSet) : BSONObjSet * list BSONObj :=
  match samples with
  | [] => (splitPoints, [])
  | nextKey :: rest =>
      if 0 <? nRemaining then
        let result := setInsert nextKey splitPoints in
        appendFromSample rest
          (if result.2 then nRemaining - 1 else nRemaining) result.1
      else (splitPoints, rest)
  end.

Definition _appendSplitPointsFromSample (self : t) (splitPoints : BSONObjSet)
    (nToAppend : Z) : BSONObjSet * t :=
  let r := appendFromSample (_samples self) nToAppend splitPoints in
  (r.1, {| _numInitialChunks := _numInitialChunks self; _zones := _zones self;
           _samples := r.2 |}).

Definition extendZone (shardKey : ShardKeyPattern) (zone : TagsType) : TagsType :=
  {| getNS := getNS zone; getTag := getTag zone;
     getMinKey := extendRangeBound shardKey (getMinKey zone) false;
     getMaxKey := extendRangeBound shardKey (getMaxKey zone) false |}.

Definition notEnoughCardinality (numInitialChunks : Z) (canMake : Z) : string :=
  "The shard key provided does not have enough cardinality to make the required number of chunks of "
  +:+ decimal numInitialChunks +:+ ", it can only make " +:+ decimal canMake
  +:+ " chunks".

Definition createFirstSplitPoints (self : t) (shardKey : ShardKeyPattern)
  : Result (BSONObjSet * t) :=
  let self1 :=
    {| _numInitialChunks := _numInitialChunks self;
       _zones := map (extendZone shardKey) <$> _zones self;
       _samples := _samples self |} in
  let splitPoints := extractSplitPointsFromZones shardKey (_zones self1) in
  let '(splitPoints', self2) :=
    if vsize splitPoints <? toSizeT (_numInitialChunks self1 - 1) then
      _appendSplitPointsFromSample self1 splitPoints
        (toInt (toSizeT (_numInitialChunks self1 - vsize splitPoints - 1)))
    else (splitPoints, self1) in
  _ ← uassert 4952606
        (notEnoughCardinality (_numInitialChunks self2) (vsize splitPoints' + 1))
        (toSizeT (_numInitialChunks self2 - 1) <=? vsize splitPoints');
  Ok (splitPoints', self2).

Definition zoneRangeOf (zone : TagsType) : ZoneRange :=
  {| zoneMin := getMinKey zone; zoneMax := getMaxKey zone;
     zoneName := getTag zone |}.

(** [m.emplace(k, v)]: no effect when the key is present. *)
Definition emplace {V} (k : string) (v : V) (m : gmap string V) : gmap string V :=
  match m !! k with Some _ => m | None => <[k := v]> m end.

(** The state of the loop over the split points. *)
Record LoopState : Type := {
  chunkDistribution : gmap ShardId Z;
  emitter : Emitter;
  lastChunkMax : BSONObj
}.

Definition selectShardAndAppendChunk (params : SplitPolicyParams)
    (zoneInfo : ZoneInfo) (zoneToShardMap : gmap string (list ShardId))
    (st : LoopState) (chunkMax : BSONObj) : Result LoopState :=
  let chunkMin := lastChunkMax st in
  bestShard ← selectBestShard (chunkDistribution st) zoneInfo zoneToShardMap
                {| getMin := chunkMin; getMax := chunkMax |};
  Ok {| chunkDistribution :=
          <[bestShard := default 0 (chunkDistribution st !! bestShard) + 1]>
            (chunkDistribution st);
        emitter := appendChunk params chunkMin chunkMax bestShard (emitter st);
        lastChunkMax := chunkMax |}.

Definition createFirstChunks (self : t) (opCtx : OperationContext)
    (shardKey : ShardKeyPattern) (params : SplitPolicyParams)
  : Result ShardCollectionConfig :=
  '(splitPoints, self') ← createFirstSplitPoints self shardKey;
  zoneToShardMap0 ←
    match _zones self' with
    | Some zones => buildTagsToShardIdsMap opCtx zones
    | None => Ok ∅
    end;
  zoneInfo ← foldM (λ zi zone, addRangeToZone zi (zoneRangeOf zone)) []
             (default [] (_zones self'));
  let allShardIds := getAllShardIdsShuffled opCtx in
  let chunkDistribution0 :=
    foldl (λ m shard, emplace shard 0 m) ∅ allShardIds in
  let zoneToShardMap := emplace EmptyString allShardIds zoneToShardMap0 in
  let validAfter := clusterTime opCtx in
  let version := initialVersion opCtx validAfter in
  st ← foldM (selectShardAndAppendChunk params zoneInfo zoneToShardMap)
         {| chunkDistribution := chunkDistribution0; emitter := (version, []);
            lastChunkMax := globalMin shardKey |}
         (splitPoints ++ [globalMax shardKey]);
  Ok (emitter st).2.

End SamplingBasedSplitPolicy.

Module ShardDistributionSplitPolicy.

Record t : Type := {
  _shardDistribution : list ShardKeyRange;
  _zones : option (list TagsType)
}.

Definition make (shardDistribution : list ShardKeyRange)
    (zones : option (list TagsType)) : Result t :=
  _ ← uassert 7661501 "ShardDistribution should not be empty"
        (0 <? vsize shardDistribution);
  Ok {| _shardDistribution := shardDistribution; _zones := zones |}.

(** [*opt]: reading an empty optional is undefined. *)
Definition deref {A} (o : option A) : Result A :=
  match o with Some a => Ok a | None => Err UndefinedBehaviour end.

Definition lastMaxOf (keyPattern : ShardKeyPattern) (chunks : list ChunkType)
  : BSONObj :=
  match last chunks with
  | None => globalMin keyPattern
  | Some c => getMax (getRange c)
  end.

(** The while loop of [_appendChunks], over the shard ranges from
    [shardDistributionIdx] on. *)
Fixpoint appendChunksFrom (ranges : list ShardKeyRange)
    (params : SplitPolicyParams) (splitPoint : BSONObj)
    (keyPattern : ShardKeyPattern) (shardDistributionIdx : Z) (em : Emitter)
  : Result (Z * Emitter) :=
  match ranges with
  | [] => Ok (shardDistributionIdx, em)
  | range :: ranges' =>
      rmin ← deref (skrMin range);
      rmax ← deref (skrMax range);
      let shardMin := extendRangeBound keyPattern rmin false in
      let shardMax := extendRangeBound keyPattern rmax false in
      let lastChunkMax := lastMaxOf keyPattern em.2 in
      if bsonLt shardMin splitPoint then
        (* The whole shard range is on the left side of the splitPoint. *)
        if bsonLe shardMax splitPoint then
          appendChunksFrom ranges' params splitPoint keyPattern
            (shardDistributionIdx + 1)
            (appendChunk params lastChunkMax shardMax (skrShard range) em)
        else
          (* The splitPoint is in the middle of the shard range. *)
          Ok (shardDistributionIdx,
              appendChunk params lastChunkMax splitPoint (skrShard range) em)
      else
        (* The whole shard range is on the right side of the splitPoint. *)
        Ok (shardDistributionIdx, em)
  end.

Definition _appendChunks (self : t) (params : SplitPolicyParams)
    (keyPattern : ShardKeyPattern) (st : Z * Emitter) (splitPoint : BSONObj)
  : Result (Z * Emitter) :=
  appendChunksFrom (drop (Z.to_nat st.1) (_shardDistribution self)) params
    splitPoint keyPattern st.1 st.2.

Definition conflictingZones (shard : ShardId) (zone : string) : string :=
  "Specified zones and shardDistribution are conflicting with the existing shard/zone, shard "
  +:+ shard +:+ "doesn't belong to zone " +:+ zone.

Definition _checkShardsMatchZones (self : t) (opCtx : OperationContext)
    (chunks : list ChunkType) (zones : list TagsType) : Result unit :=
  shardIdToTags ← buildShardIdToTagsMap opCtx (_shardDistribution self);
  zoneInfo ← foldM (λ zi zone,
                      addRangeToZone zi
                        (SamplingBasedSplitPolicy.zoneRangeOf zone)) [] zones;
  foldM (λ _ chunk,
           let zoneFromCmdParameter := getZoneForChunk zoneInfo (getRange chunk) in
           uassert InvalidOptions
             (conflictingZones (getShard chunk) zoneFromCmdParameter)
             (match shardIdToTags !! getShard chunk with
              | Some tags => bool_decide (zoneFromCmdParameter ∈ tags)
              | None => false
              end))
        tt chunks.

Definition createFirstChunks (self : t) (opCtx : OperationContext)
    (shardKeyPattern : ShardKeyPattern) (params : SplitPolicyParams)
  : Result ShardCollectionConfig :=
  let keyPattern := shardKeyPattern in
  let zones :=
    map (SamplingBasedSplitPolicy.extendZone keyPattern) <$> _zones self in
  let self' := {| _shardDistribution := _shardDistribution self;
                  _zones := zones |} in
  let splitPoints := extractSplitPointsFromZones shardKeyPattern zones in
  first ← vecAt (_shardDistribution self') 0;
  _ ← uassert InvalidOptions
        "ShardDistribution without min/max is not supported."
        (match skrMin first with Some _ => true | None => false end);
  let validAfter := clusterTime opCtx in
  let version := initialVersion opCtx validAfter in
  st ← foldM (_appendChunks self' params keyPattern) (0, (version, []))
         (splitPoints ++ [globalMax keyPattern]);
  let chunks := st.2.2 in
  _ ← match zones with
      | Some zs => _checkShardsMatchZones self' opCtx chunks zs
      | None => Ok tt
      end;
  Ok chunks.

End ShardDistributionSplitPolicy.

(** ** The policy interface and the strategy selector *)

Inductive InitialSplitPolicy : Type :=
| SingleChunkOnPrimary
| SplitPointsBased (p : SplitPointsBasedSplitPolicy.t)
| TagsBased (p : AbstractTagsBasedSplitPolicy.t)
| SamplingBased (p : SamplingBasedSplitPolicy.t)
| ShardDistribution (p : ShardDistributionSplitPolicy.t).

(** The virtual [createFirstChunks]. *)
Definition createFirstChunks (self : InitialSplitPolicy)
    (opCtx : OperationContext) (shardKeyPattern : ShardKeyPattern)
    (params : SplitPolicyParams) : Result ShardCollectionConfig :=
  match self with
  | SingleChunkOnPrimary =>
      SingleChunkOnPrimarySplitPolicy.createFirstChunks opCtx shardKeyPattern params
  | SplitPointsBased p =>
      SplitPointsBasedSplitPolicy.createFirstChunks p opCtx shardKeyPattern params
  | TagsBased p =>
      AbstractTagsBasedSplitPolicy.createFirstChunks p opCtx shardKeyPattern params
  | SamplingBased p =>
      SamplingBasedSplitPolicy.createFirstChunks p opCtx shardKeyPattern params
  | ShardDistribution p =>
      ShardDistributionSplitPolicy.createFirstChunks p opCtx shardKeyPattern params
  end.

(** The [std::make_unique] expression the selector returns: the class and
    the arguments of its constructor. *)
Inductive MakeUnique : Type :=
| MakePresplitHashedZones (shardKeyPattern : ShardKeyPattern)
    (tags : list TagsType) (numInitialChunks : Z) (collectionIsEmpty : bool)
| MakeSplitPointsBased (shardKeyPattern : ShardKeyPattern) (numShards : Z)
    (numInitialChunks : Z)
| MakeSingleChunkPerTag (tags : list TagsType)
| MakeSingleChunkOnPrimary.

Definition numInitialChunksNotSupported : string :=
  "numInitialChunks is only supported when the collection is empty and has a hashed field in the shard key pattern".

Definition numInitialChunksNeedsPresplit : string :=
  "When the prefix of the hashed shard key is a range field, 'numInitialChunks' can only be used when the 'presplitHashedZones' is true".

(** The checks and the choice of [calculateOptimizationStrategy];
    [numInitialChunks] is an [int64_t]. *)
Definition chooseStrategy (shardKeyPattern : ShardKeyPattern)
    (numInitialChunks : Z) (presplitHashedZones : bool)
    (tags : list TagsType) (numShards : Z) (collectionIsEmpty : bool)
  : Result MakeUnique :=
  _ ← uassert InvalidOptions numInitialChunksNotSupported
        ((numInitialChunks =? 0)
         || (isHashedPattern shardKeyPattern && collectionIsEmpty));
  _ ← uassert InvalidOptions numInitialChunksNeedsPresplit
        ((numInitialChunks =? 0) || hasHashedPrefix shardKeyPattern
         || presplitHashedZones);
  (* If 'presplitHashedZones' flag is set, we always use
     'PresplitHashedZonesSplitPolicy'. *)
  if presplitHashedZones then
    Ok (MakePresplitHashedZones shardKeyPattern tags (toSizeT numInitialChunks)
          collectionIsEmpty)
  else if bool_decide (tags = []) && hasHashedPrefix shardKeyPattern
          && collectionIsEmpty then
    Ok (MakeSplitPointsBased shardKeyPattern numShards (toSizeT numInitialChunks))
  else if negb (bool_decide (tags = [])) then
    if collectionIsEmpty then Ok (MakeSingleChunkPerTag tags)
    else Ok MakeSingleChunkOnPrimary
  else if collectionIsEmpty then Ok MakeSingleChunkOnPrimary
  else Ok MakeSingleChunkOnPrimary.

(** Modelled from the spec: the constructor of [SplitPointsBasedSplitPolicy]
    is declared outside this file.  The policy is constructed with the
    hashed split points for [max(numInitialChunks, 2 * numShards)] chunks
    and one contiguous chunk per shard. *)
Definition makeSplitPointsBased (shardKeyPattern : ShardKeyPattern)
    (numShards numInitialChunks : Z) : Result SplitPointsBasedSplitPolicy.t :=
  points ← calculateHashedSplitPoints shardKeyPattern []
             (toInt (Z.max numInitialChunks (2 * numShards)));
  Ok {| SplitPointsBasedSplitPolicy._splitPoints := points;
        SplitPointsBasedSplitPolicy._numContiguousChunksPerShard := 1 |}.

(** Running the constructor of a [std::make_unique] expression. *)
Definition construct (opCtx : OperationContext) (m : MakeUnique)
  : Result InitialSplitPolicy :=
  match m with
  | MakePresplitHashedZones shardKeyPattern tags numInitialChunks collectionIsEmpty =>
      TagsBased <$> PresplitHashedZonesSplitPolicy.make opCtx shardKeyPattern
                      tags numInitialChunks collectionIsEmpty
  | MakeSplitPointsBased shardKeyPattern numShards numInitialChunks =>
      SplitPointsBased <$> makeSplitPointsBased shardKeyPattern numShards
                             numInitialChunks
  | MakeSingleChunkPerTag tags =>
      TagsBased <$> SingleChunkPerTagSplitPolicy.make opCtx tags
  | MakeSingleChunkOnPrimary => Ok SingleChunkOnPrimary
  end.

Definition calculateOptimizationStrategy (opCtx : OperationContext)
    (shardKeyPattern : ShardKeyPattern) (numInitialChunks : Z)
    (presplitHashedZones : bool) (tags : list TagsType) (numShards : Z)
    (collectionIsEmpty : bool) : Result InitialSplitPolicy :=
  chooseStrategy shardKeyPattern numInitialChunks presplitHashedZones tags
    numShards collectionIsEmpty
  ≫= construct opCtx.


(** ** Notions used in the statements *)

(** What the scan of [selectBestShard] has established after the shards
    [seen]: nothing is selected only while no shard seen is in the chunk
    map; a selected shard has the least count among the shards seen, and a
    strictly smaller count than every shard seen before it. *)
Definition leastLoaded (chunkMap : gmap ShardId Z) (seen : list ShardId)
    (best : option (ShardId * Z)) : Prop :=
  match best with
  | None => ∀ s, s ∈ seen → chunkMap !! s = None
  | Some b =>
      ∃ i : nat, seen !! i = Some b.1 ∧ chunkMap !! b.1 = Some b.2
        ∧ ∀ (j : nat) s m, seen !! j = Some s → chunkMap !! s = Some m →
            b.2 ≤ m ∧ ((j < i)%nat → b.2 < m)
  end.

(** An emitter state reached from another by [appendChunk] alone. *)
Inductive emits (params : SplitPolicyParams) (em : Emitter) : Emitter → Prop :=
| emits_refl : emits params em em
| emits_append em' min max shardId :
    emits params em em' →
    emits params em (appendChunk params min max shardId em').

(** The version [i] minor increments after [v]. *)
Definition versionAfter (v : ChunkVersion) (i : nat) : ChunkVersion :=
  {| epoch := epoch v; getTimestamp := getTimestamp v;
     majorVersion := majorVersion v;
     minorVersion := minorVersion v + Z.of_nat i |}.

(** Lexicographic order on [(major, minor)]. *)
Definition versionLt (v w : ChunkVersion) : Prop :=
  majorVersion v < majorVersion w
  ∨ (majorVersion v = majorVersion w ∧ minorVersion v < minorVersion w).

Definition bsonLess (a b : BSONObj) : Prop := woCompare a b = Lt.
Definition bsonLessEq (a b : BSONObj) : Prop := woCompare a b ≠ Gt.

(** A set is kept as its elements in strictly ascending order. *)
Definition isSet (s : BSONObjSet) : Prop := StronglySorted bsonLess s.

(** The split points the zones seed and the whole sample source would give
    together. *)
Definition achievableSplitPoints (self : SamplingBasedSplitPolicy.t)
    (shardKey : ShardKeyPattern) : BSONObjSet :=
  setInsertAll (SamplingBasedSplitPolicy._samples self)
    (extractSplitPointsFromZones shardKey
       (map (SamplingBasedSplitPolicy.extendZone shardKey)
          <$> SamplingBasedSplitPolicy._zones self)).

(** The hashed values of the split points for [n] chunks as the
    specification lists them, over the integers: with
    [interval = (INT64_MAX / n) * 2], for an even [n] the value [0] and the
    pairs [±interval, ±2·interval, …], for an odd [n] the pairs
    [±(interval/2), ±(interval/2 + interval), …]; [(n - 1) / 2] pairs. *)
Definition hashedInterval (n : Z) : Z := (2 ^ 63 - 1) / n * 2.

Definition hashedPairs (first step : Z) (pairs : nat) : list Z :=
  flat_map (λ k : nat, [first + Z.of_nat k * step; - (first + Z.of_nat k * step)])
           (seq 0 pairs).

Definition expectedHashedValues (n : Z) : list Z :=
  let interval := hashedInterval n in
  let pairs := Z.to_nat ((n - 1) / 2) in
  if Z.even n then 0 :: hashedPairs interval interval pairs
  else hashedPairs (interval / 2) interval pairs.

(** Where a chunk lies and on which shard. *)
Definition placement (c : ChunkType) : ChunkRange * ShardId :=
  (getRange c, getShard c).

(** The chunks link [lower] to [upper]: the first starts at [lower], each
    next one starts where the one before ends, and the last ends at
    [upper]. *)
Fixpoint linked (lower : BSONObj) (ranges : list ChunkRange) (upper : BSONObj)
  : Prop :=
  match ranges with
  | [] => lower = upper
  | r :: rest => getMin r = lower ∧ linked (getMax r) rest upper
  end.

(** The chunk ranges tile the key space of the pattern. *)
Definition tiles (shardKeyPattern : ShardKeyPattern) (chunks : list ChunkType)
  : Prop :=
  (∃ c, head chunks = Some c ∧ getMin (getRange c) = globalMin shardKeyPattern)
  ∧ (∃ c, last chunks = Some c ∧ getMax (getRange c) = globalMax shardKeyPattern)
  ∧ ∀ (i : nat) c d, chunks !! i = Some c → chunks !! S i = Some d →
      getMax (getRange c) = getMin (getRange d).

(** The zones ascend from [lower] to [upper] without overlapping: each zone
    starts at or above the end of the one before it. *)
Fixpoint zonesAscend (lower : BSONObj) (zones : list TagsType) (upper : BSONObj)
  : Prop :=
  match zones with
  | [] => bsonLessEq lower upper
  | zone :: rest =>
      bsonLessEq lower (getMinKey zone) ∧ zonesAscend (getMaxKey zone) rest upper
  end.

(** The ranges [lower, p1), [p1, p2), …, [pk, upper) that the split points
    cut a zone into. *)
Fixpoint cutRange (lower : BSONObj) (points : list BSONObj) (upper : BSONObj)
  : list ChunkRange :=
  match points with
  | [] => [{| getMin := lower; getMax := upper |}]
  | p :: rest => {| getMin := lower; getMax := p |} :: cutRange p rest upper
  end.

(** The shards of a chunk distribution, each as often as its count. *)
Definition shardsOf (distribution : list (ShardId * Z)) : list ShardId :=
  flat_map (λ e : ShardId * Z, replicate (Z.to_nat e.2) e.1) distribution.

(** The chunks of a zone: its ranges in order, on the shards of its chunk
    distribution in order. *)
Definition zonePlacements (zone : TagsType)
    (info : AbstractTagsBasedSplitPolicy.SplitInfo)
  : list (ChunkRange * ShardId) :=
  zip (cutRange (getMinKey zone)
         (AbstractTagsBasedSplitPolicy.splitPoints info) (getMaxKey zone))
      (shardsOf (AbstractTagsBasedSplitPolicy.chunkDistribution info)).

(** The layout the tag-based driver is specified to produce, from the upper
    bound [lastMax] of the last chunk and the number [holes] of hole chunks
    so far: before a zone whose min is above [lastMax], one hole chunk
    [lastMax, zone.min) on the next shard of the round robin over
    [shardIds]; no hole chunk before a zone whose min is not above
    [lastMax]; then the chunks of the zone; after the last zone, one hole
    chunk [lastMax, upper) if [lastMax] is below [upper]. *)
Inductive TagsLayout (shardIds : list ShardId) (upper : BSONObj)
  : BSONObj → nat → list (TagsType * AbstractTagsBasedSplitPolicy.SplitInfo) →
    list (ChunkRange * ShardId) → Prop :=
| layout_final_hole lastMax holes shard :
    woCompare lastMax upper = Lt →
    shardIds !! (holes `mod` length shardIds)%nat = Some shard →
    TagsLayout shardIds upper lastMax holes []
      [({| getMin := lastMax; getMax := upper |}, shard)]
| layout_final lastMax holes :
    woCompare lastMax upper ≠ Lt →
    TagsLayout shardIds upper lastMax holes [] []
| layout_hole lastMax holes zone info rest shard placements :
    woCompare (getMinKey zone) lastMax = Gt →
    shardIds !! (holes `mod` length shardIds)%nat = Some shard →
    TagsLayout shardIds upper (getMaxKey zone) (S holes) rest placements →
    TagsLayout shardIds upper lastMax holes ((zone, info) :: rest)
      (({| getMin := lastMax; getMax := getMinKey zone |}, shard)
       :: zonePlacements zone info ++ placements)
| layout_no_hole lastMax holes zone info rest placements :
    woCompare (getMinKey zone) lastMax ≠ Gt →
    TagsLayout shardIds upper (getMaxKey zone) holes rest placements →
    TagsLayout shardIds upper lastMax holes ((zone, info) :: rest)
      (zonePlacements zone info ++ placements).

(** The split infos the policy builds for the tags in turn, the policy
    object passing from one call to the next. *)
Inductive builds (shardKeyPattern : ShardKeyPattern)
  : AbstractTagsBasedSplitPolicy.t → list TagsType →
    list AbstractTagsBasedSplitPolicy.SplitInfo →
    AbstractTagsBasedSplitPolicy.t → Prop :=
| builds_nil self : builds shardKeyPattern self [] [] self
| builds_cons self tag info self' tags infos self'' :
    AbstractTagsBasedSplitPolicy.buildSplitInfoForTag self tag shardKeyPattern
    = Ok (info, self') →
    builds shardKeyPattern self' tags infos self'' →
    builds shardKeyPattern self (tag :: tags) (info :: infos) self''.

(** A split info that passed the check of the driver and whose chunks were
    all emitted: the counts add up to one more than the split points, and
    there are no more chunks than ranges. *)
Definition consistent (info : AbstractTagsBasedSplitPolicy.SplitInfo) : Prop :=
  vsize (AbstractTagsBasedSplitPolicy.splitPoints info) + 1
  = AbstractTagsBasedSplitPolicy.sumChunkDistribution
      (AbstractTagsBasedSplitPolicy.chunkDistribution info)
  ∧ (length (shardsOf (AbstractTagsBasedSplitPolicy.chunkDistribution info))
     ≤ S (length (AbstractTagsBasedSplitPolicy.splitPoints info)))%nat.

(** The counts a policy object holds are [size_t] values: they are not
    negative. *)
Definition sizesTyped (self : AbstractTagsBasedSplitPolicy.t) : Prop :=
  match AbstractTagsBasedSplitPolicy.subclass self with
  | AbstractTagsBasedSplitPolicy.SingleChunkPerTag _ => True
  | AbstractTagsBasedSplitPolicy.PresplitHashedZones numInitialChunks
      numTagsPerShard =>
      0 ≤ numInitialChunks ∧ ∀ s c, numTagsPerShard !! s = Some c → 0 ≤ c
  end.

(** What the callers of the policies guarantee about their input: the zones
    of a tag-based policy ascend without overlapping within the key space,
    and the ranges of a shard distribution start below [globalMax] and end,
    with the last of them, at [globalMax]. *)
Definition callerGuarantees (shardKeyPattern : ShardKeyPattern)
    (policy : InitialSplitPolicy) : Prop :=
  match policy with
  | TagsBased p =>
      zonesAscend (globalMin shardKeyPattern)
        (AbstractTagsBasedSplitPolicy._tags p) (globalMax shardKeyPattern)
      ∧ sizesTyped p
  | ShardDistribution p =>
      (∀ r m, r ∈ ShardDistributionSplitPolicy._shardDistribution p →
              skrMin r = Some m →
              woCompare (extendRangeBound shardKeyPattern m false)
                        (globalMax shardKeyPattern) = Lt)
      ∧ (∀ r m, last (ShardDistributionSplitPolicy._shardDistribution p) = Some r →
                skrMax r = Some m →
                extendRangeBound shardKeyPattern m false
                = globalMax shardKeyPattern)
  | _ => True
  end.

(** Between the calls of [_appendChunks] the chunks emitted so far are
    linked from [globalMin] to the max of the last of them. *)
Definition linkedFrom (pat : ShardKeyPattern) (chunks : list ChunkType) : Prop :=
  linked (globalMin pat) (map getRange chunks)
    (ShardDistributionSplitPolicy.lastMaxOf pat chunks).

(** Between the calls the index is within the shard ranges, and once they
    are all consumed the chunks end at [globalMax]. *)
Definition consumedAll (self : ShardDistributionSplitPolicy.t)
    (pat : ShardKeyPattern) (st : Z * Emitter) : Prop :=
  0 ≤ st.1 ≤ vsize (ShardDistributionSplitPolicy._shardDistribution self)
  ∧ (st.1 = vsize (ShardDistributionSplitPolicy._shardDistribution self) →
     st.2.2 ≠ []
     ∧ ShardDistributionSplitPolicy.lastMaxOf pat st.2.2 = globalMax pat).

(** [_numTagsPerShard[shard]++] *)
Definition increment (m : gmap string Z) (shard : string) : gmap string Z :=
  <[shard := default 0 (m !! shard) + 1]> m.

(** ** Example inputs *)

Module Examples.

Definition keyX : ShardKeyPattern := [("x"%string, VNumberLong 1)].

Definition xAt (v : Z) : BSONObj := [("x"%string, VNumberLong v)].

Definition zone (name : string) (min max : BSONObj) : TagsType :=
  {| getNS := "db.coll"; getTag := name; getMinKey := min; getMaxKey := max |}.

Definition params : SplitPolicyParams :=
  {| collectionUUID := 7; primaryShardId := "S1" |}.

(** Three shards, kept in registry order by the shuffle; [S1] and [S2]
    carry zone [A], [S3] carries zone [B]. *)
Definition cluster : OperationContext :=
  {| getAllShardIds := ["S1"; "S2"; "S3"]%string;
     shuffle := id;
     exhaustiveFindOnConfig :=
       Ok [WellFormed {| getName := "S1"; getTags := ["A"%string] |};
           WellFormed {| getName := "S2"; getTags := ["A"%string] |};
           WellFormed {| getName := "S3"; getTags := ["B"%string] |}];
     clusterTime := 100;
     genOID := 42 |}.


(** Zone [B] on [10, 20) listed before zone [A] on [0, 5). *)
Definition descendingZones : list TagsType :=
  [zone "B" (xAt 10) (xAt 20); zone "A" (xAt 0) (xAt 5)].

(** Zone [A] on [MinKey, 10) and zone [B] on [20, MaxKey). *)
Definition ascendingZones : list TagsType :=
  [zone "A" (globalMin keyX) (xAt 10); zone "B" (xAt 20) (globalMax keyX)].

Definition singleChunkPerTag (tags : list TagsType)
  : AbstractTagsBasedSplitPolicy.t :=
  {| AbstractTagsBasedSplitPolicy._tags := tags;
     AbstractTagsBasedSplitPolicy._tagToShardIds :=
       {[ "A"%string := ["S1"; "S2"]%string; "B"%string := ["S3"%string] ]};
     AbstractTagsBasedSplitPolicy.subclass :=
       AbstractTagsBasedSplitPolicy.SingleChunkPerTag ∅ |}.

(** A compound key with a hashed suffix, and two zones on it that the
    presplit policy accepts. *)
Definition keyCH : ShardKeyPattern :=
  [("c"%string, VNumberLong 1); ("h"%string, VString "hashed")].

Definition country (name : string) : BSONObj :=
  [("c"%string, VString name); ("h"%string, VMinKey)].

Definition countryZones : list TagsType :=
  [zone "A" (country "EU") (country "FR"); zone "B" (country "US") (country "UT")].

Definition keyH : ShardKeyPattern := [("h"%string, VString "hashed")].

(** A sampling policy asked for ten chunks whose source yields four keys. *)
Definition fourSamples : SamplingBasedSplitPolicy.t :=
  {| SamplingBasedSplitPolicy._numInitialChunks := 10;
     SamplingBasedSplitPolicy._zones := None;
     SamplingBasedSplitPolicy._samples := [xAt 1; xAt 2; xAt 2; xAt 3; xAt 4] |}.

(** [S1] owns the keys below 50 and [S2] the keys from 50 on. *)
Definition twoRanges : ShardDistributionSplitPolicy.t :=
  {| ShardDistributionSplitPolicy._shardDistribution :=
       [ {| skrShard := "S1"; skrMin := Some (globalMin keyX);
            skrMax := Some (xAt 50) |};
         {| skrShard := "S2"; skrMin := Some (xAt 50);
            skrMax := Some (globalMax keyX) |} ];
     ShardDistributionSplitPolicy._zones := None |}.

(** [S1] owns the keys below 50 and no shard owns the keys from 50 on. *)
Definition lowerHalf : ShardDistributionSplitPolicy.t :=
  {| ShardDistributionSplitPolicy._shardDistribution :=
       [ {| skrShard := "S1"; skrMin := Some (globalMin keyX);
            skrMax := Some (xAt 50) |} ];
     ShardDistributionSplitPolicy._zones := None |}.

Definition chunkCounts : gmap ShardId Z :=
  {[ "S1"%string := 2; "S2"%string := 1; "S3"%string := 1 ]}.

Definition zoneShards : gmap string (list ShardId) :=
  {[ EmptyString := ["S1"; "S2"; "S3"]%string; "B"%string := [] ]}.

Definition zoneB : ZoneInfo :=
  [ {| zoneMin := xAt 10; zoneMax := xAt 20; zoneName := "B" |} ].

End Examples.

(** The ceiling of [x / y] over the integers, for [0 < y]. *)
Definition ceiling (x y : Z) : Z := - ((- x) / y).

(** The shards carrying the tags, each shard once for every tag of the list
    it carries. *)
Definition shardsCarrying (tagToShardIds : gmap string (list ShardId))
    (tags : list TagsType) : list ShardId :=
  flat_map (λ tag, default [] (tagToShardIds !! getTag tag)) tags.

(** The sum of [h k v] over the entries of a map. *)
Definition mapSum (h : string → Z → Z) (m : gmap string Z) : Z :=
  map_fold (λ k v acc, h k v + acc) 0 m.

Definition sumZ (l : list Z) : Z := foldr Z.add 0 l.

(** ** The sample source over a pipeline

    [SamplingBasedSplitPolicy::PipelineDocumentSource] wraps the pipeline
    that samples the collection; the pipeline is kept as the documents it
    has yet to yield, in order. *)

Module PipelineDocumentSource.

Record t : Type := {
  _pipeline : list BSONObj;
  _skip : Z
}.

(** The loop over [skippedSamples], entered with [val] read from the
    pipeline: the sample selected and what is left of the pipeline. *)
Fixpoint skipSamples (count : nat) (pipeline : list BSONObj) (val : BSONObj)
  : BSONObj * list BSONObj :=
  match count with
  | O => (val, pipeline)
  | S count' =>
      match pipeline with
      | [] =>
          (* If there are not enough samples, just select the last sample. *)
          (val, [])
      | newVal :: pipeline' => skipSamples count' pipeline' newVal
      end
  end.

Definition getNext (self : t) : option BSONObj * t :=
  match _pipeline self with
  | [] => (None, self)
  | val :: pipeline =>
      let r := skipSamples (Z.to_nat (_skip self)) pipeline val in
      (Some r.1, {| _pipeline := r.2; _skip := _skip self |})
  end.

End PipelineDocumentSource.

(** The samples the first [calls] calls of [getNext] yield, up to the
    first call that yields none. *)
Fixpoint yields (calls : nat) (src : PipelineDocumentSource.t) : list BSONObj :=
  match calls with
  | O => []
  | S calls' =>
      match PipelineDocumentSource.getNext src with
      | (Some sample, src') => sample :: yields calls' src'
      | (None, _) => []
      end
  end.

(** How often a shard document lists the zone. *)
Definition occurrences (zone : string) (tags : list string) : nat :=
  length (filter (λ t, t = zone) tags).

(** The shards that carry the zone, in the order of their documents, each
    as often as its document lists the zone. *)
Definition carriers (zone : string) (shards : list ShardType) : list ShardId :=
  flat_map (λ s, replicate (occurrences zone (getTags s)) (getName s)) shards.

(** The number of the chunks that are on the shard. *)
Definition chunksOn (shard : ShardId) (chunks : list ChunkType) : nat :=
  length (filter (λ c, getShard c = shard) chunks).

(** The range and the shard of an entry of a shard distribution, its
    bounds extended to the whole shard key; none when a bound is missing. *)
Definition shardRange (shardKeyPattern : ShardKeyPattern) (r : ShardKeyRange)
  : option (ChunkRange * ShardId) :=
  match skrMin r, skrMax r with
  | Some min, Some max =>
      Some ({| getMin := extendRangeBound shardKeyPattern min false;
               getMax := extendRangeBound shardKeyPattern max false |},
            skrShard r)
  | _, _ => None
  end.

(** The split info of a zone that is one chunk on one shard. *)
Definition singleChunk (shard : ShardId) : AbstractTagsBasedSplitPolicy.SplitInfo :=
  {| AbstractTagsBasedSplitPolicy.splitPoints := [];
     AbstractTagsBasedSplitPolicy.chunkDistribution := [(shard, 1)] |}.

(** How many of the zones have the name. *)
Definition zonesNamed (name : string) (zones : list TagsType) : nat :=
  length (filter (λ zone, getTag zone = name) zones).

(** The counters [_nextShardIndexForZone] after the zones [seen]: for every
    name the number of the zones seen that have it. *)
Definition zoneCounters (seen : list TagsType) (next : gmap string Z) : Prop :=
  ∀ name, default 0 (next !! name) = Z.of_nat (zonesNamed name seen).

(** The state of the loop over the tags of a [SingleChunkPerTagSplitPolicy]
    between two rounds, after the zones [seen]. *)
Definition tagsLoopReady (tagToShards : gmap string (list ShardId))
    (seen : list TagsType) (st : AbstractTagsBasedSplitPolicy.LoopState)
  : Prop :=
  0 ≤ AbstractTagsBasedSplitPolicy.indx st
  ∧ AbstractTagsBasedSplitPolicy._tagToShardIds
      (AbstractTagsBasedSplitPolicy.policy st) = tagToShards
  ∧ ∃ next,
      AbstractTagsBasedSplitPolicy.subclass
        (AbstractTagsBasedSplitPolicy.policy st)
      = AbstractTagsBasedSplitPolicy.SingleChunkPerTag next
      ∧ zoneCounters seen next.

(** The hashed value of the [k]-th split point, in ascending order, of the
    split points for [n] chunks. *)
Definition hashedSplitValue (n : Z) (k : nat) : Z :=
  (2 * Z.of_nat k + 2 - n) * (LLONG_MAX / n).

Definition hashedSplitValues (n : Z) : list Z :=
  map (hashedSplitValue n) (seq 0 (Z.to_nat (n - 1))).

(** The chunk is on the shard of one of the shard ranges and lies inside
    that range. *)
Definition insideShardRange (placements : list (ChunkRange * ShardId))
    (c : ChunkType) : Prop :=
  ∃ p, p ∈ placements ∧ getShard c = p.2
       ∧ bsonLessEq (getMin p.1) (getMin (getRange c))
       ∧ bsonLessEq (getMax (getRange c)) (getMax p.1).

(** ** More example inputs *)

Module MoreExamples.
Import Examples.

(** The shard documents of [cluster]. *)
Definition shardDocs : list ShardType :=
  [ {| getName := "S1"; getTags := ["A"%string] |};
    {| getName := "S2"; getTags := ["A"%string] |};
    {| getName := "S3"; getTags := ["B"%string] |} ].

(** A source over five documents that skips one after each sample. *)
Definition everySecond : PipelineDocumentSource.t :=
  {| PipelineDocumentSource._pipeline := [xAt 1; xAt 2; xAt 3; xAt 4; xAt 5];
     PipelineDocumentSource._skip := 1 |}.

(** A sampling policy asked for three chunks whose source yields three
    keys, and one with a zone that seeds its two split points. *)
Definition threeChunks : SamplingBasedSplitPolicy.t :=
  {| SamplingBasedSplitPolicy._numInitialChunks := 3;
     SamplingBasedSplitPolicy._zones := None;
     SamplingBasedSplitPolicy._samples := [xAt 1; xAt 2; xAt 2; xAt 3] |}.

Definition aroundZoneB : SamplingBasedSplitPolicy.t :=
  {| SamplingBasedSplitPolicy._numInitialChunks := 2;
     SamplingBasedSplitPolicy._zones := Some [zone "B" (xAt 10) (xAt 20)];
     SamplingBasedSplitPolicy._samples := [] |}.

(** The shard distribution [twoRanges] under two zones named [A] that meet
    at 25. *)
Definition twoRangesZoned : ShardDistributionSplitPolicy.t :=
  {| ShardDistributionSplitPolicy._shardDistribution :=
       ShardDistributionSplitPolicy._shardDistribution twoRanges;
     ShardDistributionSplitPolicy._zones :=
       Some [zone "A" (globalMin keyX) (xAt 25);
             zone "A" (xAt 25) (globalMax keyX)] |}.

Definition twoPlacements : list (ChunkRange * ShardId) :=
  [ ({| getMin := globalMin keyX; getMax := xAt 50 |}, "S1"%string);
    ({| getMin := xAt 50; getMax := globalMax keyX |}, "S2"%string) ].

(** One zone over the whole key space of the hashed key. *)
Definition wholeHashSpace : list TagsType :=
  [zone "A" (globalMin keyH) (globalMax keyH)].

(** Zone [A] twice, then zone [B], in ascending order. *)
Definition repeatedZones : list TagsType :=
  [zone "A" (globalMin keyX) (xAt 10); zone "A" (xAt 10) (xAt 20);
   zone "B" (xAt 20) (globalMax keyX)].

(** Zone [A], then a zone that no shard document lists. *)
Definition strayZone : list TagsType :=
  [zone "A" (globalMin keyX) (xAt 10); zone "C" (xAt 20) (globalMax keyX)].

(** The presplit policy over [countryZones] on [cluster]. *)
Definition presplitCountries : AbstractTagsBasedSplitPolicy.t :=
  {| AbstractTagsBasedSplitPolicy._tags := countryZones;
     AbstractTagsBasedSplitPolicy._tagToShardIds :=
       {[ "A"%string := ["S1"; "S2"]%string; "B"%string := ["S3"%string] ]};
     AbstractTagsBasedSplitPolicy.subclass :=
       AbstractTagsBasedSplitPolicy.PresplitHashedZones 6
         {[ "S1"%string := 1; "S2"%string := 1; "S3"%string := 1 ]} |}.

End MoreExamples.
(** * Properties

    ** The comparison of BSON objects is a total order *)

Lemma ascii_compare_N (a b : Ascii.ascii) :
  Ascii.compare a b = N.compare (Ascii.N_of_ascii a) (Ascii.N_of_ascii b).
Proof. reflexivity. Qed.

Lemma ascii_compare_trans (a b c : Ascii.ascii) :
  Ascii.compare a b = Lt → Ascii.compare b c = Lt → Ascii.compare a c = Lt.
Proof.
  rewrite !ascii_compare_N, !N.compare_lt_iff. lia.
Qed.

Lemma string_compare_trans (a b c : string) :
  String.compare a b = Lt → String.compare b c = Lt → String.compare a c = Lt.
Proof.
  revert b c. induction a as [|x a IH]; intros [|y b] [|z c]; simpl; try done.
  destruct (Ascii.compare x y) eqn:Hxy; try done;
    destruct (Ascii.compare y z) eqn:Hyz; try done; intros H1 H2.
  - apply Ascii.compare_eq_iff in Hxy, Hyz. subst.
    assert (Ascii.compare z z = Eq) as ->.
    { rewrite ascii_compare_N. apply N.compare_refl. }
    eauto.
  - apply Ascii.compare_eq_iff in Hxy. subst. by rewrite Hyz.
  - apply Ascii.compare_eq_iff in Hyz. subst. by rewrite Hxy.
  - by rewrite (ascii_compare_trans _ _ _ Hxy Hyz).
Qed.

#[global] Instance Z_CmpOrder : CmpOrder Z.compare.
Proof.
  split.
  - intros a b. apply Z.compare_antisym.
  - intros a b. apply Z.compare_eq.
  - intros a b c. rewrite !Z.compare_lt_iff. lia.
Qed.

#[global] Instance string_CmpOrder : CmpOrder String.compare.
Proof.
  split.
  - intros a b. apply String.compare_antisym.
  - intros a b. apply String.compare_eq_iff.
  - apply string_compare_trans.
Qed.

Lemma cmp_refl {A} (cmp : A → A → comparison) `{!CmpOrder cmp} (a : A) :
  cmp a a = Eq.
Proof.
  pose proof (cmp_opp (cmp:=cmp) a a) as Ho. destruct (cmp a a); simpl in Ho; congruence.
Qed.

Lemma cmp_gt_lt {A} (cmp : A → A → comparison) `{!CmpOrder cmp} (a b : A) :
  cmp a b = Gt ↔ cmp b a = Lt.
Proof.
  rewrite (cmp_opp (cmp:=cmp) b a). destruct (cmp b a); simpl; split; congruence.
Qed.

Lemma cmp_eq_iff {A} (cmp : A → A → comparison) `{!CmpOrder cmp} (a b : A) :
  cmp a b = Eq ↔ a = b.
Proof.
  split; [apply cmp_eq|intros ->; by apply cmp_refl].
Qed.

Lemma cmp_lt_le_trans {A} (cmp : A → A → comparison) `{!CmpOrder cmp} (a b c : A) :
  cmp a b = Lt → cmp b c ≠ Gt → cmp a c = Lt.
Proof.
  intros Hab Hbc. destruct (cmp b c) eqn:E; try done.
  - apply cmp_eq in E. by subst.
  - eapply (cmp_trans (cmp:=cmp)); eauto.
Qed.

Lemma cmp_le_lt_trans {A} (cmp : A → A → comparison) `{!CmpOrder cmp} (a b c : A) :
  cmp a b ≠ Gt → cmp b c = Lt → cmp a c = Lt.
Proof.
  intros Hab Hbc. destruct (cmp a b) eqn:E; try done.
  - apply cmp_eq in E. by subst.
  - eapply (cmp_trans (cmp:=cmp)); eauto.
Qed.

Lemma compareElementValues_opp (a b : BSONValue) :
  canonicalType a = canonicalType b →
  compareElementValues b a = CompOpp (compareElementValues a b).
Proof.
  destruct a, b; simpl; try done; intros _; [apply (cmp_opp (cmp:=Z.compare))|apply (cmp_opp (cmp:=String.compare))].
Qed.

Lemma compareElementValues_eq (a b : BSONValue) :
  canonicalType a = canonicalType b → compareElementValues a b = Eq → a = b.
Proof.
  destruct a, b; simpl; try done; intros _ E; f_equal; [by apply Z.compare_eq|by apply String.compare_eq_iff].
Qed.

Lemma compareElementValues_trans (a b c : BSONValue) :
  canonicalType a = canonicalType b → canonicalType b = canonicalType c →
  compareElementValues a b = Lt → compareElementValues b c = Lt →
  compareElementValues a c = Lt.
Proof.
  destruct a, b, c; simpl; try done; intros _ _; [apply (cmp_trans (cmp:=Z.compare))|apply string_compare_trans].
Qed.

#[global] Instance elem_CmpOrder : CmpOrder elemWoCompare.
Proof.
  split.
  - intros [fa a] [fb b]. unfold elemWoCompare; simpl.
    rewrite (Z.compare_antisym (canonicalType a) (canonicalType b)).
    destruct (canonicalType a ?= canonicalType b) eqn:Et; simpl; try done.
    apply Z.compare_eq in Et.
    rewrite (String.compare_antisym fb fa).
    destruct (String.compare fa fb); simpl; try done.
    by apply compareElementValues_opp.
  - intros [fa a] [fb b]. unfold elemWoCompare; simpl.
    destruct (canonicalType a ?= canonicalType b) eqn:Et; simpl; try done.
    apply Z.compare_eq in Et.
    destruct (String.compare fa fb) eqn:Ef; simpl; try done.
    apply String.compare_eq_iff in Ef. intros Ev.
    apply compareElementValues_eq in Ev; [|done]. by subst.
  - intros [fa a] [fb b] [fc c]. unfold elemWoCompare; simpl.
    destruct (canonicalType a ?= canonicalType b) eqn:Eab; simpl; try done;
      destruct (canonicalType b ?= canonicalType c) eqn:Ebc; simpl; try done.
    + apply Z.compare_eq in Eab, Ebc.
      assert ((canonicalType a ?= canonicalType c) = Eq) as ->.
      { rewrite Eab, Ebc. apply Z.compare_refl. }
      simpl.
      destruct (String.compare fa fb) eqn:Fab; simpl; try done;
        destruct (String.compare fb fc) eqn:Fbc; simpl; try done.
      * apply String.compare_eq_iff in Fab, Fbc. subst.
        rewrite (cmp_refl String.compare fc). simpl.
        by apply compareElementValues_trans.
      * apply String.compare_eq_iff in Fab. subst. by rewrite Fbc.
      * apply String.compare_eq_iff in Fbc. subst. by rewrite Fab.
      * by rewrite (string_compare_trans _ _ _ Fab Fbc).
    + apply Z.compare_eq in Eab. rewrite Eab, Ebc. done.
    + apply Z.compare_eq in Ebc. rewrite <- Ebc, Eab. done.
    + intros _ _.
      by rewrite (cmp_trans (cmp:=Z.compare) _ _ _ Eab Ebc).
Qed.

#[global] Instance woCompare_CmpOrder : CmpOrder woCompare.
Proof.
  split.
  - intros a. induction a as [|x a IH]; intros [|y b]; simpl; try done.
    rewrite (cmp_opp (cmp:=elemWoCompare) x y).
    destruct (elemWoCompare x y); simpl; auto.
  - intros a. induction a as [|x a IH]; intros [|y b]; simpl; try done.
    destruct (elemWoCompare x y) eqn:E; simpl; try done.
    apply (cmp_eq (cmp:=elemWoCompare)) in E. intros Hr. apply IH in Hr.
    by subst.
  - intros a. induction a as [|x a IH]; intros [|y b] [|z c]; simpl; try done.
    destruct (elemWoCompare x y) eqn:Exy; simpl; try done;
      destruct (elemWoCompare y z) eqn:Eyz; simpl; try done.
    + apply (cmp_eq (cmp:=elemWoCompare)) in Exy, Eyz. subst.
      rewrite (cmp_refl elemWoCompare z). simpl. apply IH.
    + apply (cmp_eq (cmp:=elemWoCompare)) in Exy. subst. by rewrite Eyz.
    + apply (cmp_eq (cmp:=elemWoCompare)) in Eyz. subst. by rewrite Exy.
    + intros _ _. by rewrite (cmp_trans (cmp:=elemWoCompare) _ _ _ Exy Eyz).
Qed.

(** ** The result monad *)

Lemma bind_Ok_inv {A B} (r : Result A) (k : A → Result B) (b : B) :
  r ≫= k = Ok b → ∃ a, r = Ok a ∧ k a = Ok b.
Proof. destruct r as [a|f]; simpl; [eauto|done]. Qed.

Lemma fmap_Ok_inv {A B} (g : A → B) (r : Result A) (b : B) :
  g <$> r = Ok b → ∃ a, r = Ok a ∧ b = g a.
Proof. destruct r as [a|f]; simpl; [|done]. intros [= <-]. eauto. Qed.

Lemma uassert_Ok_inv code reason cond u :
  uassert code reason cond = Ok u → cond = true.
Proof. by destruct cond. Qed.

Lemma invariant_Ok_inv cond u : invariant cond = Ok u → cond = true.
Proof. by destruct cond. Qed.

Lemma vecAt_Ok_inv {A} (v : list A) i x :
  vecAt v i = Ok x → 0 ≤ i ∧ v !! Z.to_nat i = Some x.
Proof.
  unfold vecAt. destruct (0 <=? i) eqn:E; [|done].
  destruct (v !! Z.to_nat i); [|done]. intros [= ->]. split; [lia|done].
Qed.

Lemma umod_Ok_inv x y r : umod x y = Ok r → y ≠ 0 ∧ r = Z.rem x y.
Proof.
  unfold umod. destruct (y =? 0) eqn:E; [done|]. intros [= <-]. split; [lia|done].
Qed.

Lemma udiv_Ok_inv x y q : udiv x y = Ok q → y ≠ 0 ∧ q = Z.quot x y.
Proof.
  unfold udiv. destruct (y =? 0) eqn:E; [done|]. intros [= <-]. split; [lia|done].
Qed.

(** Inversion of a successful sequence of steps. *)
Ltac inv_bind H :=
  let a := fresh "a" in
  let E := fresh "E" in
  apply bind_Ok_inv in H as (a & E & H).

Tactic Notation "bind_inv" hyp(H) "as" simple_intropattern(a) ident(E) :=
  apply bind_Ok_inv in H as (a & E & H).

Lemma foldM_app {S X} (f : S → X → Result S) (s : S) (l1 l2 : list X) :
  foldM f s (l1 ++ l2) = foldM f s l1 ≫= λ s', foldM f s' l2.
Proof.
  revert s. induction l1 as [|x l1 IH]; intros s; simpl; [done|].
  destruct (f s x) as [s1|e]; simpl; [apply IH|done].
Qed.

(** A property kept by every successful step holds at the end. *)
Lemma foldM_invariant {S X} (P : S → Prop) (f : S → X → Result S)
    (l : list X) (s s' : S) :
  P s →
  (∀ s0 x s1, P s0 → x ∈ l → f s0 x = Ok s1 → P s1) →
  foldM f s l = Ok s' → P s'.
Proof.
  revert s. induction l as [|x l IH]; intros s Hs Hstep; simpl.
  - by intros [= <-].
  - intros H. inv_bind H. eapply IH; [| |exact H].
    + eapply Hstep; [exact Hs| |exact E]. left.
    + intros s0 y s1 H0 Hy. apply Hstep; [done|by right].
Qed.

(** ** [buildTagsToShardIdsMap] *)

Lemma tag_keys_lookup (tags : list TagsType) (m : gmap string (list ShardId))
    (k : string) :
  foldl (λ m tag, <[getTag tag := []]> m) m tags !! k
  = if decide (k ∈ map getTag tags) then Some [] else m !! k.
Proof.
  revert m. induction tags as [|t tags IH]; intros m.
  - destruct (decide (k ∈ map getTag [])) as [Hin|_]; [|done].
    by apply elem_of_nil in Hin.
  - cbn [foldl]. rewrite IH. change (map getTag (t :: tags)) with (getTag t :: map getTag tags).
    destruct (decide (k ∈ map getTag tags)) as [Hin|Hn];
      destruct (decide (k ∈ getTag t :: map getTag tags)) as [Hin'|Hn']; try done.
    + destruct Hn'. by right.
    + apply elem_of_cons in Hin' as [->|?]; [|done]. by rewrite lookup_insert_eq.
    + rewrite lookup_insert_ne; [done|]. intros E. apply Hn'. rewrite E. by left.
Qed.


Lemma pushShard_lookup shard (m : gmap string (list ShardId)) tag k :
  pushShard shard m tag !! k
  = if decide (tag = k) then Some (default [] (m !! k) ++ [shard]) else m !! k.
Proof.
  unfold pushShard. destruct (decide (tag = k)) as [->|Hne].
  - by rewrite lookup_insert_eq.
  - by rewrite lookup_insert_ne.
Qed.






(** ** The strategy selector *)

(** C6. [calculateOptimizationStrategy] fails with InvalidOptions whenever
    [numInitialChunks] is nonzero and the collection is not empty or the
    shard key has no hashed field, and whenever [numInitialChunks] is
    nonzero, the pattern has no hashed prefix and [presplitHashedZones] is
    false.  Otherwise it returns what the constructor of the selected
    policy gives: of PresplitHashedZones if [presplitHashedZones] is set,
    else of SplitPointsBased if the tags are empty, the pattern has a hashed
    prefix and the collection is empty, else of SingleChunkPerTag if the
    tags are non-empty and the collection is empty, else the
    SingleChunkOnPrimary policy. *)
Theorem calculateOptimizationStrategy_decision (opCtx : OperationContext)
    (shardKeyPattern : ShardKeyPattern) (numInitialChunks : Z)
    (presplitHashedZones : bool) (tags : list TagsType) (numShards : Z)
    (collectionIsEmpty : bool) :
  ((numInitialChunks ≠ 0
    ∧ (collectionIsEmpty = false ∨ isHashedPattern shardKeyPattern = false))
   ∨ (numInitialChunks ≠ 0 ∧ hasHashedPrefix shardKeyPattern = false
      ∧ presplitHashedZones = false) →
   ∃ reason,
     calculateOptimizationStrategy opCtx shardKeyPattern numInitialChunks
       presplitHashedZones tags numShards collectionIsEmpty
     = Err (UserAssertion InvalidOptions reason))
  ∧ (¬ (numInitialChunks ≠ 0
        ∧ (collectionIsEmpty = false ∨ isHashedPattern shardKeyPattern = false)) →
     ¬ (numInitialChunks ≠ 0 ∧ hasHashedPrefix shardKeyPattern = false
        ∧ presplitHashedZones = false) →
     calculateOptimizationStrategy opCtx shardKeyPattern numInitialChunks
       presplitHashedZones tags numShards collectionIsEmpty
     = if presplitHashedZones then
         TagsBased <$> PresplitHashedZonesSplitPolicy.make opCtx shardKeyPattern
                         tags (toSizeT numInitialChunks) collectionIsEmpty
       else if bool_decide (tags = []) && hasHashedPrefix shardKeyPattern
               && collectionIsEmpty then
         SplitPointsBased <$> makeSplitPointsBased shardKeyPattern numShards
                                (toSizeT numInitialChunks)
       else if negb (bool_decide (tags = [])) && collectionIsEmpty then
         TagsBased <$> SingleChunkPerTagSplitPolicy.make opCtx tags
       else Ok SingleChunkOnPrimary).
Proof.
  unfold calculateOptimizationStrategy, chooseStrategy.
  destruct (numInitialChunks =? 0) eqn:En.
  - apply Z.eqb_eq in En. split.
    + intros [[Hn _]|[Hn _]]; done.
    + intros _ _. simpl.
      destruct presplitHashedZones; [done|].
      destruct (bool_decide (tags = [])), (hasHashedPrefix shardKeyPattern),
        collectionIsEmpty; done.
  - apply Z.eqb_neq in En. split.
    + intros [[_ H]|(_ & Hp & Hz)].
      * exists numInitialChunksNotSupported.
        destruct H as [-> | ->]; [destruct (isHashedPattern shardKeyPattern)|]; done.
      * rewrite Hp, Hz. simpl.
        destruct (isHashedPattern shardKeyPattern && collectionIsEmpty); simpl;
          eauto.
    + intros H1 H2.
      destruct (isHashedPattern shardKeyPattern) eqn:Eh; [|destruct H1; auto].
      destruct collectionIsEmpty; [|destruct H1; auto].
      simpl.
      destruct (hasHashedPrefix shardKeyPattern) eqn:Ep; simpl.
      * destruct presplitHashedZones; [done|].
        destruct (bool_decide (tags = [])); done.
      * destruct presplitHashedZones; [done|]. destruct H2; auto.
Qed.

(** ** [selectBestShard] *)

Lemma selectBestShardStep_leastLoaded chunkMap seen best shard best' :
  leastLoaded chunkMap seen best →
  selectBestShardStep chunkMap best shard = Ok best' →
  leastLoaded chunkMap (seen ++ [shard]) best'.
Proof.
  unfold selectBestShardStep. intros Hinv Hstep.
  destruct best as [[b n]|]; simpl in *.
  - destruct Hinv as (i & Hi & Hb & Hmin).
    pose proof (lookup_lt_Some _ _ _ Hi) as Hlt.
    destruct (chunkMap !! shard) as [c|] eqn:Ec; simpl in Hstep; [|done].
    injection Hstep as <-.
    destruct (c <? n) eqn:Ecn; simpl.
    + apply Z.ltb_lt in Ecn. exists (length seen). split; [|split].
      * by apply list_lookup_middle.
      * done.
      * intros j s m Hj Hm.
        destruct (decide (j < length seen)%nat) as [Hjl|Hjl].
        -- rewrite lookup_app_l in Hj by done.
           destruct (Hmin j s m Hj Hm). lia.
        -- rewrite lookup_app_r in Hj by lia.
           destruct (j - length seen)%nat eqn:Ej; simpl in Hj; [|done].
           injection Hj as <-. rewrite Ec in Hm. injection Hm as <-.
           split; [lia|]. lia.
    + apply Z.ltb_ge in Ecn. exists i. split; [|split].
      * by rewrite lookup_app_l.
      * done.
      * intros j s m Hj Hm.
        destruct (decide (j < length seen)%nat) as [Hjl|Hjl].
        -- rewrite lookup_app_l in Hj by done. by apply (Hmin j s m).
        -- rewrite lookup_app_r in Hj by lia.
           destruct (j - length seen)%nat eqn:Ej; simpl in Hj; [|done].
           injection Hj as <-. rewrite Ec in Hm. injection Hm as <-.
           split; [lia|]. lia.
  - injection Hstep as <-.
    destruct (chunkMap !! shard) as [c|] eqn:Ec; simpl.
    + exists (length seen). split; [|split].
      * by apply list_lookup_middle.
      * done.
      * intros j s m Hj Hm.
        destruct (decide (j < length seen)%nat) as [Hjl|Hjl].
        -- rewrite lookup_app_l in Hj by done.
           rewrite (Hinv s) in Hm; [done|]. by eapply list_elem_of_lookup_2.
        -- rewrite lookup_app_r in Hj by lia.
           destruct (j - length seen)%nat eqn:Ej; simpl in Hj; [|done].
           injection Hj as <-. rewrite Ec in Hm. injection Hm as <-.
           split; [lia|]. lia.
    + intros s Hs. apply elem_of_app in Hs as [Hs|Hs]; [by apply Hinv|].
      apply list_elem_of_singleton in Hs. by subst.
Qed.

Lemma selectBestShard_scan chunkMap (shards : list ShardId) best :
  foldM (selectBestShardStep chunkMap) None shards = Ok best →
  leastLoaded chunkMap shards best.
Proof.
  revert best. induction shards as [|shard seen IH] using rev_ind; intros best.
  - simpl. intros [= <-] s Hs. by apply elem_of_nil in Hs.
  - rewrite foldM_app. intros H. inv_bind H. simpl in H.
    destruct (selectBestShardStep chunkMap a shard) as [b|] eqn:Es; [|done].
    simpl in H. injection H as <-.
    eapply selectBestShardStep_leastLoaded; eauto.
Qed.

(** The scan succeeds when every shard of the zone is in the chunk map. *)
Lemma selectBestShard_scan_total chunkMap (shards : list ShardId) :
  (∀ s, s ∈ shards → is_Some (chunkMap !! s)) →
  ∃ best, foldM (selectBestShardStep chunkMap) None shards = Ok best
          ∧ (shards ≠ [] → is_Some best).
Proof.
  induction shards as [|shard seen IH] using rev_ind; intros Hall.
  - exists None. split; done.
  - destruct IH as (b & Hb & _).
    { intros s Hs. apply Hall, elem_of_app. by left. }
    rewrite foldM_app, Hb. simpl.
    destruct (Hall shard) as [c Hc]; [apply elem_of_app; right; by left|].
    unfold selectBestShardStep. rewrite Hc. simpl.
    destruct b as [b|]; simpl; eexists; (split; [done|]); intros _.
    + by destruct (c <? b.2).
    + done.
Qed.

(** C8. [selectBestShard] fails with 4952605 when the zone of the range
    (the empty name for a range in no zone) is not in [zoneToShards] and with
    4952607 when its shard list is empty.  A shard it returns is one of the
    zone's shards, has the smallest count in [chunkMap] among them, and every
    shard before it in the zone's list has a strictly larger count; it does
    return one when every shard of the zone is in [chunkMap]. *)
Theorem selectBestShard_least_loaded (chunkMap : gmap ShardId Z)
    (zoneInfo : ZoneInfo) (zoneToShards : gmap string (list ShardId))
    (chunkRange : ChunkRange) :
  (zoneToShards !! getZoneForChunk zoneInfo chunkRange = None →
   ∃ reason, selectBestShard chunkMap zoneInfo zoneToShards chunkRange
             = Err (UserAssertion 4952605 reason))
  ∧ (zoneToShards !! getZoneForChunk zoneInfo chunkRange = Some [] →
     ∃ reason, selectBestShard chunkMap zoneInfo zoneToShards chunkRange
               = Err (UserAssertion 4952607 reason))
  ∧ (∀ shards best,
       zoneToShards !! getZoneForChunk zoneInfo chunkRange = Some shards →
       selectBestShard chunkMap zoneInfo zoneToShards chunkRange = Ok best →
       ∃ (i : nat) n,
         shards !! i = Some best ∧ chunkMap !! best = Some n
         ∧ ∀ (j : nat) s m, shards !! j = Some s → chunkMap !! s = Some m →
             n ≤ m ∧ ((j < i)%nat → n < m))
  ∧ (∀ shards,
       zoneToShards !! getZoneForChunk zoneInfo chunkRange = Some shards →
       shards ≠ [] → (∀ s, s ∈ shards → is_Some (chunkMap !! s)) →
       ∃ best, selectBestShard chunkMap zoneInfo zoneToShards chunkRange
               = Ok best).
Proof.
  unfold selectBestShard. repeat split.
  - intros ->. eauto.
  - intros ->. simpl. eauto.
  - intros shards best -> H. inv_bind H. inv_bind H.
    destruct a0 as [[b n]|] eqn:Eb; [|done]. injection H as <-.
    apply selectBestShard_scan in E0. destruct E0 as (i & Hi & Hb & Hmin).
    exists i, n. eauto.
  - intros shards -> Hne Hall.
    destruct (selectBestShard_scan_total chunkMap shards Hall) as (b & Hb & Hsome).
    rewrite bool_decide_false by done. simpl. rewrite Hb. simpl.
    destruct (Hsome Hne) as [[s n] ->]. eauto.
Qed.

(** ** Emission

    Every policy builds its chunks by [appendChunk] alone, from the initial
    version and no chunks. *)

Lemma emits_trans params em1 em2 em3 :
  emits params em1 em2 → emits params em2 em3 → emits params em1 em3.
Proof.
  intros H12 H23. induction H23; [done|]. by constructor.
Qed.

Lemma emits_one params em min max shardId :
  emits params em (appendChunk params min max shardId em).
Proof. constructor. constructor. Qed.

(** A loop whose every successful step only emits, only emits. *)
Lemma foldM_emits {S X} params (proj : S → Emitter) (f : S → X → Result S)
    (l : list X) (s s' : S) :
  (∀ s0 x s1, f s0 x = Ok s1 → emits params (proj s0) (proj s1)) →
  foldM f s l = Ok s' → emits params (proj s) (proj s').
Proof.
  intros Hstep H.
  eapply (foldM_invariant (λ t, emits params (proj s) (proj t))); [| |exact H].
  - constructor.
  - intros s0 x s1 H0 _ Hs. eapply emits_trans; eauto.
Qed.

Lemma generateChunk_emits params pat fsp shards k st i st' :
  generateChunk params pat fsp shards k st i = Ok st' → emits params st st'.
Proof.
  unfold generateChunk. intros H. do 5 inv_bind H. injection H as <-.
  apply emits_one.
Qed.

Lemma generateShardCollectionInitialChunks_emits opCtx params pat validAfter
    sps shards k chunks :
  generateShardCollectionInitialChunks opCtx params pat validAfter sps shards k
  = Ok chunks →
  ∃ em, emits params (initialVersion opCtx validAfter, []) em ∧ chunks = em.2.
Proof.
  unfold generateShardCollectionInitialChunks. intros H. do 2 inv_bind H.
  injection H as <-. exists a0. split; [|done].
  eapply (foldM_emits params id); [|exact E0].
  intros ? ? ?. apply generateChunk_emits.
Qed.

Module TagsEmission.
Import AbstractTagsBasedSplitPolicy.

Lemma appendHole_emits params shardIds lastMax bound indx em r :
  appendHole params shardIds lastMax bound indx em = Ok r →
  emits params em r.2.
Proof.
  unfold appendHole. intros H. inv_bind H. destruct a as [shardId indx'].
  injection H as <-. apply emits_one.
Qed.

Lemma zoneChunk_emits params tag info shard st st' :
  zoneChunk params tag info shard st = Ok st' → emits params st.1 st'.1.
Proof.
  unfold zoneChunk. intros H. do 2 inv_bind H. injection H as <-.
  apply emits_one.
Qed.

Lemma zoneChunksOnShard_emits params tag info st entry st' :
  zoneChunksOnShard params tag info st entry = Ok st' →
  emits params st.1 st'.1.
Proof.
  unfold zoneChunksOnShard. apply (foldM_emits params fst).
  intros ? ? ?. apply zoneChunk_emits.
Qed.

Lemma createChunksForTag_emits params pat shardIds tagToShards st tag st' :
  createChunksForTag params pat shardIds tagToShards st tag = Ok st' →
  emits params (emitter st) (emitter st').
Proof.
  unfold createChunksForTag. intros H. bind_inv H as [indx' em1] Ehole.
  destruct (tagToShards !! getTag tag) as [shards|]; [|done].
  bind_inv H as ? Eassert. bind_inv H as [info policy'] Einfo.
  bind_inv H as ? Einv. bind_inv H as [em2 idx] Ezone.
  injection H as <-. simpl.
  eapply emits_trans; [|eapply emits_trans].
  - instantiate (1 := em1).
    destruct (woCompare (getMinKey tag) (lastChunkMax st));
      try (injection Ehole as <- <-; constructor).
    apply appendHole_emits in Ehole. exact Ehole.
  - eapply (foldM_emits params fst) in Ezone; [exact Ezone|].
    intros ? ? ?. apply zoneChunksOnShard_emits.
  - constructor.
Qed.

Lemma tags_createFirstChunks_emits self opCtx pat params chunks :
  createFirstChunks self opCtx pat params = Ok chunks →
  ∃ em, emits params (initialVersion opCtx (clusterTime opCtx), []) em
        ∧ chunks = em.2.
Proof.
  unfold createFirstChunks. intros H. do 3 inv_bind H. destruct a1 as [i em].
  injection H as <-. exists em. split; [|done].
  eapply (foldM_emits params emitter) in E0;
    [|intros ? ? ?; apply createChunksForTag_emits].
  simpl in E0. eapply emits_trans; [exact E0|].
  destruct (woCompare (lastChunkMax a0) (globalMax pat));
    try (injection E1 as <- <-; constructor).
  apply appendHole_emits in E1. exact E1.
Qed.

End TagsEmission.

Module SamplingEmission.
Import SamplingBasedSplitPolicy.

Lemma selectShardAndAppendChunk_emits params zi zm st chunkMax st' :
  selectShardAndAppendChunk params zi zm st chunkMax = Ok st' →
  emits params (emitter st) (emitter st').
Proof.
  unfold selectShardAndAppendChunk. intros H. inv_bind H. injection H as <-.
  apply emits_one.
Qed.

Lemma sampling_createFirstChunks_emits self opCtx pat params chunks :
  createFirstChunks self opCtx pat params = Ok chunks →
  ∃ em, emits params (initialVersion opCtx (clusterTime opCtx), []) em
        ∧ chunks = em.2.
Proof.
  unfold createFirstChunks. intros H. inv_bind H. destruct a as [sps self'].
  do 3 inv_bind H. injection H as <-. exists (emitter a1). split; [|done].
  eapply (foldM_emits params emitter) in E2;
    [exact E2|intros ? ? ?; apply selectShardAndAppendChunk_emits].
Qed.

End SamplingEmission.

Module DistributionEmission.
Import ShardDistributionSplitPolicy.

Lemma appendChunksFrom_emits ranges params sp pat idx em r :
  appendChunksFrom ranges params sp pat idx em = Ok r → emits params em r.2.
Proof.
  revert idx em. induction ranges as [|range ranges IH]; intros idx em; simpl.
  - intros [= <-]. constructor.
  - intros H. do 2 inv_bind H.
    destruct (bsonLt _ sp); [|injection H as <-; constructor].
    destruct (bsonLe _ sp).
    + apply IH in H. eapply emits_trans; [apply emits_one|exact H].
    + injection H as <-. apply emits_one.
Qed.

Lemma distribution_createFirstChunks_emits self opCtx pat params chunks :
  createFirstChunks self opCtx pat params = Ok chunks →
  ∃ em, emits params (initialVersion opCtx (clusterTime opCtx), []) em
        ∧ chunks = em.2.
Proof.
  unfold createFirstChunks. intros H. do 4 inv_bind H. injection H as <-.
  exists a1.2. split; [|done].
  eapply (foldM_emits params snd) in E1; [exact E1|].
  intros ? ? ?. apply appendChunksFrom_emits.
Qed.

End DistributionEmission.

Lemma createFirstChunks_emits policy opCtx pat params chunks :
  createFirstChunks policy opCtx pat params = Ok chunks →
  ∃ em, emits params (initialVersion opCtx (clusterTime opCtx), []) em
        ∧ chunks = em.2.
Proof.
  destruct policy as [|p|p|p|p]; simpl.
  - intros [= <-]. eexists. split; [apply emits_one|done].
  - apply generateShardCollectionInitialChunks_emits.
  - apply TagsEmission.tags_createFirstChunks_emits.
  - apply SamplingEmission.sampling_createFirstChunks_emits.
  - apply DistributionEmission.distribution_createFirstChunks_emits.
Qed.

(** ** Versions *)

Lemma emits_versions params v em :
  emits params (v, []) em →
  em.1 = versionAfter v (length em.2)
  ∧ ∀ (i : nat) c, em.2 !! i = Some c → getVersion c = versionAfter v i.
Proof.
  induction 1 as [|em' min max shardId _ [IHv IHc]]; simpl.
  - split; [|done]. destruct v; unfold versionAfter; simpl. f_equal. lia.
  - split.
    + rewrite IHv, length_app. simpl. unfold incMinor, versionAfter; simpl.
      f_equal. lia.
    + intros i c Hi.
      destruct (decide (i < length em'.2)%nat) as [Hlt|Hge].
      * rewrite lookup_app_l in Hi by done. by apply IHc.
      * rewrite lookup_app_r in Hi by lia.
        destruct (i - length em'.2)%nat eqn:Ei; simpl in Hi; [|done].
        injection Hi as <-. simpl. rewrite IHv. f_equal. lia.
Qed.

(** C2. [appendChunk] stamps the current version onto the chunk it appends
    and then increments the minor counter of the version; hence in the
    chunks of every policy all chunks carry the same epoch and timestamp,
    and the version of each chunk is lexicographically below the version of
    the next. *)
Theorem createFirstChunks_versions_increase :
  (∀ params min max shardId (em : Emitter),
     ∃ c, (appendChunk params min max shardId em).2 = em.2 ++ [c]
          ∧ getVersion c = em.1
          ∧ (appendChunk params min max shardId em).1
            = {| epoch := epoch em.1; getTimestamp := getTimestamp em.1;
                 majorVersion := majorVersion em.1;
                 minorVersion := minorVersion em.1 + 1 |})
  ∧ (∀ (policy : InitialSplitPolicy) opCtx shardKeyPattern params chunks,
       createFirstChunks policy opCtx shardKeyPattern params = Ok chunks →
       (∀ (i j : nat) c d, chunks !! i = Some c → chunks !! j = Some d →
          epoch (getVersion c) = epoch (getVersion d)
          ∧ getTimestamp (getVersion c) = getTimestamp (getVersion d))
       ∧ (∀ (i : nat) c d, chunks !! i = Some c → chunks !! S i = Some d →
            versionLt (getVersion c) (getVersion d))
       ∧ (∀ (i : nat) c, chunks !! i = Some c →
            getVersion c
            = {| epoch := genOID opCtx; getTimestamp := clusterTime opCtx;
                 majorVersion := 1; minorVersion := Z.of_nat i |})).
Proof.
  split.
  - intros params min max shardId em. eexists. split; [done|]. split; done.
  - intros policy opCtx pat params chunks H.
    apply createFirstChunks_emits in H as (em & Hem & ->).
    apply emits_versions in Hem as [_ Hc]. simpl in Hc.
    repeat split.
    + by rewrite (Hc i c), (Hc j d).
    + by rewrite (Hc i c), (Hc j d).
    + intros i c d Hi Hj. rewrite (Hc i c), (Hc (S i) d) by done.
      right. simpl. split; [done|lia].
    + intros i c Hi. by rewrite (Hc i c).
Qed.

(** ** Ordered sets *)

Lemma bsonLess_trans a b c : bsonLess a b → bsonLess b c → bsonLess a c.
Proof. apply (cmp_trans (cmp:=woCompare)). Qed.

Lemma bsonLess_irrefl a : ¬ bsonLess a a.
Proof. unfold bsonLess. by rewrite (cmp_refl woCompare). Qed.

Lemma isSet_NoDup s : isSet s → NoDup s.
Proof.
  induction 1 as [|x s Hs IH Hx]; [constructor|].
  constructor; [|done].
  intros Hin. rewrite Forall_forall in Hx.
  by eapply bsonLess_irrefl, Hx.
Qed.

Lemma setInsert_elements x s z :
  z ∈ (setInsert x s).1 ↔ z = x ∨ z ∈ s.
Proof.
  induction s as [|y s IH]; simpl.
  - rewrite list_elem_of_singleton, elem_of_nil. tauto.
  - destruct (woCompare x y) eqn:E; simpl.
    + apply (cmp_eq (cmp:=woCompare)) in E. subst. rewrite elem_of_cons. tauto.
    + rewrite !elem_of_cons. tauto.
    + rewrite !elem_of_cons, IH. tauto.
Qed.

Lemma setInsert_isSet x s : isSet s → isSet (setInsert x s).1.
Proof.
  induction 1 as [|y s Hs IH Hy]; simpl.
  - repeat constructor.
  - destruct (woCompare x y) eqn:E; simpl.
    + by constructor.
    + constructor; [by constructor|]. constructor; [done|].
      eapply Forall_impl; [exact Hy|]. intros z Hz. by eapply bsonLess_trans.
    + constructor; [done|]. apply Forall_forall. intros z Hz.
      apply setInsert_elements in Hz as [->|Hz].
      * by apply (cmp_gt_lt woCompare).
      * rewrite Forall_forall in Hy. by apply Hy.
Qed.

(** Inserting reports a new element exactly when it was not there, and the
    set grows by it. *)
Lemma setInsert_fresh x s :
  isSet s → (setInsert x s).2 = bool_decide (x ∉ s).
Proof.
  induction 1 as [|y s Hs IH Hy]; cbn [setInsert snd].
  - rewrite bool_decide_true; [done|]. apply not_elem_of_nil.
  - destruct (woCompare x y) eqn:E; cbn [snd].
    + apply (cmp_eq (cmp:=woCompare)) in E. subst.
      rewrite bool_decide_false; [done|]. intros H. apply H. left.
    + rewrite bool_decide_true; [done|]. intros Hin.
      apply elem_of_cons in Hin as [->|Hin].
      * by rewrite (cmp_refl woCompare) in E.
      * rewrite Forall_forall in Hy. apply Hy in Hin.
        eapply bsonLess_irrefl, bsonLess_trans; [exact E|exact Hin].
    + rewrite IH. apply bool_decide_ext. rewrite elem_of_cons.
      split; [|tauto]. intros Hn [->|Hin]; [|done].
      by rewrite (cmp_refl woCompare) in E.
Qed.

Lemma setInsert_length x s :
  length (setInsert x s).1
  = if (setInsert x s).2 then S (length s) else length s.
Proof.
  induction s as [|y s IH]; simpl; [done|].
  destruct (woCompare x y); simpl; try done.
  rewrite IH. by destruct (setInsert x s).2.
Qed.

Lemma setInsertAll_isSet l s : isSet s → isSet (setInsertAll l s).
Proof.
  revert s. induction l as [|x l IH]; intros s Hs; [done|].
  change (setInsertAll (x :: l) s) with (setInsertAll l (setInsert x s).1).
  apply IH. by apply setInsert_isSet.
Qed.

Lemma setInsertAll_elements l s z :
  z ∈ setInsertAll l s ↔ z ∈ l ∨ z ∈ s.
Proof.
  revert s. induction l as [|x l IH]; intros s.
  - change (setInsertAll [] s) with s. rewrite elem_of_nil. tauto.
  - change (setInsertAll (x :: l) s) with (setInsertAll l (setInsert x s).1).
    rewrite IH, setInsert_elements, elem_of_cons. tauto.
Qed.

(** Two sets with the same elements are the same list. *)
Lemma isSet_ext s1 s2 :
  isSet s1 → isSet s2 → (∀ z, z ∈ s1 ↔ z ∈ s2) → s1 = s2.
Proof.
  intros H1. revert s2. induction H1 as [|x s1 Hs1 IH Hx]; intros s2 H2 Hel.
  - destruct s2 as [|y s2]; [done|]. exfalso.
    eapply not_elem_of_nil, Hel. left.
  - destruct H2 as [|y s2 Hs2 Hy].
    { exfalso. eapply not_elem_of_nil, Hel. left. }
    rewrite Forall_forall in Hx, Hy.
    assert (x = y) as ->.
    { assert (x ∈ y :: s2) as Hxin by (apply Hel; left).
      assert (y ∈ x :: s1) as Hyin by (apply Hel; left).
      apply elem_of_cons in Hxin as [->|Hxin]; [done|].
      apply elem_of_cons in Hyin as [->|Hyin]; [done|].
      apply Hy in Hxin. apply Hx in Hyin.
      exfalso. eapply bsonLess_irrefl, bsonLess_trans; eauto. }
    f_equal. apply IH; [done|]. intros z. split; intros Hz.
    + assert (z ∈ y :: s2) as Hz' by (apply Hel; by right).
      apply elem_of_cons in Hz' as [->|?]; [|done].
      apply Hx in Hz. by apply bsonLess_irrefl in Hz.
    + assert (z ∈ y :: s1) as Hz' by (apply Hel; by right).
      apply elem_of_cons in Hz' as [->|?]; [|done].
      apply Hy in Hz. by apply bsonLess_irrefl in Hz.
Qed.

(** A set holds as many elements as the list it was collected from has
    distinct ones. *)
Lemma setInsertAll_length l :
  length (setInsertAll l []) = length (remove_dups l).
Proof.
  apply Permutation_length, NoDup_Permutation.
  - apply isSet_NoDup, setInsertAll_isSet. constructor.
  - apply NoDup_remove_dups.
  - intros z. rewrite setInsertAll_elements, elem_of_remove_dups, elem_of_nil.
    tauto.
Qed.

(** Collecting a list that is a set already changes nothing. *)
Lemma setInsertAll_of_set s : isSet s → setInsertAll s [] = s.
Proof.
  intros Hs. apply isSet_ext; [|done|].
  - apply setInsertAll_isSet. constructor.
  - intros z. rewrite setInsertAll_elements, elem_of_nil. tauto.
Qed.

(** ** [generateShardCollectionInitialChunks] *)

Lemma generateChunk_length params pat fsp shards k st i st' :
  generateChunk params pat fsp shards k st i = Ok st' →
  length st'.2 = S (length st.2).
Proof.
  unfold generateChunk. intros H. do 5 inv_bind H. injection H as <-.
  simpl. rewrite length_app. simpl. lia.
Qed.

Lemma foldM_generateChunk_length params pat fsp shards k l st st' :
  foldM (generateChunk params pat fsp shards k) st l = Ok st' →
  length st'.2 = (length st.2 + length l)%nat.
Proof.
  revert st. induction l as [|i l IH]; intros st; simpl.
  - intros [= <-]. lia.
  - intros H. inv_bind H. apply IH in H. apply generateChunk_length in E. lia.
Qed.

(** Every step of the loop succeeds when there is a shard and the number of
    contiguous chunks per shard is not zero. *)
Lemma foldM_generateChunk_total params pat fsp shards k l st :
  shards ≠ [] → toSizeT k ≠ 0 →
  (∀ i, i ∈ l → 0 ≤ i ≤ vsize fsp) →
  ∃ st', foldM (generateChunk params pat fsp shards k) st l = Ok st'.
Proof.
  intros Hs Hk. revert st. induction l as [|i l IH]; intros st Hl; simpl; [eauto|].
  assert (0 ≤ i ≤ vsize fsp) as Hi by (apply Hl; left).
  assert (∃ st1, generateChunk params pat fsp shards k st i = Ok st1) as [st1 ->].
  { unfold generateChunk, vsize in *.
    assert (∃ min, (if i =? 0 then Ok (globalMin pat) else vecAt fsp (i - 1))
                   = Ok min) as [min ->].
    { destruct (i =? 0) eqn:E; [eauto|]. apply Z.eqb_neq in E.
      unfold vecAt. rewrite (proj2 (Z.leb_le 0 (i - 1))) by lia.
      destruct (lookup_lt_is_Some_2 fsp (Z.to_nat (i - 1))) as [x ->]; [lia|eauto]. }
    assert (∃ max, (if i <? Z.of_nat (length fsp) then vecAt fsp i
                    else Ok (globalMax pat)) = Ok max) as [max ->].
    { destruct (i <? Z.of_nat (length fsp)) eqn:E; [|eauto]. apply Z.ltb_lt in E.
      unfold vecAt. rewrite (proj2 (Z.leb_le 0 i)) by lia.
      destruct (lookup_lt_is_Some_2 fsp (Z.to_nat i)) as [x ->]; [lia|eauto]. }
    simpl. unfold udiv. rewrite (proj2 (Z.eqb_neq _ 0)) by done. simpl.
    unfold umod. rewrite (proj2 (Z.eqb_neq _ 0)); [|destruct shards; simpl; [done|lia]].
    simpl. unfold vecAt.
    assert (0 ≤ toSizeT k) as Hk0 by (unfold toSizeT; apply Z.mod_pos_bound; lia).
    pose proof (Z.rem_bound_pos (i ÷ toSizeT k) (Z.of_nat (length shards))) as Hr.
    assert (0 ≤ i ÷ toSizeT k) as Hq by (apply Z.quot_pos; lia).
    assert (0 < Z.of_nat (length shards)) as Hlen by (destruct shards; simpl; [done|lia]).
    specialize (Hr Hq Hlen).
    rewrite (proj2 (Z.leb_le 0 _)) by lia.
    destruct (lookup_lt_is_Some_2 shards
                (Z.to_nat (Z.rem (i ÷ toSizeT k) (Z.of_nat (length shards)))))
      as [x ->]; [lia|]. simpl. eauto. }
  simpl. apply IH. intros j Hj. apply Hl. by right.
Qed.

(** C9. [generateShardCollectionInitialChunks] collects the split points
    into a sorted duplicate-free set first: two lists with the same elements,
    whatever their order and repetitions, give the same outcome; so does the
    sorted duplicate-free list of the split points; and the chunks are one
    more than the distinct split points.  It produces chunks whenever there
    is a shard and [numContiguousChunksPerShard] is not zero. *)
Theorem generateShardCollectionInitialChunks_set_of_splitPoints
    (opCtx : OperationContext) (params : SplitPolicyParams)
    (shardKeyPattern : ShardKeyPattern) (validAfter : Timestamp)
    (splitPoints : list BSONObj) (allShardIds : list ShardId)
    (numContiguousChunksPerShard : Z) :
  (∀ splitPoints',
     (∀ p, p ∈ splitPoints ↔ p ∈ splitPoints') →
     generateShardCollectionInitialChunks opCtx params shardKeyPattern
       validAfter splitPoints' allShardIds numContiguousChunksPerShard
     = generateShardCollectionInitialChunks opCtx params shardKeyPattern
         validAfter splitPoints allShardIds numContiguousChunksPerShard)
  ∧ (∀ sorted,
       StronglySorted (λ a b, woCompare a b = Lt) sorted →
       (∀ p, p ∈ splitPoints ↔ p ∈ sorted) →
       setInsertAll splitPoints [] = sorted
       ∧ generateShardCollectionInitialChunks opCtx params shardKeyPattern
           validAfter sorted allShardIds numContiguousChunksPerShard
         = generateShardCollectionInitialChunks opCtx params shardKeyPattern
             validAfter splitPoints allShardIds numContiguousChunksPerShard)
  ∧ (∀ chunks,
       generateShardCollectionInitialChunks opCtx params shardKeyPattern
         validAfter splitPoints allShardIds numContiguousChunksPerShard
       = Ok chunks →
       length chunks = S (length (remove_dups splitPoints)))
  ∧ (allShardIds ≠ [] → toSizeT numContiguousChunksPerShard ≠ 0 →
     ∃ chunks,
       generateShardCollectionInitialChunks opCtx params shardKeyPattern
         validAfter splitPoints allShardIds numContiguousChunksPerShard
       = Ok chunks).
Proof.
  assert (∀ l1 l2 : list BSONObj, (∀ p, p ∈ l1 ↔ p ∈ l2) →
            setInsertAll l2 [] = setInsertAll l1 []) as Hsame.
  { intros l1 l2 Hel. apply isSet_ext.
    - apply setInsertAll_isSet. constructor.
    - apply setInsertAll_isSet. constructor.
    - intros z. rewrite !setInsertAll_elements, Hel. tauto. }
  repeat split.
  - intros sps' Hel. unfold generateShardCollectionInitialChunks.
    by rewrite (Hsame splitPoints sps' Hel).
  - rewrite <- (setInsertAll_of_set sorted H). symmetry. by apply Hsame.
  - unfold generateShardCollectionInitialChunks.
    by rewrite (Hsame splitPoints sorted H0).
  - intros chunks H. unfold generateShardCollectionInitialChunks in H.
    do 2 inv_bind H. injection H as <-.
    apply foldM_generateChunk_length in E0. simpl in E0.
    rewrite E0, length_map, length_seq, setInsertAll_length. done.
  - intros Hs Hk.
    destruct (foldM_generateChunk_total params shardKeyPattern
                (setInsertAll splitPoints []) allShardIds
                numContiguousChunksPerShard
                (map Z.of_nat (seq 0 (S (length (setInsertAll splitPoints [])))))
                (initialVersion opCtx validAfter, []) Hs Hk) as [st' Hst].
    { intros i Hi. apply list_elem_of_fmap in Hi as (n & -> & Hn).
      apply elem_of_seq in Hn. unfold vsize. lia. }
    exists st'.2. unfold generateShardCollectionInitialChunks.
    rewrite bool_decide_false by done. rewrite Hst. done.
Qed.

(** ** [SamplingBasedSplitPolicy::createFirstSplitPoints] *)

Lemma setErase_isSet x s : isSet s → isSet (setErase x s).
Proof.
  assert (∀ s z, z ∈ setErase x s → z ∈ s) as Hsub.
  { clear. intros s z. induction s as [|y s IH]; simpl; [done|].
    destruct (woCompare x y); rewrite ?elem_of_cons; intros H;
      rewrite ?elem_of_cons in H; tauto. }
  induction 1 as [|y s Hs IH Hy]; simpl; [constructor|].
  destruct (woCompare x y); try done;
    (constructor; [done|]); rewrite Forall_forall in *; intros z Hz;
    apply Hy, Hsub, Hz.
Qed.

Lemma extractSplitPointsFromZones_isSet pat zones :
  isSet (extractSplitPointsFromZones pat zones).
Proof.
  unfold extractSplitPointsFromZones. destruct zones as [zs|]; [|constructor].
  do 2 apply setErase_isSet.
  assert (∀ s, isSet s →
            isSet (foldl (λ acc zone,
                            (setInsert (getMaxKey zone)
                               (setInsert (getMinKey zone) acc).1).1) s zs))
    as H; [|apply H; constructor].
  induction zs as [|z zs IH]; intros s Hs; simpl; [done|].
  apply IH. by do 2 apply setInsert_isSet.
Qed.

Lemma setInsertAll_cons x l s :
  setInsertAll (x :: l) s = setInsertAll l (setInsert x s).1.
Proof. done. Qed.

Lemma setInsertAll_length_le l s : (length s ≤ length (setInsertAll l s))%nat.
Proof.
  revert s. induction l as [|x l IH]; intros s; [done|].
  rewrite setInsertAll_cons. etrans; [|apply IH].
  rewrite setInsert_length. destruct (setInsert x s).2; lia.
Qed.

Module SamplingSplitPoints.
Import SamplingBasedSplitPolicy.

(** The loop stops with the wanted number of new split points, or with
    everything the source had to offer. *)
Lemma appendFromSample_spec samples nRemaining splitPoints :
  0 ≤ nRemaining →
  let r := appendFromSample samples nRemaining splitPoints in
  let all := setInsertAll samples splitPoints in
  (vsize splitPoints + nRemaining ≤ vsize all →
   vsize r.1 = vsize splitPoints + nRemaining)
  ∧ (vsize all < vsize splitPoints + nRemaining → r.1 = all).
Proof.
  revert nRemaining splitPoints.
  induction samples as [|key rest IH]; intros n sp Hn; cbn zeta;
    cbn [appendFromSample].
  - change (setInsertAll [] sp) with sp. cbn [fst]. split; [|done].
    unfold vsize. lia.
  - destruct (0 <? n) eqn:E.
    + apply Z.ltb_lt in E. rewrite setInsertAll_cons.
      pose proof (setInsert_length key sp) as Hlen.
      destruct (setInsert key sp) as [sp1 fresh]; cbn [fst snd] in *.
      destruct fresh.
      * destruct (IH (n - 1) sp1) as [IH1 IH2]; [lia|].
        unfold vsize in *. rewrite Hlen in *. split; intros H.
        -- rewrite IH1; lia.
        -- apply IH2. lia.
      * destruct (IH n sp1) as [IH1 IH2]; [lia|].
        unfold vsize in *. rewrite Hlen in *. split; intros H.
        -- rewrite IH1; lia.
        -- apply IH2. lia.
    + apply Z.ltb_ge in E. assert (n = 0) as -> by lia. cbn [fst]. split.
      * intros _. lia.
      * intros H. exfalso.
        pose proof (setInsertAll_length_le (key :: rest) sp). unfold vsize in H.
        lia.
Qed.

Lemma toSizeT_small z : 0 ≤ z < 2 ^ 64 → toSizeT z = z.
Proof. intros. unfold toSizeT. by apply Z.mod_small. Qed.

Lemma toInt_small z : - 2 ^ 31 ≤ z < 2 ^ 31 → toInt z = z.
Proof. intros. unfold toInt. rewrite Z.mod_small; lia. Qed.

End SamplingSplitPoints.

(** C5. For a policy with [0 < numInitialChunks] (the constructor asserts
    it; the field is an [int]), [createFirstSplitPoints] fails with
    4952606 if and only if the zone boundaries together with the whole
    sample source hold fewer than [numInitialChunks - 1] distinct split
    points; the message then names [numInitialChunks] and the number of
    chunks that can be made, the split points collected plus one; and it
    fails in no other way. *)
Theorem createFirstSplitPoints_cardinality
    (self : SamplingBasedSplitPolicy.t) (shardKey : ShardKeyPattern) :
  0 < SamplingBasedSplitPolicy._numInitialChunks self ≤ INT_MAX →
  let n := SamplingBasedSplitPolicy._numInitialChunks self in
  let collected := achievableSplitPoints self shardKey in
  ((∃ reason, SamplingBasedSplitPolicy.createFirstSplitPoints self shardKey
              = Err (UserAssertion 4952606 reason))
   ↔ vsize collected < n - 1)
  ∧ (vsize collected < n - 1 →
     SamplingBasedSplitPolicy.createFirstSplitPoints self shardKey
     = Err (UserAssertion 4952606
              (SamplingBasedSplitPolicy.notEnoughCardinality n
                 (vsize collected + 1))))
  ∧ (n - 1 ≤ vsize collected →
     ∃ splitPoints self',
       SamplingBasedSplitPolicy.createFirstSplitPoints self shardKey
       = Ok (splitPoints, self')
       ∧ n - 1 ≤ vsize splitPoints).
Proof.
  intros Hn. cbn zeta. unfold achievableSplitPoints, INT_MAX in *.
  set (n := SamplingBasedSplitPolicy._numInitialChunks self) in *.
  set (seeds := extractSplitPointsFromZones shardKey _).
  set (collected := setInsertAll _ seeds).
  pose proof (setInsertAll_length_le
                (SamplingBasedSplitPolicy._samples self) seeds) as Hle.
  fold collected in Hle.
  assert (SamplingBasedSplitPolicy.createFirstSplitPoints self shardKey
          = let r := if vsize seeds <? n - 1
                     then SamplingBasedSplitPolicy.appendFromSample
                            (SamplingBasedSplitPolicy._samples self)
                            (n - vsize seeds - 1) seeds
                     else (seeds, SamplingBasedSplitPolicy._samples self) in
            _ ← uassert 4952606
                  (SamplingBasedSplitPolicy.notEnoughCardinality n (vsize r.1 + 1))
                  (n - 1 <=? vsize r.1);
            Ok (r.1, {| SamplingBasedSplitPolicy._numInitialChunks := n;
                        SamplingBasedSplitPolicy._zones :=
                          map (SamplingBasedSplitPolicy.extendZone shardKey)
                            <$> SamplingBasedSplitPolicy._zones self;
                        SamplingBasedSplitPolicy._samples := r.2 |})) as ->.
  { unfold SamplingBasedSplitPolicy.createFirstSplitPoints.
    cbn [SamplingBasedSplitPolicy._numInitialChunks
         SamplingBasedSplitPolicy._zones SamplingBasedSplitPolicy._samples].
    fold n. fold seeds.
    rewrite (SamplingSplitPoints.toSizeT_small (n - 1)) by lia.
    destruct (vsize seeds <? n - 1) eqn:E.
    - apply Z.ltb_lt in E.
      rewrite (SamplingSplitPoints.toSizeT_small (n - vsize seeds - 1))
        by (unfold vsize in *; lia).
      rewrite SamplingSplitPoints.toInt_small by (unfold vsize in *; lia).
      unfold SamplingBasedSplitPolicy._appendSplitPointsFromSample.
      cbn [SamplingBasedSplitPolicy._numInitialChunks
           SamplingBasedSplitPolicy._zones SamplingBasedSplitPolicy._samples
           fst snd].
      fold n. rewrite (SamplingSplitPoints.toSizeT_small (n - 1)) by lia.
      done.
    - cbn [SamplingBasedSplitPolicy._numInitialChunks fst snd]. fold n.
      rewrite (SamplingSplitPoints.toSizeT_small (n - 1)) by lia. done. }
  cbn zeta.
  assert (vsize collected < n - 1 →
          (if vsize seeds <? n - 1
           then SamplingBasedSplitPolicy.appendFromSample
                  (SamplingBasedSplitPolicy._samples self)
                  (n - vsize seeds - 1) seeds
           else (seeds, SamplingBasedSplitPolicy._samples self)).1
          = collected) as Hall.
  { intros Hlt.
    rewrite (proj2 (Z.ltb_lt (vsize seeds) (n - 1))) by (unfold vsize in *; lia).
    destruct (SamplingSplitPoints.appendFromSample_spec
                (SamplingBasedSplitPolicy._samples self)
                (n - vsize seeds - 1) seeds) as [_ Hall];
      [unfold vsize in *; lia|].
    cbn zeta in Hall. apply Hall. fold collected. lia. }
  assert (n - 1 ≤ vsize collected →
          n - 1 ≤ vsize (if vsize seeds <? n - 1
                         then SamplingBasedSplitPolicy.appendFromSample
                                (SamplingBasedSplitPolicy._samples self)
                                (n - vsize seeds - 1) seeds
                         else (seeds, SamplingBasedSplitPolicy._samples self)).1)
    as Hlen.
  { intros Hge. destruct (vsize seeds <? n - 1) eqn:E.
    - apply Z.ltb_lt in E.
      destruct (SamplingSplitPoints.appendFromSample_spec
                  (SamplingBasedSplitPolicy._samples self)
                  (n - vsize seeds - 1) seeds) as [Hlen _]; [lia|].
      cbn zeta in Hlen. rewrite Hlen; [lia|]. fold collected. lia.
    - apply Z.ltb_ge in E. done. }
  assert (vsize collected < n - 1 ∨ n - 1 ≤ vsize collected) as [Hlt|Hge] by lia.
  - specialize (Hall Hlt). rewrite Hall.
    rewrite (proj2 (Z.leb_gt (n - 1) (vsize collected))) by lia.
    split; [split; [done|eauto]|]. split; [done|]. lia.
  - specialize (Hlen Hge).
    rewrite (proj2 (Z.leb_le (n - 1) _)) by done.
    split; [split; [intros [? [=]]|lia]|]. split; [lia|].
    intros _. eexists _, _. split; [done|]. done.
Qed.

(** ** Sorting *)

Lemma bsonLessEq_trans a b c : bsonLessEq a b → bsonLessEq b c → bsonLessEq a c.
Proof.
  unfold bsonLessEq. intros Hab Hbc Hac.
  destruct (woCompare a b) eqn:Eab; [| |done].
  - apply (cmp_eq (cmp:=woCompare)) in Eab. by subst.
  - pose proof (proj1 (cmp_gt_lt woCompare a c) Hac) as Hca.
    destruct (woCompare b c) eqn:Ebc; [| |done].
    + apply (cmp_eq (cmp:=woCompare)) in Ebc. subst. congruence.
    + pose proof (cmp_trans (cmp:=woCompare) _ _ _ Ebc Hca) as Hba.
      apply (cmp_gt_lt woCompare) in Hba. congruence.
Qed.

Lemma sortInsert_Permutation x l : sortInsert x l ≡ₚ x :: l.
Proof.
  induction l as [|y l IH]; simpl; [done|].
  destruct (bsonLt y x); [|done]. rewrite IH. apply perm_swap.
Qed.

Lemma sort_Permutation l : sort l ≡ₚ l.
Proof.
  induction l as [|x l IH]; simpl; [done|].
  rewrite sortInsert_Permutation. by constructor.
Qed.

Lemma sortInsert_sorted x l :
  StronglySorted bsonLessEq l → StronglySorted bsonLessEq (sortInsert x l).
Proof.
  induction 1 as [|y l Hl IH Hy]; simpl.
  - repeat constructor.
  - unfold bsonLt. destruct (woCompare y x) eqn:E.
    + constructor; [by constructor|]. apply (cmp_eq (cmp:=woCompare)) in E.
      subst. constructor; [|done]. unfold bsonLessEq.
      by rewrite (cmp_refl woCompare).
    + constructor; [done|]. apply Forall_forall. intros z Hz.
      rewrite sortInsert_Permutation in Hz.
      apply elem_of_cons in Hz as [->|Hz].
      * unfold bsonLessEq. by rewrite E.
      * rewrite Forall_forall in Hy. by apply Hy.
    + assert (bsonLessEq x y) as Hxy.
      { unfold bsonLessEq. pose proof (proj1 (cmp_gt_lt woCompare y x) E) as E'.
        by rewrite E'. }
      constructor; [by constructor|]. constructor; [done|].
      eapply Forall_impl; [exact Hy|]. intros z Hz.
      by eapply bsonLessEq_trans.
Qed.

Lemma sort_sorted l : StronglySorted bsonLessEq (sort l).
Proof.
  induction l as [|x l IH]; simpl; [constructor|]. by apply sortInsert_sorted.
Qed.

(** ** [calculateHashedSplitPoints] *)

Lemma woCompare_app_same (p a b : BSONObj) :
  woCompare (p ++ a) (p ++ b) = woCompare a b.
Proof.
  induction p as [|e p IH]; simpl; [done|].
  by rewrite (cmp_refl elemWoCompare).
Qed.

(** Split points of one pattern and prefix compare as their hashed values. *)
Lemma buildSplitPoint_compare pat prefix (a b : Z) :
  woCompare (buildSplitPoint pat prefix a) (buildSplitPoint pat prefix b)
  = (a ?= b).
Proof.
  unfold buildSplitPoint. rewrite woCompare_app_same. simpl.
  unfold elemWoCompare. simpl. rewrite (cmp_refl String.compare). simpl.
  destruct (a ?= b); simpl; try done. apply (cmp_refl woCompare).
Qed.

Lemma buildSplitPoint_inj pat prefix : Inj (=) (=) (buildSplitPoint pat prefix).
Proof.
  intros a b H. apply Z.compare_eq. rewrite <- (buildSplitPoint_compare pat prefix).
  rewrite H. apply (cmp_refl woCompare).
Qed.

Lemma toLongLong_small z : - 2 ^ 63 ≤ z < 2 ^ 63 → toLongLong z = z.
Proof. intros. unfold toLongLong. rewrite Z.mod_small; lia. Qed.

(** The loop pushes the pairs of an arithmetic progression as long as it
    stays within [long long]. *)
Lemma hashedSplitLoop_pairs (count : nat) (step current : Z)
    (build : Z → BSONObj) (acc : list BSONObj) :
  0 ≤ step → 0 ≤ current → current + Z.of_nat count * step < 2 ^ 63 →
  hashedSplitLoop count step current build acc
  = acc ++ map build (hashedPairs current step count).
Proof.
  revert current acc. induction count as [|count IH]; intros cur acc Hs Hc Hb.
  - simpl. by rewrite app_nil_r.
  - cbn [hashedSplitLoop].
    rewrite Nat2Z.inj_succ, Z.mul_succ_l in Hb.
    assert (0 ≤ Z.of_nat count * step) as Hcs by (apply Z.mul_nonneg_nonneg; lia).
    rewrite !toLongLong_small by lia.
    rewrite IH; [|done|lia|lia]. rewrite <- app_assoc. f_equal.
    unfold hashedPairs. rewrite <- cons_seq, <- seq_shift. simpl.
    rewrite Z.add_0_r. do 2 f_equal.
    rewrite !flat_map_concat_map, !map_map. do 2 f_equal.
    apply map_ext. intros k. f_equal; [|f_equal]; lia.
Qed.

(** The hashed values are pairwise distinct. *)
Lemma hashedPairs_elem first step pairs z :
  z ∈ hashedPairs first step pairs →
  ∃ k : nat, (k < pairs)%nat
             ∧ (z = first + Z.of_nat k * step ∨ z = - (first + Z.of_nat k * step)).
Proof.
  unfold hashedPairs. intros Hz. apply list_elem_of_In, in_flat_map in Hz.
  destruct Hz as (k & Hk & Hz). apply in_seq in Hk. exists k. split; [lia|].
  simpl in Hz. destruct Hz as [<-|[<-|[]]]; auto.
Qed.

Lemma hashedPairs_NoDup first step pairs :
  0 < first → 0 < step → NoDup (hashedPairs first step pairs).
Proof.
  intros Hf Hs. induction pairs as [|pairs IH].
  - constructor.
  - unfold hashedPairs in *. rewrite seq_S, flat_map_app. simpl.
    apply NoDup_app. split; [done|]. split.
    + intros z Hz Hz'. apply hashedPairs_elem in Hz as (k & Hk & Hz).
      rewrite !elem_of_cons, elem_of_nil in Hz'. nia.
    + apply NoDup_cons. split; [|apply NoDup_singleton].
      rewrite list_elem_of_singleton. nia.
Qed.

Lemma hashedPairs_length first step pairs :
  length (hashedPairs first step pairs) = (2 * pairs)%nat.
Proof.
  unfold hashedPairs. induction pairs as [|pairs IH]; [done|].
  rewrite seq_S, flat_map_app, length_app, IH. simpl. lia.
Qed.

Lemma expectedHashedValues_NoDup n : 2 ≤ n < 2 ^ 31 → NoDup (expectedHashedValues n).
Proof.
  intros Hn. unfold expectedHashedValues, hashedInterval.
  assert (2 ^ 32 ≤ (2 ^ 63 - 1) / n) as Hq.
  { apply Z.div_le_lower_bound; [lia|]. nia. }
  destruct (Z.even n).
  - apply NoDup_cons. split; [|apply hashedPairs_NoDup; lia].
    intros H0. apply hashedPairs_elem in H0 as (k & _ & H0). nia.
  - apply hashedPairs_NoDup; [|lia].
    rewrite Z.div_mul by lia. lia.
Qed.

Lemma expectedHashedValues_length n :
  1 ≤ n → length (expectedHashedValues n) = Z.to_nat (n - 1).
Proof.
  intros Hn. unfold expectedHashedValues.
  destruct (Z.even n) eqn:E; simpl; rewrite hashedPairs_length.
  - apply Z.even_spec in E as [m ->].
    replace ((2 * m - 1) / 2) with (m - 1); [lia|].
    apply (Z.div_unique _ _ _ 1); lia.
  - rewrite <- Z.negb_odd in E. apply negb_false_iff, Z.odd_spec in E as [m ->].
    replace ((2 * m + 1 - 1) / 2) with m; [lia|].
    apply (Z.div_unique _ _ _ 0); lia.
Qed.

(** What the function pushes before it sorts. *)
Lemma calculateHashedSplitPoints_unsorted pat prefix n :
  isHashedPattern pat = true → 2 ≤ n ≤ INT_MAX →
  calculateHashedSplitPoints pat prefix n
  = Ok (sort (map (buildSplitPoint pat prefix) (expectedHashedValues n))).
Proof.
  unfold INT_MAX. intros Hp Hn. unfold calculateHashedSplitPoints.
  rewrite Hp. simpl. rewrite (proj2 (Z.ltb_lt 0 n)) by lia. simpl.
  rewrite (proj2 (Z.eqb_neq n 1)) by lia.
  unfold LLONG_MAX. rewrite !Z.quot_div_nonneg by lia.
  assert (2 ^ 32 ≤ (2 ^ 63 - 1) / n) as Hq.
  { apply Z.div_le_lower_bound; [lia|]. nia. }
  assert (n * ((2 ^ 63 - 1) / n) ≤ 2 ^ 63 - 1) as Hnq.
  { apply Z.mul_div_le. lia. }
  rewrite (toLongLong_small ((2 ^ 63 - 1) / n * 2)) by nia.
  rewrite Z.rem_mod_nonneg by lia.
  unfold expectedHashedValues, hashedInterval. do 2 f_equal.
  destruct (Z.even n) eqn:Ev.
  - apply Z.even_spec in Ev as [m Hm].
    assert (n mod 2 = 0) as -> by (rewrite Hm, Z.mul_comm, Z.mod_mul; lia).
    simpl. rewrite Z.add_0_l.
    rewrite (toLongLong_small ((2 ^ 63 - 1) / n * 2)) by nia.
    assert ((n - 1) / 2 = m - 1) as Hc.
    { symmetry. apply (Z.div_unique _ _ _ 1); lia. }
    rewrite Hc.
    rewrite hashedSplitLoop_pairs; [done|lia|lia|]. nia.
  - rewrite <- Z.negb_odd in Ev. apply negb_false_iff, Z.odd_spec in Ev as [m Hm].
    assert (n mod 2 = 1) as ->.
    { rewrite Hm, Z.add_comm, Z.mul_comm, Z.mod_add; [done|lia]. }
    simpl. rewrite Z.add_0_l.
    rewrite !Z.quot_div_nonneg by lia. rewrite Z.div_mul by lia.
    rewrite (toLongLong_small ((2 ^ 63 - 1) / n)) by lia.
    assert ((n - 1) / 2 = m) as Hc.
    { symmetry. apply (Z.div_unique _ _ _ 0); lia. }
    rewrite Hc.
    rewrite hashedSplitLoop_pairs; [done|lia|lia|]. nia.
Qed.

Lemma sorted_values_strict pat prefix (values : list Z) :
  StronglySorted bsonLessEq (map (buildSplitPoint pat prefix) values) →
  NoDup values → StronglySorted Z.lt values.
Proof.
  induction values as [|v values IH]; simpl; intros Hs Hnd; [constructor|].
  apply StronglySorted_inv in Hs as [Hs Hv]. apply NoDup_cons in Hnd as [Hn Hnd].
  constructor; [by apply IH|].
  apply Forall_forall. intros w Hw.
  rewrite Forall_forall in Hv.
  specialize (Hv (buildSplitPoint pat prefix w)).
  unfold bsonLessEq in Hv. rewrite buildSplitPoint_compare in Hv.
  assert (v ≠ w) by (intros ->; done).
  assert ((v ?= w) ≠ Gt) as Hle.
  { apply Hv, list_elem_of_fmap. eauto. }
  destruct (Z.compare_spec v w); done.
Qed.

Lemma sorted_values_splitPoints pat prefix (values : list Z) :
  StronglySorted Z.lt values →
  StronglySorted bsonLess (map (buildSplitPoint pat prefix) values).
Proof.
  induction 1 as [|v values Hs IH Hv]; simpl; constructor; [done|].
  apply Forall_forall. intros b Hb.
  apply list_elem_of_fmap in Hb as (w & -> & Hw).
  rewrite Forall_forall in Hv. unfold bsonLess.
  rewrite buildSplitPoint_compare. by apply Z.compare_lt_iff, Hv.
Qed.

Lemma fieldsAfter_split (name : string) (p : BSONObj) :
  (∃ e, e ∈ p ∧ e.1 = name) →
  ∃ before field after,
    p = before ++ field :: after ∧ field.1 = name
    ∧ (∀ e, e ∈ before → e.1 ≠ name) ∧ fieldsAfter name p = after.
Proof.
  induction p as [|x p IH]; intros (e & He & Hn).
  - by apply elem_of_nil in He.
  - simpl. destruct (decide (x.1 = name)) as [Hx|Hx].
    + rewrite bool_decide_true by done. exists [], x, p.
      repeat split; [done|]. intros e' He'. by apply elem_of_nil in He'.
    + rewrite bool_decide_false by done.
      destruct IH as (before & field & after & -> & Hf & Hb & Ha).
      { apply elem_of_cons in He as [->|He]; [done|]. eauto. }
      exists (x :: before), field, after. repeat split; [done| |done].
      intros e' He'. apply elem_of_cons in He' as [->|He']; [done|by apply Hb].
Qed.

Lemma getHashedField_elem (pat : ShardKeyPattern) :
  isHashedPattern pat = true →
  ∃ h, getHashedField pat = Some h ∧ h ∈ pat ∧ h.1 = hashedFieldName pat.
Proof.
  unfold isHashedPattern, hashedFieldName.
  destruct (getHashedField pat) as [h|] eqn:E; [|done]. intros _.
  exists h. repeat split. apply find_some in E as [E _].
  by apply list_elem_of_In.
Qed.

(** C4. For a hashed pattern and [1 ≤ n] (an [int]),
    [calculateHashedSplitPoints] returns exactly [n - 1] split points in
    strictly ascending order, none for [n = 1]; their hashed values are
    those the specification lists (for an even [n] the value [0] with the
    pairs [±interval, ±2·interval, …], for an odd [n] the pairs
    [±(interval/2), ±(interval/2 + interval), …] and no zero, with
    [interval = (INT64_MAX / n) * 2]); and each split point is the prefix,
    then the hashed field with its value, then MinKey for every field after
    the hashed field. *)
Theorem calculateHashedSplitPoints_values (shardKeyPattern : ShardKeyPattern)
    (prefix : BSONObj) (numInitialChunks : Z) :
  isHashedPattern shardKeyPattern = true →
  1 ≤ numInitialChunks ≤ INT_MAX →
  ∃ values,
    calculateHashedSplitPoints shardKeyPattern prefix numInitialChunks
    = Ok (map (buildSplitPoint shardKeyPattern prefix) values)
    ∧ length values = Z.to_nat (numInitialChunks - 1)
    ∧ StronglySorted Z.lt values
    ∧ StronglySorted (λ a b, woCompare a b = Lt)
        (map (buildSplitPoint shardKeyPattern prefix) values)
    ∧ values ≡ₚ expectedHashedValues numInitialChunks
    ∧ (numInitialChunks = 1 → values = [])
    ∧ ∃ before field after,
        shardKeyPattern = before ++ field :: after
        ∧ field.1 = hashedFieldName shardKeyPattern
        ∧ (∀ e, e ∈ before → e.1 ≠ hashedFieldName shardKeyPattern)
        ∧ (NoDup (map fst shardKeyPattern) →
           getHashedField shardKeyPattern = Some field)
        ∧ ∀ v, buildSplitPoint shardKeyPattern prefix v
               = prefix ++ [(field.1, VNumberLong v)]
                 ++ map (λ e : BSONElement, (e.1, VMinKey)) after.
Proof.
  intros Hp Hn.
  assert (∃ before field after,
        shardKeyPattern = before ++ field :: after
        ∧ field.1 = hashedFieldName shardKeyPattern
        ∧ (∀ e, e ∈ before → e.1 ≠ hashedFieldName shardKeyPattern)
        ∧ (NoDup (map fst shardKeyPattern) →
           getHashedField shardKeyPattern = Some field)
        ∧ ∀ v, buildSplitPoint shardKeyPattern prefix v
               = prefix ++ [(field.1, VNumberLong v)]
                 ++ map (λ e : BSONElement, (e.1, VMinKey)) after) as Hshape.
  { destruct (getHashedField_elem _ Hp) as (h & Hh & Hin & Hname).
    destruct (fieldsAfter_split (hashedFieldName shardKeyPattern) shardKeyPattern)
      as (before & field & after & Hpat & Hf & Hb & Ha); [eauto|].
    exists before, field, after. repeat split; try done.
    - intros Hnd. rewrite Hh. f_equal.
      rewrite Hpat in Hnd, Hin. rewrite map_app in Hnd. simpl in Hnd.
      apply NoDup_app in Hnd as (_ & Hdisj & Hnd).
      apply NoDup_cons in Hnd as [Hnotin _].
      apply elem_of_app in Hin as [Hin|Hin].
      + exfalso. by apply (Hb h).
      + apply elem_of_cons in Hin as [->|Hin]; [done|].
        exfalso. apply Hnotin. rewrite Hf, <- Hname.
        apply list_elem_of_fmap. eauto.
    - intros v. unfold buildSplitPoint. by rewrite Ha, Hf. }
  destruct (decide (numInitialChunks = 1)) as [->|Hne].
  - exists []. repeat split; try done.
    + unfold calculateHashedSplitPoints. by rewrite Hp.
    + constructor.
    + constructor.
  - rewrite calculateHashedSplitPoints_unsorted by (try done; lia).
    destruct (Permutation_map_inv (buildSplitPoint shardKeyPattern prefix)
                (expectedHashedValues numInitialChunks)
                (sort_Permutation _)) as (values & Hv & Hperm).
    exists values. rewrite Hv.
    assert (StronglySorted Z.lt values) as Hsorted.
    { eapply sorted_values_strict.
      - rewrite <- Hv. apply sort_sorted.
      - rewrite <- Hperm. apply expectedHashedValues_NoDup. unfold INT_MAX in Hn.
        lia. }
    repeat split; try done.
    + rewrite <- Hperm. apply expectedHashedValues_length. lia.
    + by apply sorted_values_splitPoints.
Qed.

(** ** The tag-based driver *)

Module TagsDriver.
Import AbstractTagsBasedSplitPolicy.

Lemma cutRange_lookup lower points upper (i : nat) (min max : BSONObj) :
  (if decide (i = 0%nat) then min = lower else points !! (i - 1)%nat = Some min) →
  (if decide (i = length points) then max = upper else points !! i = Some max) →
  cutRange lower points upper !! i = Some {| getMin := min; getMax := max |}.
Proof.
  revert lower i. induction points as [|p ps IH]; intros lower i Hmin Hmax.
  - destruct i as [|i]; simpl in *; [by subst|]. done.
  - destruct i as [|i]; simpl in *.
    + subst. by injection Hmax as ->.
    + apply IH.
      * rewrite Nat.sub_0_r in Hmin.
        destruct i as [|i]; simpl in *; [by injection Hmin as ->|].
        by rewrite Nat.sub_0_r.
      * destruct (decide (S i = S (length ps))), (decide (i = length ps));
          try done; lia.
Qed.

Lemma cutRange_length lower points upper :
  length (cutRange lower points upper) = S (length points).
Proof.
  revert lower. induction points as [|p ps IH]; intros lower; simpl; [done|].
  by rewrite IH.
Qed.

(** The range of the chunk that [zoneChunk] appends. *)
Lemma zoneChunk_range params tag info shard em (idx : nat) st' :
  zoneChunk params tag info shard (em, Z.of_nat idx) = Ok st' →
  ∃ r, cutRange (getMinKey tag) (splitPoints info) (getMaxKey tag) !! idx = Some r
       ∧ st' = (appendChunk params (getMin r) (getMax r) shard em,
                Z.of_nat (S idx)).
Proof.
  unfold zoneChunk. cbn [fst snd]. intros H.
  bind_inv H as min Emin. bind_inv H as max Emax. injection H as <-.
  exists {| getMin := min; getMax := max |}. split.
  - apply cutRange_lookup.
    + destruct (decide (idx = 0%nat)) as [->|Hne]; [by injection Emin|].
      rewrite (proj2 (Z.eqb_neq _ 0)) in Emin by lia.
      apply vecAt_Ok_inv in Emin as [_ Emin].
      by replace (Z.to_nat (Z.of_nat idx - 1)) with (idx - 1)%nat in Emin by lia.
    + unfold vsize in Emax.
      destruct (decide (idx = length (splitPoints info))) as [->|Hne].
      * rewrite Z.eqb_refl in Emax. by injection Emax.
      * rewrite (proj2 (Z.eqb_neq _ _)) in Emax by lia.
        apply vecAt_Ok_inv in Emax as [_ Emax]. by rewrite Nat2Z.id in Emax.
  - simpl. do 2 f_equal. lia.
Qed.

Lemma appendChunk_placements params min max shard em :
  map placement (appendChunk params min max shard em).2
  = map placement em.2 ++ [({| getMin := min; getMax := max |}, shard)].
Proof. unfold appendChunk. simpl. by rewrite map_app. Qed.

(** The chunks of a zone, emitted one shard at a time. *)
Lemma zoneChunks_flat params tag info (shards : list ShardId) em (idx : nat) st' :
  (idx ≤ S (length (splitPoints info)))%nat →
  foldM (λ st shard, zoneChunk params tag info shard st) (em, Z.of_nat idx)
        shards = Ok st' →
  st'.2 = Z.of_nat (idx + length shards)
  ∧ (idx + length shards ≤ S (length (splitPoints info)))%nat
  ∧ map placement st'.1.2
    = map placement em.2
      ++ zip (drop idx (cutRange (getMinKey tag) (splitPoints info)
                          (getMaxKey tag))) shards.
Proof.
  revert em idx. induction shards as [|shard shards IH]; intros em idx Hi; simpl.
  - intros [= <-]. simpl. rewrite Nat.add_0_r.
    split; [done|]. split; [done|by rewrite zip_with_nil_r, app_nil_r].
  - intros H. bind_inv H as st1 Estep.
    apply zoneChunk_range in Estep as (r & Hr & ->).
    pose proof (lookup_lt_Some _ _ _ Hr) as Hlt. rewrite cutRange_length in Hlt.
    apply IH in H as (Hidx & Hle & Hpl); [|lia].
    split; [rewrite Hidx; f_equal; lia|]. split; [lia|].
    rewrite Hpl, appendChunk_placements, <- app_assoc. f_equal.
    rewrite (drop_S _ _ _ Hr). simpl. by destruct r.
Qed.

Lemma zoneChunksOnShard_flat params tag info st entry :
  zoneChunksOnShard params tag info st entry
  = foldM (λ s shard, zoneChunk params tag info shard s) st
          (replicate (Z.to_nat entry.2) entry.1).
Proof.
  unfold zoneChunksOnShard. revert st.
  induction (Z.to_nat entry.2) as [|n IH]; intros st; simpl; [done|].
  destruct (zoneChunk params tag info entry.1 st); simpl; [apply IH|done].
Qed.

Lemma zoneLoop_flat params tag info st distribution :
  foldM (zoneChunksOnShard params tag info) st distribution
  = foldM (λ s shard, zoneChunk params tag info shard s) st
          (shardsOf distribution).
Proof.
  revert st. induction distribution as [|entry d IH]; intros st; [done|].
  unfold shardsOf. cbn [foldM flat_map]. rewrite foldM_app.
  rewrite zoneChunksOnShard_flat.
  destruct (foldM _ st (replicate _ _)); simpl; [apply IH|done].
Qed.

Lemma appendHole_round_robin params shardIds lastMax bound (holes : nat) em r :
  appendHole params shardIds lastMax bound (Z.of_nat holes) em = Ok r →
  ∃ shard, shardIds !! (holes `mod` length shardIds)%nat = Some shard
           ∧ r = (Z.of_nat (S holes),
                  appendChunk params lastMax bound shard em).
Proof.
  unfold appendHole, nextShardIdForHole. intros H.
  bind_inv H as [shard i'] Enext. injection H as <-.
  bind_inv Enext as i Emod. bind_inv Enext as shard' Eat.
  injection Enext as <- <-.
  apply umod_Ok_inv in Emod as [Hsize ->].
  apply vecAt_Ok_inv in Eat as [_ Eat]. unfold vsize in *.
  rewrite Z.rem_mod_nonneg, <- Nat2Z.inj_mod, Nat2Z.id in Eat by lia.
  exists shard'. split; [done|]. do 2 f_equal. lia.
Qed.

(** One round of the loop over the tags. *)
Lemma createChunksForTag_spec params pat shardIds tagToShards st tag st'
    (holes : nat) :
  indx st = Z.of_nat holes →
  createChunksForTag params pat shardIds tagToShards st tag = Ok st' →
  ∃ info hole (holes' : nat),
    buildSplitInfoForTag (policy st) tag pat = Ok (info, policy st')
    ∧ consistent info
    ∧ (∃ shards, tagToShards !! getTag tag = Some shards ∧ shards ≠ [])
    ∧ lastChunkMax st' = getMaxKey tag
    ∧ indx st' = Z.of_nat holes'
    ∧ map placement (emitter st').2
      = map placement (emitter st).2 ++ hole ++ zonePlacements tag info
    ∧ ((woCompare (getMinKey tag) (lastChunkMax st) = Gt
        ∧ holes' = S holes
        ∧ ∃ shard, shardIds !! (holes `mod` length shardIds)%nat = Some shard
                   ∧ hole = [({| getMin := lastChunkMax st;
                                 getMax := getMinKey tag |}, shard)])
       ∨ (woCompare (getMinKey tag) (lastChunkMax st) ≠ Gt
          ∧ holes' = holes ∧ hole = [])).
Proof.
  unfold createChunksForTag. intros Hh H. bind_inv H as [indx' em1] Ehole.
  destruct (tagToShards !! getTag tag) as [shards|] eqn:Eshards; [|done].
  bind_inv H as ? Eassert. bind_inv H as [info policy'] Einfo.
  bind_inv H as ? Einv. bind_inv H as [em2 idx] Ezone.
  injection H as <-. cbn [policy indx emitter lastChunkMax].
  apply uassert_Ok_inv, negb_true_iff, bool_decide_eq_false in Eassert.
  apply invariant_Ok_inv, Z.eqb_eq in Einv.
  rewrite zoneLoop_flat in Ezone.
  apply (zoneChunks_flat params tag info _ em1 0%nat) in Ezone as (_ & Hle & Hpl);
    [|lia].
  simpl in Hle, Hpl. rewrite drop_0 in Hpl. fold (zonePlacements tag info) in Hpl.
  assert (∃ hole (holes' : nat),
            indx' = Z.of_nat holes'
            ∧ map placement em1.2 = map placement (emitter st).2 ++ hole
            ∧ ((woCompare (getMinKey tag) (lastChunkMax st) = Gt
                ∧ holes' = S holes
                ∧ ∃ shard,
                    shardIds !! (holes `mod` length shardIds)%nat = Some shard
                    ∧ hole = [({| getMin := lastChunkMax st;
                                  getMax := getMinKey tag |}, shard)])
               ∨ (woCompare (getMinKey tag) (lastChunkMax st) ≠ Gt
                  ∧ holes' = holes ∧ hole = [])))
    as (hole & holes' & Hi & Hem1 & Hcase).
  { destruct (woCompare (getMinKey tag) (lastChunkMax st)) eqn:Ecmp.
    - injection Ehole as <- <-. exists [], holes.
      rewrite app_nil_r. repeat split; try done. right. done.
    - injection Ehole as <- <-. exists [], holes.
      rewrite app_nil_r. repeat split; try done. right. done.
    - rewrite Hh in Ehole.
      apply appendHole_round_robin in Ehole as (shard & Hshard & [= -> ->]).
      eexists _, (S holes). split; [done|].
      split; [apply appendChunk_placements|]. left. eauto. }
  exists info, hole, holes'. repeat split; try done.
  - eauto.
  - by rewrite Hpl, Hem1, <- app_assoc.
Qed.

(** The loop over the tags and the final hole together. *)
Lemma tagsLoop_layout params pat shardIds tagToShards tags st st' (holes : nat)
    chunks :
  indx st = Z.of_nat holes →
  foldM (createChunksForTag params pat shardIds tagToShards) st tags = Ok st' →
  ('(_, em) ←
     match woCompare (lastChunkMax st') (globalMax pat) with
     | Lt => appendHole params shardIds (lastChunkMax st') (globalMax pat)
               (indx st') (emitter st')
     | _ => Ok (indx st', emitter st')
     end;
   Ok em.2) = Ok chunks →
  ∃ infos placements,
    builds pat (policy st) tags infos (policy st')
    ∧ Forall consistent infos
    ∧ Forall (λ tag, ∃ shards, tagToShards !! getTag tag = Some shards
                               ∧ shards ≠ []) tags
    ∧ TagsLayout shardIds (globalMax pat) (lastChunkMax st) holes
        (zip tags infos) placements
    ∧ map placement chunks = map placement (emitter st).2 ++ placements.
Proof.
  revert st holes. induction tags as [|tag tags IH]; intros st holes Hh; simpl.
  - intros [= <-] H. bind_inv H as [i em] Efinal. injection H as <-.
    exists []. destruct (woCompare (lastChunkMax st) (globalMax pat)) eqn:Ecmp.
    + injection Efinal as <- <-. exists []. rewrite app_nil_r.
      repeat split; try constructor. by rewrite Ecmp.
    + rewrite Hh in Efinal.
      apply appendHole_round_robin in Efinal as (shard & Hshard & [= -> ->]).
      eexists. repeat split; try constructor; [exact Ecmp|exact Hshard|].
      apply appendChunk_placements.
    + injection Efinal as <- <-. exists []. rewrite app_nil_r.
      repeat split; try constructor. by rewrite Ecmp.
  - intros H Hfinal. bind_inv H as st1 Estep.
    eapply createChunksForTag_spec in Estep
      as (info & hole & holes' & Hinfo & Hcons & Hshards & Hmax & Hi & Hpl & Hcase);
      [|exact Hh].
    destruct (IH st1 holes' Hi H Hfinal)
      as (infos & placements & Hb & Hall & Hsh & Hlayout & Hchunks).
    exists (info :: infos), (hole ++ zonePlacements tag info ++ placements).
    repeat split.
    + econstructor; eauto.
    + by constructor.
    + by constructor.
    + rewrite Hmax in Hlayout.
      destruct Hcase as [(Hgt & -> & shard & Hshard & ->)|(Hngt & -> & ->)]; simpl.
      * by apply layout_hole.
      * by apply layout_no_hole.
    + rewrite Hchunks, Hpl, <- !app_assoc. done.
Qed.

Lemma createFirstChunks_layout self opCtx pat params chunks :
  createFirstChunks self opCtx pat params = Ok chunks →
  ∃ infos self',
    builds pat self (_tags self) infos self'
    ∧ Forall consistent infos
    ∧ Forall (λ tag, ∃ shards, _tagToShardIds self !! getTag tag = Some shards
                               ∧ shards ≠ []) (_tags self)
    ∧ _tags self ≠ []
    ∧ TagsLayout (getAllShardIdsShuffled opCtx) (globalMax pat) (globalMin pat)
        0 (zip (_tags self) infos) (map placement chunks).
Proof.
  unfold createFirstChunks. intros H. bind_inv H as ? Einv.
  apply invariant_Ok_inv, negb_true_iff, bool_decide_eq_false in Einv.
  bind_inv H as st' Eloop.
  eapply (tagsLoop_layout _ _ _ _ _ _ _ 0%nat) in Eloop
    as (infos & placements & Hb & Hall & Hsh & Hlayout & Hchunks);
    [| done | exact H].
  simpl in *. subst placements. eauto 10.
Qed.

End TagsDriver.

(** C7. In the chunks of [AbstractTagsBasedSplitPolicy::createFirstChunks],
    before each zone whose min is strictly greater than the running
    [lastMax] there is exactly one hole chunk [lastMax, zone.min), on the
    next shard of the round robin over the shuffled inventory; a zone whose
    min is not above [lastMax] (for ascending zones: equals it) gets no hole
    chunk; and after the last zone there is exactly one final hole chunk
    [lastMax, globalMax), on the next shard of the round robin, if
    [lastMax] is strictly less than [globalMax], and none otherwise. *)
Theorem createFirstChunks_hole_chunks
    (self : AbstractTagsBasedSplitPolicy.t) (opCtx : OperationContext)
    (shardKeyPattern : ShardKeyPattern) (params : SplitPolicyParams)
    (chunks : ShardCollectionConfig) :
  AbstractTagsBasedSplitPolicy.createFirstChunks self opCtx shardKeyPattern
    params = Ok chunks →
  (∃ infos self',
     builds shardKeyPattern self (AbstractTagsBasedSplitPolicy._tags self)
       infos self'
     ∧ TagsLayout (getAllShardIdsShuffled opCtx) (globalMax shardKeyPattern)
         (globalMin shardKeyPattern) 0
         (zip (AbstractTagsBasedSplitPolicy._tags self) infos)
         (map placement chunks))
  ∧ (∀ lastMax zone,
       woCompare lastMax (getMinKey zone) ≠ Gt →
       woCompare (getMinKey zone) lastMax ≠ Gt → getMinKey zone = lastMax).
Proof.
  intros H. split.
  - apply TagsDriver.createFirstChunks_layout in H
      as (infos & self' & Hb & _ & _ & _ & Hl). eauto.
  - intros lastMax zone H1 H2.
    destruct (woCompare (getMinKey zone) lastMax) eqn:E; [| |done].
    + by apply (cmp_eq (cmp:=woCompare)).
    + apply (cmp_gt_lt woCompare) in E. done.
Qed.

(** ** Tiling *)

Lemma linked_app lower ranges1 middle ranges2 upper :
  linked lower ranges1 middle → linked middle ranges2 upper →
  linked lower (ranges1 ++ ranges2) upper.
Proof.
  revert lower. induction ranges1 as [|r rs IH]; intros lower; simpl.
  - by intros ->.
  - intros [Hr Hrs] H2. split; [done|]. by apply IH.
Qed.

Lemma linked_cutRange lower points upper :
  linked lower (cutRange lower points upper) upper.
Proof.
  revert lower. induction points as [|p ps IH]; intros lower; simpl; auto.
Qed.

Lemma linked_lookup lower ranges upper (i : nat) r s :
  linked lower ranges upper → ranges !! i = Some r → ranges !! S i = Some s →
  getMax r = getMin s.
Proof.
  revert lower i. induction ranges as [|x rs IH]; intros lower i; [done|].
  intros [_ Hrs] Hi Hs. destruct i as [|i]; simpl in *.
  - injection Hi as <-. destruct rs as [|y rs]; [done|]. injection Hs as <-.
    by destruct Hrs.
  - by eapply IH.
Qed.

Lemma linked_last lower ranges upper r :
  linked lower ranges upper → last ranges = Some r → getMax r = upper.
Proof.
  revert lower. induction ranges as [|x rs IH]; intros lower; [done|].
  intros [_ Hrs] Hl. destruct rs as [|y rs]; simpl in *.
  - by injection Hl as <-.
  - by eapply IH.
Qed.

(** Chunks whose ranges link [globalMin] to [globalMax] tile the key
    space. *)
Lemma linked_tiles pat (chunks : list ChunkType) :
  chunks ≠ [] →
  linked (globalMin pat) (map getRange chunks) (globalMax pat) →
  tiles pat chunks.
Proof.
  intros Hne Hl. repeat split.
  - destruct chunks as [|c cs]; [done|]. exists c. split; [done|].
    by destruct Hl.
  - destruct (last chunks) as [c|] eqn:El.
    + exists c. split; [done|].
      eapply (linked_last _ _ _ (getRange c)); [exact Hl|].
      change (map getRange chunks) with (getRange <$> chunks).
      by rewrite fmap_last, El.
    + by apply last_None in El.
  - intros i c d Hc Hd.
    eapply (linked_lookup _ _ _ i (getRange c) (getRange d)); [exact Hl| |].
    + change (map getRange chunks) with (getRange <$> chunks).
      by rewrite list_lookup_fmap, Hc.
    + change (map getRange chunks) with (getRange <$> chunks).
      by rewrite list_lookup_fmap, Hd.
Qed.

Lemma placement_ranges (chunks : list ChunkType) :
  map getRange chunks = map fst (map placement chunks).
Proof. by rewrite map_map. Qed.

Module TagsTiling.
Import AbstractTagsBasedSplitPolicy.

Lemma sumChunkDistribution_mod (d : list (ShardId * Z)) :
  (∀ e, e ∈ d → 0 ≤ e.2) →
  sumChunkDistribution d = Z.of_nat (length (shardsOf d)) mod 2 ^ 64.
Proof.
  unfold sumChunkDistribution.
  assert (∀ a, 0 ≤ a < 2 ^ 64 → (∀ e, e ∈ d → 0 ≤ e.2) →
            foldl (λ (runningSum : Z) (currentElem : ShardId * Z),
                     toSizeT (runningSum + currentElem.2)) a d
            = (a + Z.of_nat (length (shardsOf d))) mod 2 ^ 64) as Hgen.
  { induction d as [|e d IH]; intros a Ha Hd; simpl.
    - rewrite Z.add_0_r, Z.mod_small; done.
    - rewrite IH.
      + unfold toSizeT. rewrite Zplus_mod_idemp_l. f_equal.
        rewrite length_app, length_replicate.
        assert (0 ≤ e.2) by (apply Hd; left). lia.
      + unfold toSizeT. apply Z.mod_pos_bound. lia.
      + intros e' He'. apply Hd. by right. }
  intros Hd. rewrite Hgen; [done|lia|done].
Qed.

(** A consistent split info with [size_t] counts has as many chunks as
    ranges. *)
Lemma consistent_full info :
  consistent info → (∀ e, e ∈ chunkDistribution info → 0 ≤ e.2) →
  length (shardsOf (chunkDistribution info)) = S (length (splitPoints info)).
Proof.
  intros [Hsum Hle] Hd. rewrite sumChunkDistribution_mod in Hsum by done.
  unfold vsize in Hsum.
  pose proof (Z.mod_le (Z.of_nat (length (shardsOf (chunkDistribution info))))
                (2 ^ 64)) as Hmod.
  lia.
Qed.

Lemma ceilOfXOverY_nonneg x y c :
  0 ≤ x → 0 ≤ y → ceilOfXOverY x y = Ok c → 0 ≤ c.
Proof.
  unfold ceilOfXOverY. intros Hx Hy H.
  bind_inv H as q Eq. bind_inv H as r Er. injection H as <-.
  apply udiv_Ok_inv in Eq as [Hy0 ->].
  assert (0 ≤ x ÷ y) by (apply Z.quot_pos; lia).
  destruct (r =? 0); lia.
Qed.

Lemma quotaOnShard_nonneg cps ntps shards acc acc' :
  0 ≤ cps → (∀ s c, ntps !! s = Some c → 0 ≤ c) →
  (∀ e, e ∈ acc.1 → 0 ≤ e.2) →
  foldM (quotaOnShard cps ntps) acc shards = Ok acc' →
  ∀ e, e ∈ acc'.1 → 0 ≤ e.2.
Proof.
  intros Hcps Hntps. revert acc. induction shards as [|s shards IH];
    intros acc Hacc; simpl.
  - by intros [= <-].
  - intros H. bind_inv H as acc1 Estep. eapply IH; [|exact H].
    unfold quotaOnShard in Estep. bind_inv Estep as c Ec.
    injection Estep as <-. simpl. intros e He.
    apply elem_of_app in He as [He|He]; [by apply Hacc|].
    apply list_elem_of_singleton in He as ->. simpl.
    eapply ceilOfXOverY_nonneg; [exact Hcps| |exact Ec].
    destruct (ntps !! s) as [c'|] eqn:E; simpl; [by eapply Hntps|done].
Qed.

Lemma buildSplitInfoForTag_typed self tag pat info self' :
  sizesTyped self →
  buildSplitInfoForTag self tag pat = Ok (info, self') →
  sizesTyped self' ∧ ∀ e, e ∈ chunkDistribution info → 0 ≤ e.2.
Proof.
  unfold buildSplitInfoForTag, sizesTyped.
  destruct (subclass self) as [next|n ntps] eqn:Esub.
  - intros _ H. unfold buildSplitInfoForTag_SingleChunkPerTag in H.
    destruct (_tagToShardIds self !! getTag tag); [|done].
    bind_inv H as i Ei. bind_inv H as shard Es. injection H as <- <-.
    split; [done|]. simpl. intros e He.
    apply list_elem_of_singleton in He as ->. simpl. lia.
  - intros [Hn Hntps] H. unfold buildSplitInfoForTag_PresplitHashedZones in H.
    bind_inv H as cps Ecps.
    destruct (_tagToShardIds self !! getTag tag); [|done].
    bind_inv H as [dist total] Edist. bind_inv H as points Ep.
    injection H as <- <-. rewrite Esub. split; [done|]. simpl.
    eapply (quotaOnShard_nonneg cps ntps _ ([], 0) (dist, total));
      [| | |exact Edist].
    + eapply ceilOfXOverY_nonneg; [exact Hn| |exact Ecps]. lia.
    + done.
    + intros e He. by apply elem_of_nil in He.
Qed.

Lemma builds_typed pat self tags infos self' :
  builds pat self tags infos self' → sizesTyped self →
  length infos = length tags
  ∧ Forall (λ info, ∀ e, e ∈ chunkDistribution info → 0 ≤ e.2) infos.
Proof.
  induction 1 as [|self tag info self1 tags infos self2 Hb _ IH]; intros Ht.
  - split; [done|constructor].
  - apply (buildSplitInfoForTag_typed _ _ _ _ _ Ht) in Hb as [Ht1 Hd].
    destruct (IH Ht1) as [Hlen Hall]. split; [simpl; by rewrite Hlen|].
    by constructor.
Qed.

(** The layout of ascending zones links the start to the upper bound. *)
Lemma layout_linked shardIds upper lastMax holes tags infos placements :
  TagsLayout shardIds upper lastMax holes (zip tags infos) placements →
  length infos = length tags →
  Forall (λ info, length (shardsOf (chunkDistribution info))
                  = S (length (splitPoints info))) infos →
  zonesAscend lastMax tags upper →
  linked lastMax (map fst placements) upper.
Proof.
  revert lastMax holes infos placements.
  induction tags as [|tag tags IH]; intros lastMax holes infos placements.
  - destruct infos as [|info infos]; [|done]. simpl.
    intros Hl _ _ Hle. unfold bsonLessEq in Hle. inversion Hl; subst; simpl.
    + done.
    + destruct (woCompare lastMax upper) eqn:E; try done.
      by apply (cmp_eq (cmp:=woCompare)).
  - destruct infos as [|info infos]; [done|]. simpl.
    intros Hl [= Hlen] Hfull [Hmin Hrest].
    apply Forall_cons in Hfull as [Hinfo Hfull].
    assert (linked (getMinKey tag) (map fst (zonePlacements tag info))
              (getMaxKey tag)) as Hzone.
    { unfold zonePlacements. change (map fst ?l) with (l.*1).
      rewrite fst_zip; [apply linked_cutRange|].
      rewrite TagsDriver.cutRange_length, Hinfo. done. }
    inversion Hl; subst; simpl.
    + split; [done|]. rewrite map_app.
      eapply linked_app; [exact Hzone|]. by eapply IH.
    + assert (getMinKey tag = lastMax) as <-.
      { unfold bsonLessEq in Hmin.
        destruct (woCompare (getMinKey tag) lastMax) eqn:E; [| |done].
        - by apply (cmp_eq (cmp:=woCompare)).
        - apply (cmp_gt_lt woCompare) in E. done. }
      rewrite map_app. eapply linked_app; [exact Hzone|]. by eapply IH.
Qed.

End TagsTiling.

Lemma appendChunk_ranges params min max shard em :
  map getRange (appendChunk params min max shard em).2
  = map getRange em.2 ++ [{| getMin := min; getMax := max |}].
Proof. unfold appendChunk. simpl. by rewrite map_app. Qed.

(** The chunks of [generateShardCollectionInitialChunks] are the ranges the
    final split points cut the key space into. *)
Lemma generateChunk_range params pat fsp shards k st (i : nat) st' :
  generateChunk params pat fsp shards k st (Z.of_nat i) = Ok st' →
  ∃ r, cutRange (globalMin pat) fsp (globalMax pat) !! i = Some r
       ∧ map getRange st'.2 = map getRange st.2 ++ [r].
Proof.
  unfold generateChunk. intros H.
  bind_inv H as min Emin. bind_inv H as max Emax. bind_inv H as q Eq.
  bind_inv H as r Er. bind_inv H as shard Es. injection H as <-.
  exists {| getMin := min; getMax := max |}.
  split; [|apply appendChunk_ranges].
  unfold vsize in *. apply TagsDriver.cutRange_lookup.
  - destruct (decide (i = 0%nat)) as [->|Hne]; [by injection Emin|].
    rewrite (proj2 (Z.eqb_neq _ 0)) in Emin by lia.
    apply vecAt_Ok_inv in Emin as [_ Emin].
    by replace (Z.to_nat (Z.of_nat i - 1)) with (i - 1)%nat in Emin by lia.
  - destruct (Z.of_nat i <? Z.of_nat (length fsp)) eqn:E.
    + apply Z.ltb_lt in E. apply vecAt_Ok_inv in Emax as [_ Emax].
      rewrite Nat2Z.id in Emax. destruct (decide (i = length fsp)); [lia|done].
    + apply Z.ltb_ge in E. injection Emax as <-.
      destruct (decide (i = length fsp)) as [_|Hne]; [done|]. exfalso.
      destruct (decide (i = 0%nat)) as [->|Hi]; [lia|].
      rewrite (proj2 (Z.eqb_neq _ 0)) in Emin by lia.
      apply vecAt_Ok_inv in Emin as [_ Emin].
      apply lookup_lt_Some in Emin. lia.
Qed.

Lemma generateChunks_ranges params pat fsp shards k (count start : nat) st st' :
  foldM (generateChunk params pat fsp shards k) st
        (map Z.of_nat (seq start count)) = Ok st' →
  map getRange st'.2
  = map getRange st.2
    ++ take count (drop start (cutRange (globalMin pat) fsp (globalMax pat))).
Proof.
  revert start st. induction count as [|count IH]; intros start st; simpl.
  - intros [= <-]. by rewrite app_nil_r.
  - intros H. bind_inv H as st1 Estep.
    apply generateChunk_range in Estep as (r & Hr & Hst1).
    apply IH in H. rewrite H, Hst1, <- app_assoc. f_equal.
    by rewrite (drop_S _ _ _ Hr).
Qed.

Lemma splitPointsBased_tiles opCtx params pat validAfter
    sps shards k chunks :
  generateShardCollectionInitialChunks opCtx params pat validAfter sps shards k
  = Ok chunks →
  tiles pat chunks.
Proof.
  unfold generateShardCollectionInitialChunks. intros H.
  bind_inv H as ? Einv. bind_inv H as st Eloop. injection H as <-.
  apply generateChunks_ranges in Eloop. simpl in Eloop.
  rewrite drop_0, firstn_all2 in Eloop
    by (rewrite TagsDriver.cutRange_length; lia).
  apply linked_tiles.
  - intros Hnil. rewrite Hnil in Eloop. simpl in Eloop.
    destruct (setInsertAll sps []); done.
  - rewrite Eloop. apply linked_cutRange.
Qed.

Module SamplingTiling.
Import SamplingBasedSplitPolicy.

Lemma selectShardAndAppendChunk_ranges params zi zm points upper st st' :
  foldM (selectShardAndAppendChunk params zi zm) st (points ++ [upper]) = Ok st' →
  map getRange (emitter st').2
  = map getRange (emitter st).2 ++ cutRange (lastChunkMax st) points upper.
Proof.
  revert st. induction points as [|p ps IH]; intros st; simpl.
  - intros H. bind_inv H as st1 Estep. injection H as <-.
    unfold selectShardAndAppendChunk in Estep. bind_inv Estep as shard Es.
    injection Estep as <-. simpl. apply appendChunk_ranges.
  - intros H. bind_inv H as st1 Estep. apply IH in H. rewrite H.
    unfold selectShardAndAppendChunk in Estep. bind_inv Estep as shard Es.
    injection Estep as <-. cbn [emitter lastChunkMax cutRange].
    by rewrite appendChunk_ranges, <- app_assoc.
Qed.

Lemma sampling_tiles self opCtx pat params chunks :
  createFirstChunks self opCtx pat params = Ok chunks → tiles pat chunks.
Proof.
  unfold createFirstChunks. intros H. bind_inv H as [points self'] Epoints.
  bind_inv H as zm Ezm. bind_inv H as zi Ezi. bind_inv H as st Eloop.
  injection H as <-. apply selectShardAndAppendChunk_ranges in Eloop.
  simpl in Eloop. apply linked_tiles.
  - intros Hnil. rewrite Hnil in Eloop. simpl in Eloop. destruct points; done.
  - rewrite Eloop. apply linked_cutRange.
Qed.

End SamplingTiling.

Module DistributionTiling.
Import ShardDistributionSplitPolicy.

Lemma lastMaxOf_append params pat min max shard em :
  lastMaxOf pat (appendChunk params min max shard em).2 = max.
Proof. unfold lastMaxOf, appendChunk. simpl. by rewrite last_snoc. Qed.

Lemma appendChunk_nonempty params min max shard em :
  (appendChunk params min max shard em).2 ≠ [].
Proof. unfold appendChunk. simpl. intros H. by apply app_nil in H as [_ ?]. Qed.

Lemma appendChunk_linkedFrom params pat max shard em :
  linkedFrom pat em.2 →
  linkedFrom pat (appendChunk params (lastMaxOf pat em.2) max shard em).2.
Proof.
  unfold linkedFrom. intros H. rewrite lastMaxOf_append, appendChunk_ranges.
  eapply linked_app; [exact H|]. by simpl.
Qed.

Lemma appendChunksFrom_linkedFrom ranges params sp pat idx em r :
  linkedFrom pat em.2 →
  appendChunksFrom ranges params sp pat idx em = Ok r →
  linkedFrom pat r.2.2.
Proof.
  revert idx em. induction ranges as [|range ranges IH]; intros idx em Hl; simpl.
  - by intros [= <-].
  - intros H. bind_inv H as rmin Emin. bind_inv H as rmax Emax.
    destruct (bsonLt _ sp); [|by injection H as <-].
    destruct (bsonLe _ sp).
    + eapply IH; [|exact H]. by apply appendChunk_linkedFrom.
    + injection H as <-. by apply appendChunk_linkedFrom.
Qed.

(** How far a call advances through the shard ranges, and what it leaves
    when it consumes them all. *)
Lemma appendChunksFrom_consumed ranges params sp pat idx em idx' em' :
  appendChunksFrom ranges params sp pat idx em = Ok (idx', em') →
  (ranges = [] → idx' = idx ∧ em' = em)
  ∧ idx ≤ idx' ≤ idx + vsize ranges
  ∧ (idx' = idx + vsize ranges →
     ∀ r, last ranges = Some r →
       ∃ m, skrMax r = Some m ∧ em'.2 ≠ []
            ∧ lastMaxOf pat em'.2 = extendRangeBound pat m false).
Proof.
  revert idx em. induction ranges as [|range ranges IH]; intros idx em; simpl.
  - intros [= <- <-]. unfold vsize. simpl. repeat split; try done; lia.
  - intros H. bind_inv H as rmin Emin. bind_inv H as rmax Emax.
    unfold vsize in *. simpl length. split; [done|].
    destruct (bsonLt _ sp).
    + destruct (bsonLe _ sp).
      * apply IH in H as (Hnil & Hidx & Hall). split; [lia|].
        intros Hfull r Hr. destruct ranges as [|range' ranges].
        -- injection Hr as <-. destruct Hnil as [_ ->]; [done|].
           exists rmax. destruct (skrMax range); [|done]. injection Emax as ->.
           split; [done|]. split; [apply appendChunk_nonempty|].
           apply lastMaxOf_append.
        -- apply Hall; [|done]. simpl length in *. lia.
      * injection H as <- <-. split; [lia|]. intros Hfull. lia.
    + injection H as <- <-. split; [lia|]. intros Hfull. lia.
Qed.

(** The call for [globalMax] ends at [globalMax] when it stops before the
    last shard range. *)
Lemma appendChunksFrom_globalMax ranges params pat idx em idx' em' :
  (∀ r m, r ∈ ranges → skrMin r = Some m →
          woCompare (extendRangeBound pat m false) (globalMax pat) = Lt) →
  appendChunksFrom ranges params (globalMax pat) pat idx em = Ok (idx', em') →
  idx' < idx + vsize ranges →
  em'.2 ≠ [] ∧ lastMaxOf pat em'.2 = globalMax pat.
Proof.
  revert idx em. induction ranges as [|range ranges IH]; intros idx em Hmin; simpl.
  - intros [= <- <-]. unfold vsize. simpl. lia.
  - intros H. bind_inv H as rmin Emin. bind_inv H as rmax Emax.
    unfold vsize in *. simpl length.
    assert (bsonLt (extendRangeBound pat rmin false) (globalMax pat) = true)
      as Hlt.
    { unfold bsonLt. rewrite (Hmin range rmin); [done|by left|].
      by destruct (skrMin range); [injection Emin as ->|]. }
    rewrite Hlt in H.
    destruct (bsonLe _ (globalMax pat)).
    + intros Hbefore. eapply IH; [|exact H|lia].
      intros r m Hr. apply Hmin. by right.
    + injection H as <- <-. intros _.
      split; [apply appendChunk_nonempty|apply lastMaxOf_append].
Qed.

Lemma last_drop {A} (l : list A) (n : nat) :
  (n < length l)%nat → last (drop n l) = last l.
Proof.
  revert n. induction l as [|x l IH]; intros n Hn; [simpl in Hn; lia|].
  destruct n as [|n]; [done|]. simpl in Hn. rewrite skipn_cons, IH by lia.
  destruct l; [simpl in Hn; lia|done].
Qed.

Lemma _appendChunks_consumedAll self params pat st sp st' :
  (∀ r m, last (_shardDistribution self) = Some r → skrMax r = Some m →
          extendRangeBound pat m false = globalMax pat) →
  consumedAll self pat st →
  _appendChunks self params pat st sp = Ok st' →
  consumedAll self pat st'.
Proof.
  unfold _appendChunks, consumedAll, vsize. destruct st as [idx em].
  destruct st' as [idx' em']. cbn [fst snd]. intros Hlast [Hidx Hall] H.
  apply (appendChunksFrom_consumed _ _ _ pat) in H as (Hnil & Hrange & Hfull).
  unfold vsize in *. rewrite length_drop in Hrange, Hfull.
  split; [lia|]. intros Hend.
  destruct (decide (idx = Z.of_nat (length (_shardDistribution self))))
    as [Heq|Hne].
  - destruct Hnil as [_ ->]; [|by apply Hall].
    apply drop_ge. lia.
  - destruct (last (_shardDistribution self)) as [r|] eqn:Er.
    + destruct (Hfull ltac:(lia) r) as (m & Hm & Hne' & Hmax).
      { rewrite last_drop by lia. done. }
      split; [done|]. rewrite Hmax. by eapply Hlast.
    + apply last_None in Er. rewrite Er in *. simpl in *. lia.
Qed.

Lemma distribution_tiles self opCtx pat params chunks :
  callerGuarantees pat (ShardDistribution self) →
  createFirstChunks self opCtx pat params = Ok chunks → tiles pat chunks.
Proof.
  intros [Hmin Hlast]. unfold createFirstChunks. intros H.
  bind_inv H as first Efirst. bind_inv H as ? Eassert.
  bind_inv H as st Eloop. bind_inv H as ? Echeck. injection H as <-.
  cbn [_shardDistribution _zones] in *.
  rewrite foldM_app in Eloop. bind_inv Eloop as st1 Epoints.
  simpl in Eloop. bind_inv Eloop as st2 Efinal. injection Eloop as <-.
  set (self' := {| _shardDistribution := _shardDistribution self;
                   _zones := _ |}) in *.
  assert (consumedAll self' pat st1 ∧ linkedFrom pat st1.2.2) as [Hc Hl].
  { eapply (foldM_invariant
              (λ st, consumedAll self' pat st ∧ linkedFrom pat st.2.2));
      [| |exact Epoints].
    - split; [|done]. unfold consumedAll, vsize. simpl. split; [lia|].
      intros Hn. apply vecAt_Ok_inv in Efirst as [_ Efirst].
      apply lookup_lt_Some in Efirst. lia.
    - intros s0 sp s1 [Hc Hl] _ Hs. split.
      + by eapply _appendChunks_consumedAll.
      + eapply appendChunksFrom_linkedFrom; [exact Hl|exact Hs]. }
  assert (linkedFrom pat st2.2.2) as Hl2.
  { eapply appendChunksFrom_linkedFrom; [exact Hl|exact Efinal]. }
  assert (st2.2.2 ≠ [] ∧ lastMaxOf pat st2.2.2 = globalMax pat) as [Hne Hmax].
  { destruct Hc as [Hidx Hall]. unfold _appendChunks in Efinal.
    destruct st2 as [idx2 em2]. destruct st1 as [idx1 em1].
    subst self'. cbn [fst snd _shardDistribution] in *.
    pose proof Efinal as Hcons.
    apply (appendChunksFrom_consumed _ _ _ pat) in Hcons
      as (Hnil & Hrange & Hfull).
    unfold vsize in *. rewrite length_drop in Hrange, Hfull.
    destruct (decide (idx1 = Z.of_nat (length (_shardDistribution self))))
      as [Heq|Hneq].
    - destruct Hnil as [_ ->]; [|by apply Hall].
      apply drop_ge. simpl. lia.
    - destruct (decide (idx2 = idx1 + Z.of_nat
                          (length (_shardDistribution self) - Z.to_nat idx1)))
        as [Hfin|Hearly].
      + destruct (last (_shardDistribution self)) as [r|] eqn:Er.
        * destruct (Hfull Hfin r) as (m & Hm & Hne' & Hmax).
          { simpl. rewrite last_drop by lia. done. }
          split; [done|]. rewrite Hmax. by eapply Hlast.
        * apply last_None in Er. rewrite Er in *. simpl in *. lia.
      + eapply appendChunksFrom_globalMax; [|exact Efinal|].
        * intros r m Hr. apply Hmin. simpl in Hr.
          by eapply subseteq_drop.
        * unfold vsize. rewrite length_drop. simpl. lia. }
  apply linked_tiles; [done|]. unfold linkedFrom in Hl2. by rewrite Hmax in Hl2.
Qed.

End DistributionTiling.

Lemma tagsBased_tiles self opCtx pat params chunks :
  callerGuarantees pat (TagsBased self) →
  AbstractTagsBasedSplitPolicy.createFirstChunks self opCtx pat params
  = Ok chunks →
  tiles pat chunks.
Proof.
  intros [Hasc Htyped] H.
  apply TagsDriver.createFirstChunks_layout in H
    as (infos & self' & Hb & Hcons & _ & Hne & Hlayout).
  destruct (TagsTiling.builds_typed _ _ _ _ _ Hb Htyped) as [Hlen Hcounts].
  assert (Forall (λ info,
            length (shardsOf (AbstractTagsBasedSplitPolicy.chunkDistribution info))
            = S (length (AbstractTagsBasedSplitPolicy.splitPoints info))) infos)
    as Hfull.
  { rewrite Forall_forall in *. intros info Hinfo.
    apply TagsTiling.consistent_full; [by apply Hcons|by apply Hcounts]. }
  apply linked_tiles.
  - intros Hnil. rewrite Hnil in Hlayout.
    destruct (AbstractTagsBasedSplitPolicy._tags self) as [|tag tags]; [done|].
    destruct infos as [|info infos]; [done|]. simpl in Hlayout.
    apply Forall_cons in Hfull as [Hinfo _].
    assert (zonePlacements tag info ≠ []) as Hzone.
    { unfold zonePlacements. intros Hz. apply (f_equal length) in Hz.
      rewrite length_zip_with, TagsDriver.cutRange_length, Hinfo in Hz.
      simpl in Hz. lia. }
    inversion Hlayout; subst.
    match goal with
    | Hz : zonePlacements _ _ ++ _ = [] |- _ => by apply app_nil in Hz as [? _]
    end.
  - rewrite placement_ranges. by eapply TagsTiling.layout_linked.
Qed.

(** C1.  On the input the callers guarantee (the zones of a tag-based
    policy ascend without overlapping within the key space, its counts
    being [size_t] values; the ranges of a shard distribution start below
    [globalMax] and end with the last of them at [globalMax]), the chunks
    of every policy tile the key space: the first chunk's min is
    [globalMin], the last chunk's max is [globalMax], and each chunk's max
    is the next chunk's min. *)
Theorem createFirstChunks_tiles (policy : InitialSplitPolicy)
    (opCtx : OperationContext) (shardKeyPattern : ShardKeyPattern)
    (params : SplitPolicyParams) (chunks : ShardCollectionConfig) :
  callerGuarantees shardKeyPattern policy →
  createFirstChunks policy opCtx shardKeyPattern params = Ok chunks →
  tiles shardKeyPattern chunks.
Proof.
  destruct policy as [|p|p|p|p]; intros Hpre; simpl.
  - intros [= <-]. apply linked_tiles; [done|]. simpl. done.
  - apply splitPointsBased_tiles.
  - by apply tagsBased_tiles.
  - apply SamplingTiling.sampling_tiles.
  - by apply DistributionTiling.distribution_tiles.
Qed.

(** The policies do not check what the callers guarantee.  For zones
    listed out of order the single-chunk-per-tag policy returns chunks in
    which the zone chunk [10, 20) is followed by the zone chunk [0, 5); and
    for a shard distribution that stops at 50 the shard-distribution policy
    returns the single chunk [MinKey, 50), which does not reach
    [globalMax]. *)
Lemma createFirstChunks_unchecked_input :
  (∃ chunks,
     createFirstChunks
       (TagsBased (Examples.singleChunkPerTag Examples.descendingZones))
       Examples.cluster Examples.keyX Examples.params = Ok chunks
     ∧ map getRange chunks
       = [ {| getMin := globalMin Examples.keyX; getMax := Examples.xAt 10 |};
           {| getMin := Examples.xAt 10; getMax := Examples.xAt 20 |};
           {| getMin := Examples.xAt 0; getMax := Examples.xAt 5 |};
           {| getMin := Examples.xAt 5; getMax := globalMax Examples.keyX |} ]
     ∧ ¬ tiles Examples.keyX chunks)
  ∧ (∃ chunks,
       createFirstChunks (ShardDistribution Examples.lowerHalf)
         Examples.cluster Examples.keyX Examples.params = Ok chunks
       ∧ map getRange chunks
         = [ {| getMin := globalMin Examples.keyX; getMax := Examples.xAt 50 |} ]
       ∧ ¬ tiles Examples.keyX chunks).
Proof.
  split.
  - eexists. split; [vm_compute; reflexivity|]. split; [reflexivity|].
    intros (_ & _ & Hadj).
    specialize (Hadj 1%nat _ _ eq_refl eq_refl). discriminate Hadj.
  - eexists. split; [vm_compute; reflexivity|]. split; [reflexivity|].
    intros (_ & (c & Hlast & Hmax) & _).
    injection Hlast as <-. discriminate Hmax.
Qed.

(** ** Counting the chunks of [PresplitHashedZonesSplitPolicy] *)

Module PresplitCounts.
Import AbstractTagsBasedSplitPolicy.

Lemma mapSum_empty h : mapSum h ∅ = 0.
Proof. unfold mapSum. apply map_fold_empty. Qed.

Lemma mapSum_insert h (m : gmap string Z) k v :
  m !! k = None → mapSum h (<[k := v]> m) = h k v + mapSum h m.
Proof.
  intros Hk. unfold mapSum. rewrite map_fold_insert_L; [done| |done].
  intros. lia.
Qed.

Lemma mapSum_update h (m : gmap string Z) k v v' :
  m !! k = Some v → mapSum h (<[k := v']> m) = h k v' - h k v + mapSum h m.
Proof.
  intros Hk. rewrite <- (insert_delete_eq m k v').
  rewrite <- (insert_id m k v) at 2 by done.
  rewrite <- (insert_delete_eq m k v).
  rewrite !mapSum_insert by apply lookup_delete_eq. lia.
Qed.

Lemma mapSum_le h1 h2 (m : gmap string Z) :
  (∀ k v, m !! k = Some v → h1 k v ≤ h2 k v) → mapSum h1 m ≤ mapSum h2 m.
Proof.
  induction m as [|k v m Hk IH] using map_ind; intros Hle.
  - by rewrite !mapSum_empty.
  - rewrite !mapSum_insert by done.
    assert (h1 k v ≤ h2 k v) by (apply Hle; by rewrite lookup_insert_eq).
    assert (mapSum h1 m ≤ mapSum h2 m).
    { apply IH. intros k' v' Hk'. apply Hle.
      rewrite lookup_insert_ne; [done|]. intros ->. congruence. }
    lia.
Qed.

Lemma mapSum_const c (m : gmap string Z) :
  mapSum (λ _ _, c) m = Z.of_nat (size m) * c.
Proof.
  induction m as [|k v m Hk IH] using map_ind.
  - rewrite mapSum_empty, map_size_empty. lia.
  - rewrite mapSum_insert, map_size_insert_None, IH by done. lia.
Qed.

Lemma increment_sum (F : string → Z) (shards : list string) (m : gmap string Z) :
  mapSum (λ s c, c * F s) (foldl increment m shards)
  = mapSum (λ s c, c * F s) m + sumZ (map F shards).
Proof.
  revert m. induction shards as [|s shards IH]; intros m; simpl; [lia|].
  rewrite IH. unfold increment.
  destruct (m !! s) as [c|] eqn:E; simpl.
  - rewrite (mapSum_update _ m s c) by done. lia.
  - rewrite mapSum_insert by done. lia.
Qed.

Lemma increment_positive (shards : list string) (m : gmap string Z) :
  (∀ s c, m !! s = Some c → 1 ≤ c) →
  ∀ s c, foldl increment m shards !! s = Some c → 1 ≤ c.
Proof.
  revert m. induction shards as [|x shards IH]; intros m Hm; simpl; [done|].
  apply IH. intros s c. unfold increment.
  destruct (decide (x = s)) as [->|Hne].
  - rewrite lookup_insert_eq. intros [= <-].
    destruct (m !! s) as [c'|] eqn:E; simpl; [|lia].
    specialize (Hm s c' E). lia.
  - rewrite lookup_insert_ne by done. apply Hm.
Qed.

Lemma increment_keys (shards : list string) (m : gmap string Z) s :
  is_Some (foldl increment m shards !! s) ↔ is_Some (m !! s) ∨ s ∈ shards.
Proof.
  revert m. induction shards as [|x shards IH]; intros m; simpl.
  - rewrite elem_of_nil. tauto.
  - rewrite IH, elem_of_cons. unfold increment.
    destruct (decide (x = s)) as [->|Hne].
    + rewrite lookup_insert_eq. split; [auto|]. intros _. left. eauto.
    + rewrite lookup_insert_ne by done. split; [tauto|].
      intros [?|[?|?]]; auto. congruence.
Qed.

Lemma increment_count (shards : list string) (m : gmap string Z) s :
  default 0 (foldl increment m shards !! s)
  = default 0 (m !! s)
    + Z.of_nat (length (filter (λ x, x = s) shards)).
Proof.
  revert m. induction shards as [|x shards IH]; intros m; simpl; [lia|].
  rewrite IH. unfold increment. rewrite filter_cons.
  destruct (decide (x = s)) as [->|Hne].
  - rewrite lookup_insert_eq. simpl. lia.
  - rewrite lookup_insert_ne by done. lia.
Qed.

(** The constructor counts the shards carrying the tags. *)
Lemma countTag_flat tagToShards tags acc ntps :
  foldM (PresplitHashedZonesSplitPolicy.countTag tagToShards) acc tags = Ok ntps →
  ntps = foldl increment acc (shardsCarrying tagToShards tags).
Proof.
  revert acc. induction tags as [|tag tags IH]; intros acc; simpl.
  - by intros [= <-].
  - intros H. bind_inv H as acc1 Estep. apply IH in H as ->.
    unfold PresplitHashedZonesSplitPolicy.countTag in Estep.
    unfold shardsCarrying. simpl. rewrite foldl_app.
    destruct (tagToShards !! getTag tag); [|done]. by injection Estep as <-.
Qed.

Lemma ceiling_zero x : ceiling x 0 = 0.
Proof. unfold ceiling. by destruct (- x). Qed.

Lemma ceiling_spec x y : 0 < y → y * (ceiling x y - 1) < x ≤ y * ceiling x y.
Proof.
  intros Hy. unfold ceiling.
  pose proof (Z.div_mod (- x) y ltac:(lia)).
  pose proof (Z.mod_pos_bound (- x) y Hy). lia.
Qed.

(** The code's ceiling is the ceiling. *)
Lemma ceilOfXOverY_ceiling x y c :
  0 ≤ x → 0 ≤ y → ceilOfXOverY x y = Ok c → 0 < y ∧ c = ceiling x y.
Proof.
  unfold ceilOfXOverY. intros Hx Hy H.
  bind_inv H as q Eq. bind_inv H as r Er. injection H as <-.
  apply udiv_Ok_inv in Eq as [Hy0 ->]. apply umod_Ok_inv in Er as [_ ->].
  split; [lia|].
  rewrite Z.quot_div_nonneg, Z.rem_mod_nonneg by lia.
  pose proof (ceiling_spec x y ltac:(lia)) as Hc.
  pose proof (Z.div_mod x y ltac:(lia)) as Hdm.
  pose proof (Z.mod_pos_bound x y ltac:(lia)) as Hb.
  destruct (x mod y =? 0) eqn:E.
  - apply Z.eqb_eq in E. nia.
  - apply Z.eqb_neq in E. nia.
Qed.

(** The quotas of the shards carrying the tags add up to at least the
    number of chunks asked for. *)
Lemma quotas_cover (n : Z) (shards : list string) :
  0 ≤ n → shards ≠ [] →
  let ntps := foldl increment ∅ shards in
  let cps := ceiling n (Z.of_nat (size ntps)) in
  n ≤ sumZ (map (λ s, ceiling cps (default 0 (ntps !! s))) shards).
Proof.
  intros Hn Hne ntps cps.
  pose proof (increment_sum (λ s, ceiling cps (default 0 (ntps !! s))) shards ∅)
    as Hsum.
  fold ntps in Hsum. rewrite mapSum_empty in Hsum.
  assert (0 < Z.of_nat (size ntps)) as Hsize.
  { destruct shards as [|s shards]; [done|].
    assert (is_Some (ntps !! s)) as Hs by (apply increment_keys; right; left).
    apply map_size_ne_0_lookup_2 in Hs. lia. }
  assert (n ≤ Z.of_nat (size ntps) * cps) by (apply ceiling_spec; lia).
  assert (0 ≤ cps).
  { pose proof (ceiling_spec n (Z.of_nat (size ntps)) Hsize). fold cps in H0. nia. }
  pose proof (mapSum_const cps ntps) as Hconst.
  assert (mapSum (λ _ _, cps) ntps
          ≤ mapSum (λ s c, c * ceiling cps (default 0 (ntps !! s))) ntps).
  { apply mapSum_le. intros s c Hs. rewrite Hs. simpl.
    assert (1 ≤ c).
    { eapply (increment_positive shards ∅); [|exact Hs].
      intros ? ?. by rewrite lookup_empty. }
    pose proof (ceiling_spec cps c ltac:(lia)). lia. }
  lia.
Qed.

Lemma ceiling_nonneg x y : 0 ≤ x → 0 ≤ y → 0 ≤ ceiling x y.
Proof.
  intros Hx Hy. pose proof (Z.le_gt_cases y 0) as [Hz|Hpos].
  - assert (y = 0) as -> by lia. by rewrite ceiling_zero.
  - pose proof (ceiling_spec x y Hpos). nia.
Qed.

Lemma quota_nonneg n (ntps : gmap string Z) (s : string) :
  0 ≤ n → (∀ s c, ntps !! s = Some c → 0 ≤ c) →
  0 ≤ ceiling (ceiling n (Z.of_nat (size ntps))) (default 0 (ntps !! s)).
Proof.
  intros Hn Hntps. apply ceiling_nonneg; [apply ceiling_nonneg; lia|].
  destruct (ntps !! s) as [c|] eqn:E; simpl; [by eapply Hntps|done].
Qed.

Lemma quotaOnShard_formula cps ntps shards acc acc' :
  0 ≤ cps → (∀ s c, ntps !! s = Some c → 0 ≤ c) →
  foldM (quotaOnShard cps ntps) acc shards = Ok acc' →
  acc'.1 = acc.1 ++ map (λ s, (s, ceiling cps (default 0 (ntps !! s)))) shards.
Proof.
  intros Hcps Hntps. revert acc. induction shards as [|s shards IH];
    intros acc; simpl.
  - intros [= <-]. by rewrite app_nil_r.
  - intros H. bind_inv H as acc1 Estep. apply IH in H as ->.
    unfold quotaOnShard in Estep. bind_inv Estep as c Ec.
    injection Estep as <-. simpl.
    apply ceilOfXOverY_ceiling in Ec as [_ ->]; [|done|].
    + by rewrite <- app_assoc.
    + destruct (ntps !! s) as [c'|] eqn:E; simpl; [by eapply Hntps|done].
Qed.

(** The split info of a zone under the presplit policy. *)
Lemma buildSplitInfoForTag_presplit self n ntps tag pat info self' :
  subclass self = PresplitHashedZones n ntps →
  0 ≤ n → (∀ s c, ntps !! s = Some c → 0 ≤ c) →
  buildSplitInfoForTag self tag pat = Ok (info, self') →
  self' = self
  ∧ ∃ shards,
      _tagToShardIds self !! getTag tag = Some shards
      ∧ chunkDistribution info
        = map (λ s, (s, ceiling (ceiling n (Z.of_nat (size ntps)))
                          (default 0 (ntps !! s)))) shards.
Proof.
  unfold buildSplitInfoForTag. intros -> Hn Hntps H.
  unfold buildSplitInfoForTag_PresplitHashedZones in H.
  bind_inv H as cps Ecps.
  destruct (_tagToShardIds self !! getTag tag) as [shards|]; [|done].
  bind_inv H as [dist total] Edist. bind_inv H as points Ep.
  injection H as <- <-. split; [done|]. exists shards. split; [done|].
  apply ceilOfXOverY_ceiling in Ecps as [_ ->]; [|done|lia].
  apply quotaOnShard_formula in Edist; [done| |done].
  apply ceiling_nonneg; lia.
Qed.

Lemma layout_length shardIds upper lastMax holes zones placements :
  TagsLayout shardIds upper lastMax holes zones placements →
  (sum_list_with (λ z, length (zonePlacements z.1 z.2)) zones
   ≤ length placements)%nat.
Proof.
  induction 1; simpl; rewrite ?length_app; lia.
Qed.

Lemma shardsOf_length (g : string → Z) (shards : list string) :
  (∀ s, s ∈ shards → 0 ≤ g s) →
  Z.of_nat (length (shardsOf (map (λ s, (s, g s)) shards)))
  = sumZ (map g shards).
Proof.
  induction shards as [|s shards IH]; intros Hg; simpl; [done|].
  rewrite length_app, length_replicate, Nat2Z.inj_add, IH.
  - assert (0 ≤ g s) by (apply Hg; left). lia.
  - intros s' Hs'. apply Hg. by right.
Qed.

Lemma sumZ_app l1 l2 : sumZ (l1 ++ l2) = sumZ l1 + sumZ l2.
Proof. induction l1 as [|x l1 IH]; simpl; lia. Qed.

(** The chunks of the zones, counted over the shards carrying the tags. *)
Lemma presplit_zone_chunks self n ntps pat tags infos self' :
  subclass self = PresplitHashedZones n ntps →
  0 ≤ n → (∀ s c, ntps !! s = Some c → 0 ≤ c) →
  builds pat self tags infos self' →
  Forall consistent infos →
  Z.of_nat (sum_list_with (λ z, length (zonePlacements z.1 z.2))
              (zip tags infos))
  = sumZ (map (λ s, ceiling (ceiling n (Z.of_nat (size ntps)))
                      (default 0 (ntps !! s)))
              (shardsCarrying (_tagToShardIds self) tags)).
Proof.
  intros Hsub Hn Hntps Hb. induction Hb as [|self tag info self1 tags infos self2
                                             Hinfo Hb IH]; intros Hcons.
  - done.
  - apply Forall_cons in Hcons as [[_ Hle] Hcons].
    eapply buildSplitInfoForTag_presplit in Hinfo as (-> & shards & Hshards & Hd);
      [|exact Hsub|done|done].
    simpl. rewrite Nat2Z.inj_add, IH by done.
    unfold shardsCarrying. simpl. rewrite Hshards. simpl.
    rewrite map_app, sumZ_app. f_equal.
    unfold zonePlacements. rewrite length_zip_with, TagsDriver.cutRange_length.
    rewrite Nat.min_r by done. rewrite Hd. apply shardsOf_length.
    intros s _. by apply quota_nonneg.
Qed.

End PresplitCounts.

(** C3. For a policy that [PresplitHashedZonesSplitPolicy] constructs from
    a tag list (non-empty, or the constructor fails) and [numInitialChunks]
    (a [size_t]): [_numTagsPerShard] counts for each shard the tags of the
    list it carries, its keys being the shards that carry at least one;
    [_numInitialChunks] is [numInitialChunks], or twice the number of those
    shards when [numInitialChunks] is 0; [buildSplitInfoForTag] assigns each
    shard of a zone
    [ceil(ceil(_numInitialChunks / |_numTagsPerShard|) / _numTagsPerShard[shard])]
    chunks; these quotas add up, over all zones, to at least
    [_numInitialChunks]; and so do the chunks [createFirstChunks] returns. *)
Theorem PresplitHashedZones_chunk_counts (opCtx : OperationContext)
    (shardKeyPattern : ShardKeyPattern) (tags : list TagsType)
    (numInitialChunks : Z) (isCollectionEmpty : bool)
    (self : AbstractTagsBasedSplitPolicy.t) :
  0 ≤ numInitialChunks < 2 ^ 64 →
  PresplitHashedZonesSplitPolicy.make opCtx shardKeyPattern tags
    numInitialChunks isCollectionEmpty = Ok self →
  ∃ n ntps,
    let carrying :=
      shardsCarrying (AbstractTagsBasedSplitPolicy._tagToShardIds self) tags in
    let quota (s : string) :=
      ceiling (ceiling n (Z.of_nat (size ntps))) (default 0 (ntps !! s)) in
    AbstractTagsBasedSplitPolicy.subclass self
    = AbstractTagsBasedSplitPolicy.PresplitHashedZones n ntps
    ∧ AbstractTagsBasedSplitPolicy._tags self = tags
    ∧ tags ≠ []
    ∧ (∀ s, is_Some (ntps !! s) ↔ s ∈ carrying)
    ∧ (∀ s, default 0 (ntps !! s)
            = Z.of_nat (length (filter (λ x, x = s) carrying)))
    ∧ n = (if numInitialChunks =? 0 then toSizeT (Z.of_nat (size ntps) * 2)
           else numInitialChunks)
    ∧ (numInitialChunks = 0 → Z.of_nat (size ntps) * 2 < 2 ^ 64 →
       n = 2 * Z.of_nat (size ntps))
    ∧ (∀ tag info self',
         AbstractTagsBasedSplitPolicy.buildSplitInfoForTag self tag
           shardKeyPattern = Ok (info, self') →
         ∃ shards,
           AbstractTagsBasedSplitPolicy._tagToShardIds self !! getTag tag
           = Some shards
           ∧ AbstractTagsBasedSplitPolicy.chunkDistribution info
             = map (λ s, (s, quota s)) shards)
    ∧ n ≤ sumZ (map quota carrying)
    ∧ (∀ opCtx' params chunks,
         AbstractTagsBasedSplitPolicy.createFirstChunks self opCtx'
           shardKeyPattern params = Ok chunks →
         ∃ infos self',
           builds shardKeyPattern self tags infos self'
           ∧ TagsLayout (getAllShardIdsShuffled opCtx')
               (globalMax shardKeyPattern) (globalMin shardKeyPattern) 0
               (zip tags infos) (map placement chunks)
           ∧ Z.of_nat (sum_list_with (λ z, length (zonePlacements z.1 z.2))
                         (zip tags infos))
             = sumZ (map quota carrying)
           ∧ n ≤ Z.of_nat (sum_list_with
                             (λ z, length (zonePlacements z.1 z.2))
                             (zip tags infos))
               ≤ Z.of_nat (length chunks)).
Proof.
  intros HN H. unfold PresplitHashedZonesSplitPolicy.make in H.
  bind_inv H as base Ebase. bind_inv H as ? Evalid.
  bind_inv H as ntps Entps. bind_inv H as ? Einv. injection H as <-.
  unfold AbstractTagsBasedSplitPolicy.make in Ebase.
  bind_inv Ebase as tagToShardIds Emap. injection Ebase as <-.
  cbn [AbstractTagsBasedSplitPolicy._tagToShardIds
       AbstractTagsBasedSplitPolicy._tags
       AbstractTagsBasedSplitPolicy.subclass] in *.
  apply PresplitCounts.countTag_flat in Entps.
  set (carrying := shardsCarrying tagToShardIds tags) in *.
  set (n := if numInitialChunks =? 0 then toSizeT (Z.of_nat (size ntps) * 2)
            else numInitialChunks).
  assert (0 ≤ n) as Hn.
  { unfold n. destruct (numInitialChunks =? 0); [|lia].
    unfold toSizeT. apply Z.mod_pos_bound. lia. }
  assert (∀ s c, ntps !! s = Some c → 0 ≤ c) as Hntps.
  { intros s c Hs. rewrite Entps in Hs.
    apply PresplitCounts.increment_positive in Hs; [lia|].
    intros ? ?. by rewrite lookup_empty. }
  assert (tags ≠ []) as Htags.
  { unfold PresplitHashedZonesSplitPolicy._validate in Evalid.
    bind_inv Evalid as ? E31387. apply uassert_Ok_inv in E31387.
    cbn [AbstractTagsBasedSplitPolicy._tags] in E31387.
    apply andb_true_iff in E31387 as [E _].
    apply andb_true_iff in E as [_ E].
    by apply negb_true_iff, bool_decide_eq_false in E. }
  assert (carrying ≠ []) as Hcarrying.
  { intros Hnil. rewrite Hnil in Entps. simpl in Entps. subst ntps.
    apply invariant_Ok_inv in Einv. by rewrite bool_decide_true in Einv. }
  exists n, ntps. cbn zeta. repeat split; try done.
  - rewrite Entps, PresplitCounts.increment_keys, lookup_empty.
    intros [[? [=]]|?]; done.
  - intros Hs. rewrite Entps. apply PresplitCounts.increment_keys. by right.
  - intros s. rewrite Entps, PresplitCounts.increment_count, lookup_empty.
    apply Z.add_0_l.
  - intros -> Hsmall. unfold n. simpl. unfold toSizeT.
    rewrite Z.mod_small; lia.
  - intros tag info self' Hinfo.
    eapply PresplitCounts.buildSplitInfoForTag_presplit in Hinfo
      as (_ & shards & Hshards & Hd); [|done|done|done].
    eauto.
  - pose proof (PresplitCounts.quotas_cover n carrying Hn Hcarrying) as Hcover.
    cbn zeta in Hcover. by rewrite <- Entps in Hcover.
  - intros opCtx' params chunks Hchunks.
    apply TagsDriver.createFirstChunks_layout in Hchunks
      as (infos & self' & Hb & Hcons & _ & _ & Hlayout).
    cbn [AbstractTagsBasedSplitPolicy._tags] in *.
    exists infos, self'. split; [exact Hb|]. split; [exact Hlayout|].
    apply PresplitCounts.layout_length in Hlayout.
    rewrite length_map in Hlayout.
    eapply (PresplitCounts.presplit_zone_chunks _ n ntps) in Hb;
      [|done|done|done|done].
    cbn [AbstractTagsBasedSplitPolicy._tagToShardIds] in Hb. fold carrying in Hb.
    pose proof (PresplitCounts.quotas_cover n carrying Hn Hcarrying) as Hcover.
    cbn zeta in Hcover. rewrite <- Entps in Hcover.
    apply Nat2Z.inj_le in Hlayout.
    split; [exact Hb|]. split; [|exact Hlayout].
    etrans; [exact Hcover|]. apply Z.eq_le_incl. symmetry. exact Hb.
Qed.

(** ** The theorems at the example inputs *)

Import Examples.


Lemma calculateOptimizationStrategy_decision_witness :
  (∃ reason,
     calculateOptimizationStrategy cluster keyX 4 false [] 3 true
     = Err (UserAssertion InvalidOptions reason))
  ∧ calculateOptimizationStrategy cluster keyH 4 false [] 3 true
    = Ok (SplitPointsBased
            {| SplitPointsBasedSplitPolicy._splitPoints :=
                 map (λ v, [("h"%string, VNumberLong v)])
                   [-6148914691236517204; -3074457345618258602; 0;
                    3074457345618258602; 6148914691236517204];
               SplitPointsBasedSplitPolicy._numContiguousChunksPerShard := 1 |})
  ∧ calculateOptimizationStrategy cluster keyX 0 false ascendingZones 3 true
    = Ok (TagsBased (singleChunkPerTag ascendingZones))
  ∧ calculateOptimizationStrategy cluster keyX 0 false ascendingZones 3 false
    = Ok SingleChunkOnPrimary.
Proof.
  split; [|split; [|split]].
  - apply (calculateOptimizationStrategy_decision cluster keyX 4 false [] 3 true).
    left. split; [discriminate|]. right. reflexivity.
  - etrans.
    + apply (calculateOptimizationStrategy_decision cluster keyH 4 false [] 3
               true).
      * intros [_ [H|H]]; discriminate H.
      * intros (_ & H & _). discriminate H.
    + vm_compute. reflexivity.
  - etrans.
    + apply (calculateOptimizationStrategy_decision cluster keyX 0 false
               ascendingZones 3 true).
      * intros [H _]. by apply H.
      * intros [H _]. by apply H.
    + vm_compute. reflexivity.
  - etrans.
    + apply (calculateOptimizationStrategy_decision cluster keyX 0 false
               ascendingZones 3 false).
      * intros [H _]. by apply H.
      * intros [H _]. by apply H.
    + reflexivity.
Defined.

Lemma selectBestShard_least_loaded_witness :
  (∃ best, selectBestShard chunkCounts zoneB zoneShards
             {| getMin := xAt 30; getMax := xAt 40 |} = Ok best)
  ∧ (∃ reason, selectBestShard chunkCounts zoneB zoneShards
                 {| getMin := xAt 12; getMax := xAt 15 |}
               = Err (UserAssertion 4952607 reason))
  ∧ (∃ reason, selectBestShard chunkCounts zoneB (delete EmptyString zoneShards)
                 {| getMin := xAt 30; getMax := xAt 40 |}
               = Err (UserAssertion 4952605 reason)).
Proof.
  split; [|split].
  - destruct (selectBestShard_least_loaded chunkCounts zoneB zoneShards
                {| getMin := xAt 30; getMax := xAt 40 |})
      as (_ & _ & _ & Htotal).
    apply (Htotal ["S1"; "S2"; "S3"]%string).
    + reflexivity.
    + discriminate.
    + intros s Hs. repeat (apply elem_of_cons in Hs as [->|Hs]; [by eexists|]).
      by apply elem_of_nil in Hs.
  - apply (selectBestShard_least_loaded chunkCounts zoneB zoneShards
             {| getMin := xAt 12; getMax := xAt 15 |}). reflexivity.
  - apply (selectBestShard_least_loaded chunkCounts zoneB
             (delete EmptyString zoneShards)
             {| getMin := xAt 30; getMax := xAt 40 |}). reflexivity.
Defined.

Lemma createFirstChunks_versions_increase_witness :
  ∃ chunks,
    createFirstChunks (TagsBased (singleChunkPerTag ascendingZones)) cluster
      keyX params = Ok chunks
    ∧ ∀ (i : nat) c, chunks !! i = Some c →
        getVersion c
        = {| epoch := 42; getTimestamp := 100; majorVersion := 1;
             minorVersion := Z.of_nat i |}.
Proof.
  eexists. split; [vm_compute; reflexivity|].
  destruct createFirstChunks_versions_increase as [_ Hpolicies].
  apply (Hpolicies (TagsBased (singleChunkPerTag ascendingZones)) cluster keyX
           params).
  vm_compute. reflexivity.
Defined.

Lemma generateShardCollectionInitialChunks_set_of_splitPoints_witness :
  generateShardCollectionInitialChunks cluster params keyX 100
    [xAt 7; xAt 3; xAt 7] ["S1"; "S2"]%string 1
  = generateShardCollectionInitialChunks cluster params keyX 100
      [xAt 3; xAt 7] ["S1"; "S2"]%string 1
  ∧ ∃ chunks,
      generateShardCollectionInitialChunks cluster params keyX 100
        [xAt 3; xAt 7] ["S1"; "S2"]%string 1 = Ok chunks.
Proof.
  destruct (generateShardCollectionInitialChunks_set_of_splitPoints cluster
              params keyX 100 [xAt 3; xAt 7] ["S1"; "S2"]%string 1)
    as (Hsame & _ & _ & Htotal).
  split.
  - apply Hsame. intros p. rewrite !elem_of_cons, !elem_of_nil. tauto.
  - apply Htotal; [discriminate|]. vm_compute. discriminate.
Defined.

Lemma createFirstSplitPoints_cardinality_witness :
  SamplingBasedSplitPolicy.createFirstSplitPoints fourSamples keyX
  = Err (UserAssertion 4952606
           "The shard key provided does not have enough cardinality to make the required number of chunks of 10, it can only make 5 chunks").
Proof.
  destruct (createFirstSplitPoints_cardinality fourSamples keyX)
    as (_ & Hfail & _).
  - vm_compute. split; [reflexivity|discriminate].
  - rewrite Hfail; [|vm_compute; reflexivity]. vm_compute. reflexivity.
Defined.

Lemma calculateHashedSplitPoints_values_witness :
  ∃ values,
    calculateHashedSplitPoints keyH [] 4
    = Ok (map (buildSplitPoint keyH []) values)
    ∧ length values = 3%nat
    ∧ StronglySorted Z.lt values.
Proof.
  destruct (calculateHashedSplitPoints_values keyH [] 4)
    as (values & Hcalc & Hlen & Hsorted & _).
  - reflexivity.
  - vm_compute. split; discriminate.
  - exists values. split; [exact Hcalc|]. split; [exact Hlen|exact Hsorted].
Defined.

Lemma createFirstChunks_hole_chunks_witness :
  ∃ chunks infos self',
    AbstractTagsBasedSplitPolicy.createFirstChunks
      (singleChunkPerTag ascendingZones) cluster keyX params = Ok chunks
    ∧ builds keyX (singleChunkPerTag ascendingZones) ascendingZones infos self'
    ∧ TagsLayout ["S1"; "S2"; "S3"]%string (globalMax keyX) (globalMin keyX) 0
        (zip ascendingZones infos) (map placement chunks).
Proof.
  eexists.
  destruct (createFirstChunks_hole_chunks (singleChunkPerTag ascendingZones)
              cluster keyX params _ ltac:(vm_compute; reflexivity))
    as [(infos & self' & Hb & Hl) _].
  exists infos, self'. split; [vm_compute; reflexivity|]. split; [exact Hb|].
  exact Hl.
Defined.

Lemma createFirstChunks_tiles_witness :
  (∃ chunks,
     createFirstChunks (TagsBased (singleChunkPerTag ascendingZones)) cluster
       keyX params = Ok chunks
     ∧ tiles keyX chunks)
  ∧ (∃ chunks,
       createFirstChunks (ShardDistribution twoRanges) cluster keyX params
       = Ok chunks
       ∧ tiles keyX chunks).
Proof.
  split.
  - eexists. split; [vm_compute; reflexivity|].
    apply (createFirstChunks_tiles
             (TagsBased (singleChunkPerTag ascendingZones)) cluster keyX params).
    + vm_compute. repeat split; discriminate.
    + vm_compute. reflexivity.
  - eexists. split; [vm_compute; reflexivity|].
    apply (createFirstChunks_tiles (ShardDistribution twoRanges) cluster keyX
             params).
    + split.
      * intros r m Hr Hm.
        repeat (apply elem_of_cons in Hr as [->|Hr];
                [simpl in Hm; injection Hm as <-; reflexivity|]).
        by apply elem_of_nil in Hr.
      * intros r m Hr Hm. vm_compute in Hr. injection Hr as <-.
        vm_compute in Hm. injection Hm as <-. reflexivity.
    + vm_compute. reflexivity.
Defined.

Lemma PresplitHashedZones_chunk_counts_witness :
  match PresplitHashedZonesSplitPolicy.make cluster keyCH countryZones 0 true with
  | Ok self =>
      ∃ chunks,
        AbstractTagsBasedSplitPolicy.createFirstChunks self cluster keyCH params
        = Ok chunks
        ∧ 6 ≤ Z.of_nat (length chunks)
  | Err _ => False
  end.
Proof.
  destruct (PresplitHashedZonesSplitPolicy.make cluster keyCH countryZones 0
              true) as [self|] eqn:Emake; [|by vm_compute in Emake].
  destruct (PresplitHashedZones_chunk_counts cluster keyCH countryZones 0 true
              self ltac:(vm_compute; split; [discriminate|reflexivity]) Emake)
    as (n & ntps & Hsub & _ & _ & _ & _ & _ & _ & _ & _ & Hchunks).
  vm_compute in Emake. injection Emake as <-.
  injection Hsub as <- <-.
  eexists. split; [vm_compute; reflexivity|].
  destruct (Hchunks cluster params _ ltac:(vm_compute; reflexivity))
    as (infos & self' & _ & _ & _ & Hzones & Hall).
  etrans; [exact Hzones|exact Hall].
Defined.

(** * Further properties of the split policies *)

(** ** [PipelineDocumentSource::getNext] *)

Lemma skipSamples_spec count pipeline val :
  PipelineDocumentSource.skipSamples count pipeline val
  = (default val (last (take count pipeline)), drop count pipeline).
Proof.
  revert pipeline val. induction count as [|count IH]; intros pipeline val.
  - by rewrite take_0, drop_0.
  - destruct pipeline as [|newVal pipeline]; [done|].
    simpl. rewrite IH. f_equal. rewrite last_cons.
    by destruct (last (take count pipeline)).
Qed.

Lemma getNext_spec (src : PipelineDocumentSource.t) :
  PipelineDocumentSource.getNext src
  = (last (take (S (Z.to_nat (PipelineDocumentSource._skip src)))
             (PipelineDocumentSource._pipeline src)),
     {| PipelineDocumentSource._pipeline :=
          drop (S (Z.to_nat (PipelineDocumentSource._skip src)))
               (PipelineDocumentSource._pipeline src);
        PipelineDocumentSource._skip := PipelineDocumentSource._skip src |}).
Proof.
  destruct src as [docs skip]. unfold PipelineDocumentSource.getNext. simpl.
  destruct docs as [|val docs]; [done|].
  rewrite skipSamples_spec. simpl. f_equal.
  rewrite last_cons. by destruct (last (take (Z.to_nat skip) docs)).
Qed.

Lemma yields_lookup (calls : nat) (src : PipelineDocumentSource.t) (i : nat) :
  (length (PipelineDocumentSource._pipeline src) ≤ calls)%nat →
  yields calls src !! i
  = last (take (S (Z.to_nat (PipelineDocumentSource._skip src)))
            (drop (i * S (Z.to_nat (PipelineDocumentSource._skip src)))
               (PipelineDocumentSource._pipeline src))).
Proof.
  revert src i. induction calls as [|calls IH]; intros src i Hlen.
  - destruct (PipelineDocumentSource._pipeline src); [|simpl in Hlen; lia].
    by rewrite drop_nil, take_nil.
  - simpl. rewrite getNext_spec.
    set (stride := S (Z.to_nat (PipelineDocumentSource._skip src))) in *.
    destruct (PipelineDocumentSource._pipeline src) as [|val docs] eqn:E.
    { rewrite !drop_nil, !take_nil. simpl. apply lookup_nil. }
    destruct (last (take stride (val :: docs))) as [sample|] eqn:El.
    2:{ by apply last_None in El. }
    destruct i as [|i]; [by rewrite drop_0|].
    rewrite lookup_cons. rewrite IH; simpl.
    + fold stride. rewrite drop_drop. repeat f_equal; lia.
    + rewrite length_drop. simpl in Hlen. lia.
Qed.

(** X1. A call of [getNext] yields the last of the next [_skip + 1]
    documents of the pipeline (the last document left when there are fewer,
    nothing when there is none) and consumes them; so the [i]-th sample a
    source yields is the last of the [i]-th block of [_skip + 1] documents,
    and [ceil(n / (_skip + 1))] samples come out of [n] documents. *)
Theorem getNext_every_kth (src : PipelineDocumentSource.t) :
  let docs := PipelineDocumentSource._pipeline src in
  let stride := S (Z.to_nat (PipelineDocumentSource._skip src)) in
  PipelineDocumentSource.getNext src
  = (last (take stride docs),
     {| PipelineDocumentSource._pipeline := drop stride docs;
        PipelineDocumentSource._skip := PipelineDocumentSource._skip src |})
  ∧ (∀ i : nat,
       yields (length docs) src !! i = last (take stride (drop (i * stride) docs)))
  ∧ (∀ i sample,
       yields (length docs) src !! i = Some sample →
       docs !! (Nat.min (S i * stride) (length docs) - 1)%nat = Some sample)
  ∧ (length (yields (length docs) src) * stride < length docs + stride
     ∧ length docs ≤ length (yields (length docs) src) * stride)%nat.
Proof.
  intros docs stride.
  assert (Hstride : (1 ≤ stride)%nat) by (unfold stride; lia).
  assert (Hlookup : ∀ i : nat,
    yields (length docs) src !! i = last (take stride (drop (i * stride) docs))).
  { intros i. by apply yields_lookup. }
  assert (Hsome : ∀ i : nat,
    is_Some (yields (length docs) src !! i) ↔ (i * stride < length docs)%nat).
  { intros i. rewrite Hlookup.
    destruct (decide (i * stride < length docs)%nat) as [Hi|Hi].
    - split; [done|]. intros _.
      destruct (last (take stride (drop (i * stride) docs))) eqn:E; [done|].
      apply last_None, (f_equal length) in E.
      rewrite length_take, length_drop in E.
      change (length (@nil BSONObj)) with 0%nat in E. lia.
    - split; [|done]. rewrite drop_ge by lia. rewrite take_nil.
      by intros [? [=]]. }
  split; [apply getNext_spec|]. split; [exact Hlookup|]. split.
  - intros i sample Hi.
    assert (Hlt : (i * stride < length docs)%nat) by (apply Hsome; eauto).
    rewrite Hlookup, last_lookup, lookup_take_lt in Hi.
    2:{ rewrite length_take, length_drop. lia. }
    rewrite lookup_drop in Hi. rewrite <- Hi. f_equal.
    rewrite length_take, length_drop. lia.
  - set (n := length (yields (length docs) src)).
    assert (Hn : ¬ is_Some (yields (length docs) src !! n)).
    { rewrite lookup_ge_None_2; [by intros [? [=]]|done]. }
    rewrite Hsome in Hn. split; [|lia].
    destruct n as [|m] eqn:En; [lia|].
    assert (Hm : is_Some (yields (length docs) src !! m)).
    { apply lookup_lt_is_Some. fold n in En. lia. }
    apply Hsome in Hm. lia.
Qed.

(** ** [extractSplitPointsFromZones] *)

Lemma setErase_elements x s z :
  isSet s → z ∈ setErase x s ↔ z ∈ s ∧ z ≠ x.
Proof.
  induction 1 as [|y s Hs IH Hy]; simpl.
  - rewrite elem_of_nil. tauto.
  - rewrite Forall_forall in Hy.
    destruct (woCompare x y) eqn:E.
    + apply (cmp_eq (cmp:=woCompare)) in E as ->.
      rewrite elem_of_cons. split.
      * intros Hz. split; [by right|]. intros ->.
        by eapply bsonLess_irrefl, Hy.
      * intros [[->|Hz] Hne]; done.
    + rewrite !elem_of_cons, IH. split; [|tauto].
      intros [->|[Hz Hne]]; [|tauto]. split; [by left|].
      intros ->. by rewrite (cmp_refl woCompare) in E.
    + rewrite !elem_of_cons, IH. split; [|tauto].
      intros [->|[Hz Hne]]; [|tauto]. split; [by left|].
      intros ->. by rewrite (cmp_refl woCompare) in E.
Qed.

Lemma zoneBounds_elements (zs : list TagsType) (s : BSONObjSet) (p : BSONObj) :
  p ∈ foldl (λ acc zone,
               (setInsert (getMaxKey zone)
                  (setInsert (getMinKey zone) acc).1).1) s zs
  ↔ (∃ zone, zone ∈ zs ∧ (p = getMinKey zone ∨ p = getMaxKey zone)) ∨ p ∈ s.
Proof.
  revert s. induction zs as [|z zs IH]; intros s; simpl.
  - split; [by right|]. intros [(zone & Hz & _)|H]; [|done].
    by apply elem_of_nil in Hz.
  - rewrite IH, !setInsert_elements. split.
    + intros [(zone & Hz & Hp)|[->|[->|Hs]]].
      * left. exists zone. split; [by right|done].
      * left. exists z. split; [by left|by right].
      * left. exists z. split; [by left|by left].
      * by right.
    + intros [(zone & Hz & Hp)|Hs]; [|tauto].
      apply elem_of_cons in Hz as [->|Hz]; [tauto|].
      left. by exists zone.
Qed.

(** X2. [extractSplitPointsFromZones] returns no split point when no zones
    are given; for given zones it returns, in strictly ascending order
    without duplicates, exactly the min and max keys of the zones other
    than [globalMin] and [globalMax]. *)
Theorem extractSplitPointsFromZones_boundaries (shardKey : ShardKeyPattern) :
  extractSplitPointsFromZones shardKey None = []
  ∧ ∀ zones : list TagsType,
      StronglySorted (λ a b, woCompare a b = Lt)
        (extractSplitPointsFromZones shardKey (Some zones))
      ∧ ∀ p, p ∈ extractSplitPointsFromZones shardKey (Some zones)
             ↔ (∃ zone, zone ∈ zones
                        ∧ (p = getMinKey zone ∨ p = getMaxKey zone))
               ∧ p ≠ globalMin shardKey ∧ p ≠ globalMax shardKey.
Proof.
  split; [done|]. intros zones.
  split; [apply (extractSplitPointsFromZones_isSet shardKey (Some zones))|].
  intros p. unfold extractSplitPointsFromZones.
  assert (isSet (foldl (λ acc zone,
                          (setInsert (getMaxKey zone)
                             (setInsert (getMinKey zone) acc).1).1) [] zones))
    as Hset.
  { assert (∀ s, isSet s →
              isSet (foldl (λ acc zone,
                              (setInsert (getMaxKey zone)
                                 (setInsert (getMinKey zone) acc).1).1) s zones))
      as H; [|apply H; constructor].
    induction zones as [|z zs IH]; intros s Hs; simpl; [done|].
    apply IH. by do 2 apply setInsert_isSet. }
  rewrite setErase_elements by by apply setErase_isSet.
  rewrite setErase_elements by done.
  rewrite zoneBounds_elements, elem_of_nil. tauto.
Qed.

(** ** The contents of the zone and shard maps *)

Lemma pushShards_lookup shard (tags : list string)
    (m : gmap string (list ShardId)) (k : string) :
  let l := replicate (occurrences k tags) shard in
  (l = [] → foldl (pushShard shard) m tags !! k = m !! k)
  ∧ (l ≠ [] →
     foldl (pushShard shard) m tags !! k = Some (default [] (m !! k) ++ l)).
Proof.
  revert m. induction tags as [|t tags IH]; intros m; simpl; [done|].
  destruct (IH (pushShard shard m t)) as [IH0 IH1].
  rewrite pushShard_lookup in IH0, IH1.
  unfold occurrences in *.
  rewrite filter_cons. destruct (decide (t = k)) as [->|Hne]; simpl.
  - split; [done|]. intros _.
    destruct (replicate (length (filter (λ t, t = k) tags)) shard) as [|x l] eqn:E.
    + rewrite IH0 by done. done.
    + rewrite IH1 by done. simpl. by rewrite <- app_assoc.
  - done.
Qed.

Lemma addShardDocs_lookup (shards : list ShardType)
    (m : gmap string (list ShardId)) :
  ∃ m', foldM addShardDoc m (map WellFormed shards) = Ok m'
        ∧ ∀ k, (carriers k shards = [] → m' !! k = m !! k)
               ∧ (carriers k shards ≠ [] →
                  m' !! k = Some (default [] (m !! k) ++ carriers k shards)).
Proof.
  revert m. induction shards as [|s shards IH]; intros m; simpl.
  - exists m. split; [done|]. intros k. split; [done|]. by intros [].
  - destruct (IH (foldl (pushShard (getName s)) m (getTags s)))
      as (m' & Hm' & Hk).
    exists m'. split; [exact Hm'|]. intros k.
    destruct (Hk k) as [Hk0 Hk1].
    destruct (pushShards_lookup (getName s) (getTags s) m k) as [Hs0 Hs1].
    cbn zeta in Hs0, Hs1. unfold carriers in *. simpl.
    clear IH. unfold ShardId in *.
    remember (replicate (occurrences k (getTags s)) (getName s))
      as here eqn:Ehere in *.
    remember (flat_map _ shards) as later eqn:Elater in *.
    clear Ehere Elater.
    destruct here as [|x l]; destruct later as [|y l']; simpl.
    + split; [intros _|done]. by rewrite Hk0, Hs0.
    + split; [done|intros _]. by rewrite Hk1, Hs0.
    + split; [done|intros _]. rewrite Hk0, Hs1 by done.
      by rewrite app_nil_r.
    + split; [done|intros _]. rewrite Hk1, Hs1 by done. simpl.
      by rewrite <- app_assoc.
Qed.

Lemma carriers_nonempty zone shards :
  carriers zone shards ≠ [] ↔ ∃ s, s ∈ shards ∧ zone ∈ getTags s.
Proof.
  unfold carriers, occurrences. induction shards as [|s shards IH]; simpl.
  - split; [done|]. intros (s & Hs & _). by apply elem_of_nil in Hs.
  - split.
    + intros H.
      destruct (filter (λ t, t = zone) (getTags s)) as [|t l] eqn:E.
      * simpl in H. apply IH in H as (s' & Hs' & Hz).
        exists s'. split; [by right|done].
      * exists s. split; [by left|].
        assert (t ∈ filter (λ t, t = zone) (getTags s)) as Ht
          by (rewrite E; left).
        apply list_elem_of_filter in Ht as [-> Ht]. done.
    + intros (s' & Hs' & Hz). apply elem_of_cons in Hs' as [->|Hs'].
      * assert (zone ∈ filter (λ t, t = zone) (getTags s)) as Ht
          by by apply list_elem_of_filter.
        destruct (filter (λ t, t = zone) (getTags s)); [by apply elem_of_nil in Ht|].
        done.
      * intros H. apply app_eq_nil in H as [_ H]. revert H. apply IH. eauto.
Qed.

(** X3. On a non-empty tag list [buildTagsToShardIdsMap] passes on the
    failure of the query on [config.shards] and the failure of the first
    shard document that does not parse; when all documents parse, the
    returned map binds exactly the names of the tags and the zones that
    some shard carries, each to the shards whose documents list it, in the
    order of the documents. *)
Theorem buildTagsToShardIdsMap_contents (opCtx : OperationContext)
    (tags : list TagsType) :
  tags ≠ [] →
  (∀ e, exhaustiveFindOnConfig opCtx = Err e →
        buildTagsToShardIdsMap opCtx tags = Err e)
  ∧ (∀ shards code reason docs,
       exhaustiveFindOnConfig opCtx
       = Ok (map WellFormed shards ++ Malformed code reason :: docs) →
       buildTagsToShardIdsMap opCtx tags = Err (UserAssertion code reason))
  ∧ (∀ shards, shards ≠ [] →
       exhaustiveFindOnConfig opCtx = Ok (map WellFormed shards) →
       ∃ m, buildTagsToShardIdsMap opCtx tags = Ok m
            ∧ (∀ zone, is_Some (m !! zone)
                       ↔ zone ∈ map getTag tags
                         ∨ ∃ s, s ∈ shards ∧ zone ∈ getTags s)
            ∧ ∀ zone l, m !! zone = Some l → l = carriers zone shards).
Proof.
  intros Htags. unfold buildTagsToShardIdsMap.
  destruct tags as [|tag tags]; [done|]. repeat split.
  - intros e ->. done.
  - intros shards code reason docs ->. simpl.
    rewrite bool_decide_eq_false_2.
    2:{ intros H. by apply app_eq_nil in H as [_ ?]. }
    simpl. rewrite foldM_app.
    destruct (addShardDocs_lookup shards
                (foldl (λ m tag, <[getTag tag := []]> m) (<[getTag tag := []]> ∅) tags))
      as (m' & -> & _).
    done.
  - intros shards Hshards ->. simpl.
    rewrite bool_decide_eq_false_2 by by destruct shards.
    simpl.
    destruct (addShardDocs_lookup shards
                (foldl (λ m tag, <[getTag tag := []]> m) (<[getTag tag := []]> ∅) tags))
      as (m' & -> & Hk).
    exists m'. split; [done|].
    assert (Hinit : ∀ k : string,
      foldl (λ (m : gmap string (list ShardId)) tag, <[getTag tag := []]> m)
            (<[getTag tag := []]> ∅) tags !! k
      = if decide (k ∈ map getTag (tag :: tags)) then Some [] else None).
    { intros k. pose proof (tag_keys_lookup (tag :: tags) ∅ k) as H.
      by rewrite lookup_empty in H. }
    split.
    + intros zone. destruct (Hk zone) as [Hk0 Hk1].
      rewrite <- carriers_nonempty.
      destruct (carriers zone shards) as [|x l] eqn:E.
      * rewrite Hk0, Hinit by done. case_decide as Hin.
        -- split; [by left|eauto].
        -- split; [by intros [? [=]]|]. intros [?|?]; done.
      * rewrite Hk1 by done. split; [by right|eauto].
    + intros zone l. destruct (Hk zone) as [Hk0 Hk1].
      destruct (carriers zone shards) as [|x l'] eqn:E.
      * rewrite Hk0, Hinit by done. case_decide; [by intros [= <-]|done].
      * rewrite Hk1, Hinit by done. case_decide; by intros [= <-].
Qed.

Lemma insertTags_lookup (name : string) (tags : list string)
    (m : gmap ShardId (gset string)) (k : ShardId) :
  foldl (λ m tag, <[name := default ∅ (m !! name) ∪ {[tag]}]> m) m tags !! k
  = if decide (k = name ∧ tags ≠ [])
    then Some (default ∅ (m !! name) ∪ list_to_set tags)
    else m !! k.
Proof.
  revert m. induction tags as [|t tags IH]; intros m; simpl.
  - rewrite decide_False; [done|]. by intros [_ ?].
  - rewrite IH. rewrite lookup_insert_eq. simpl.
    destruct (decide (k = name)) as [->|Hne].
    + rewrite (decide_True (P:=name = name ∧ t :: tags ≠ [])) by done.
      destruct tags as [|t' tags].
      * rewrite decide_False by (by intros [_ ?]).
        rewrite lookup_insert_eq. simpl. by rewrite (right_id_L ∅ (∪)).
      * rewrite decide_True by done. by rewrite (assoc_L (∪)).
    + rewrite !decide_False by (by intros [? _]).
      by rewrite lookup_insert_ne.
Qed.

Lemma addShardDocsTags_lookup (shards : list ShardType)
    (m : gmap ShardId (gset string)) :
  ∃ m', foldM addShardDocTags m (map WellFormed shards) = Ok m'
        ∧ ∀ k : ShardId,
            (is_Some (m' !! k)
             ↔ is_Some (m !! k)
               ∨ ∃ s, s ∈ shards ∧ getName s = k ∧ getTags s ≠ [])
            ∧ ∀ zone : string,
                zone ∈ default ∅ (m' !! k)
                ↔ zone ∈ default ∅ (m !! k)
                  ∨ ∃ s, s ∈ shards ∧ getName s = k ∧ zone ∈ getTags s.
Proof.
  revert m. induction shards as [|s shards IH]; intros m; simpl.
  - exists m. split; [done|]. intros k. split.
    + split; [by left|]. intros [?|(s & Hs & _)]; [done|].
      by apply elem_of_nil in Hs.
    + intros zone. split; [by left|]. intros [?|(s & Hs & _)]; [done|].
      by apply elem_of_nil in Hs.
  - destruct (IH (foldl (λ m tag, <[getName s :=
                           default ∅ (m !! getName s) ∪ {[tag]}]> m)
                        m (getTags s))) as (m' & Hm' & Hk).
    exists m'. split; [exact Hm'|]. intros k.
    destruct (Hk k) as [Hkeys Hzones]. clear Hk IH Hm'.
    rewrite insertTags_lookup in Hkeys.
    split.
    + rewrite Hkeys. clear Hkeys Hzones.
      case_decide as Hd.
      * destruct Hd as [-> Hne]. split.
        -- intros _. right. exists s. split; [by left|done].
        -- intros _. left. eauto.
      * split.
        -- intros [?|(s' & Hs' & Hn & Ht)]; [by left|].
           right. exists s'. split; [by right|done].
        -- intros [?|(s' & Hs' & Hn & Ht)]; [by left|].
           apply elem_of_cons in Hs' as [->|Hs'].
           ++ destruct Hd. done.
           ++ right. eauto.
    + intros zone. rewrite Hzones. clear Hkeys Hzones.
      rewrite insertTags_lookup.
      case_decide as Hd.
      * destruct Hd as [-> Hne]. simpl.
        rewrite elem_of_union, elem_of_list_to_set. split.
        -- intros [[?|Hz]|(s' & Hs' & Hn & Ht)]; [by left| |].
           ++ right. exists s. split; [by left|done].
           ++ right. exists s'. split; [by right|done].
        -- intros [?|(s' & Hs' & Hn & Ht)]; [tauto|].
           apply elem_of_cons in Hs' as [->|Hs']; [tauto|].
           right. eauto.
      * split.
        -- intros [?|(s' & Hs' & Hn & Ht)]; [by left|].
           right. exists s'. split; [by right|done].
        -- intros [?|(s' & Hs' & Hn & Ht)]; [by left|].
           apply elem_of_cons in Hs' as [->|Hs'].
           ++ destruct Hd. split; [done|]. intros E. rewrite E in Ht.
              by apply elem_of_nil in Ht.
           ++ right. eauto.
Qed.

Lemma shard_keys_lookup (ranges : list ShardKeyRange)
    (m : gmap ShardId (gset string)) (k : ShardId) :
  foldl (λ m shard, <[skrShard shard := ∅]> m) m ranges !! k
  = if decide (k ∈ map skrShard ranges) then Some ∅ else m !! k.
Proof.
  revert m. induction ranges as [|r ranges IH]; intros m.
  - rewrite decide_False; [done|]. apply not_elem_of_nil.
  - cbn [foldl]. rewrite IH.
    change (map skrShard (r :: ranges)) with (skrShard r :: map skrShard ranges).
    destruct (decide (k ∈ map skrShard ranges)) as [Hin|Hn].
    + rewrite decide_True; [done|by right].
    + destruct (decide (k = skrShard r)) as [->|Hne].
      * rewrite lookup_insert_eq, decide_True; [done|by left].
      * rewrite lookup_insert_ne by done. rewrite decide_False; [done|].
        rewrite elem_of_cons. tauto.
Qed.

(** X4. [buildShardIdToTagsMap] returns the empty map for an empty shard
    distribution without querying [config.shards]; otherwise it passes on
    the failure of the query, fails with 7661502 when the query finds no
    document, and passes on the failure of the first document that does
    not parse; when all documents parse, the returned map binds exactly
    the shards of the distribution and the shards whose document lists a
    zone, each to the set of the zones its documents list. *)
Theorem buildShardIdToTagsMap_contents (opCtx : OperationContext) :
  buildShardIdToTagsMap opCtx [] = Ok ∅
  ∧ ∀ ranges : list ShardKeyRange, ranges ≠ [] →
      (∀ e, exhaustiveFindOnConfig opCtx = Err e →
            buildShardIdToTagsMap opCtx ranges = Err e)
      ∧ (exhaustiveFindOnConfig opCtx = Ok [] →
         buildShardIdToTagsMap opCtx ranges
         = Err (UserAssertion 7661502 "Could not find any shard documents"))
      ∧ (∀ shards code reason docs,
           exhaustiveFindOnConfig opCtx
           = Ok (map WellFormed shards ++ Malformed code reason :: docs) →
           buildShardIdToTagsMap opCtx ranges
           = Err (UserAssertion code reason))
      ∧ (∀ shards, shards ≠ [] →
           exhaustiveFindOnConfig opCtx = Ok (map WellFormed shards) →
           ∃ m, buildShardIdToTagsMap opCtx ranges = Ok m
                ∧ (∀ shard, is_Some (m !! shard)
                            ↔ shard ∈ map skrShard ranges
                              ∨ ∃ s, s ∈ shards ∧ getName s = shard
                                     ∧ getTags s ≠ [])
                ∧ ∀ shard zones zone, m !! shard = Some zones →
                    zone ∈ zones
                    ↔ ∃ s, s ∈ shards ∧ getName s = shard
                           ∧ zone ∈ getTags s).
Proof.
  split; [done|]. intros ranges Hranges. unfold buildShardIdToTagsMap.
  destruct ranges as [|r ranges]; [done|]. repeat split.
  - intros e ->. done.
  - intros ->. done.
  - intros shards code reason docs ->. simpl.
    rewrite bool_decide_eq_false_2.
    2:{ intros H. by apply app_eq_nil in H as [_ ?]. }
    simpl. rewrite foldM_app.
    destruct (addShardDocsTags_lookup shards
                (foldl (λ m shard, <[skrShard shard := ∅]> m)
                       (<[skrShard r := ∅]> ∅) ranges))
      as (m' & -> & _).
    done.
  - intros shards Hshards ->. simpl.
    rewrite bool_decide_eq_false_2 by by destruct shards.
    simpl.
    destruct (addShardDocsTags_lookup shards
                (foldl (λ m shard, <[skrShard shard := ∅]> m)
                       (<[skrShard r := ∅]> ∅) ranges))
      as (m' & -> & Hk).
    exists m'. split; [done|].
    assert (Hinit : ∀ k : ShardId,
      foldl (λ (m : gmap ShardId (gset string)) shard, <[skrShard shard := ∅]> m)
            (<[skrShard r := ∅]> ∅) ranges !! k
      = if decide (k ∈ map skrShard (r :: ranges)) then Some ∅ else None).
    { intros k. pose proof (shard_keys_lookup (r :: ranges) ∅ k) as H.
      by rewrite lookup_empty in H. }
    split.
    + intros shard. destruct (Hk shard) as [Hkeys _].
      rewrite Hkeys, Hinit. case_decide as Hin.
      * split; [by left|eauto].
      * split; [intros [[? [=]]|?]; by right|].
        intros [?|?]; [done|by right].
    + intros shard zones zone Hm. destruct (Hk shard) as [_ Hzones].
      specialize (Hzones zone). unfold ShardId in *.
      rewrite Hm, Hinit in Hzones. simpl in Hzones.
      rewrite Hzones. case_decide; simpl; rewrite elem_of_empty; tauto.
Qed.

(** ** What every chunk carries *)

Lemma emits_metadata params v em :
  emits params (v, []) em →
  getTimestamp em.1 = getTimestamp v
  ∧ ∀ c, c ∈ em.2 →
      getCollectionUUID c = collectionUUID params
      ∧ getOnCurrentShardSince c = Some (getTimestamp v)
      ∧ getHistory c = [ {| getValidAfter := getTimestamp v;
                            historyShard := getShard c |} ].
Proof.
  induction 1 as [|em' min max shardId _ [IHv IHc]]; simpl.
  - split; [done|]. intros c Hc. by apply elem_of_nil in Hc.
  - split; [done|]. intros c Hc. apply elem_of_app in Hc as [Hc|Hc].
    + by apply IHc.
    + apply list_elem_of_singleton in Hc as ->. simpl. by rewrite IHv.
Qed.

(** X5. Every chunk that a policy returns carries the collection UUID of
    the parameters, is on its shard since the cluster time of the call, and
    has a history of exactly one entry: that cluster time and the shard of
    the chunk. *)
Theorem createFirstChunks_chunk_metadata (policy : InitialSplitPolicy)
    (opCtx : OperationContext) (shardKeyPattern : ShardKeyPattern)
    (params : SplitPolicyParams) (chunks : ShardCollectionConfig) :
  createFirstChunks policy opCtx shardKeyPattern params = Ok chunks →
  ∀ c, c ∈ chunks →
    getCollectionUUID c = collectionUUID params
    ∧ getOnCurrentShardSince c = Some (clusterTime opCtx)
    ∧ getHistory c = [ {| getValidAfter := clusterTime opCtx;
                          historyShard := getShard c |} ].
Proof.
  intros H. apply createFirstChunks_emits in H as (em & Hem & ->).
  apply emits_metadata in Hem as [_ Hc]. exact Hc.
Qed.

(** ** The chunks of [generateShardCollectionInitialChunks] *)

Lemma cutRange_ordered (lower : BSONObj) (points : list BSONObj)
    (upper : BSONObj) :
  isSet points → bsonLess lower upper →
  (∀ p, p ∈ points → bsonLess lower p ∧ bsonLess p upper) →
  ∀ r, r ∈ cutRange lower points upper → bsonLess (getMin r) (getMax r).
Proof.
  intros Hset. revert lower.
  induction Hset as [|p points Hset IH Hp]; intros lower Hlu Hin r; simpl.
  - intros Hr. by apply list_elem_of_singleton in Hr as ->.
  - intros Hr. apply elem_of_cons in Hr as [->|Hr].
    + simpl. apply Hin. by left.
    + apply (IH p); [|  |done].
      * apply Hin. by left.
      * intros q Hq. split; [|apply Hin; by right].
        rewrite Forall_forall in Hp. by apply Hp.
Qed.

Lemma generateChunk_shard params pat fsp shards k st (i : nat) st' :
  generateChunk params pat fsp shards k st (Z.of_nat i) = Ok st' →
  ∃ c, st'.2 = st.2 ++ [c]
       ∧ shards !! Z.to_nat ((Z.of_nat i / toSizeT k) `mod` vsize shards)
         = Some (getShard c).
Proof.
  unfold generateChunk. intros H.
  bind_inv H as min Emin. bind_inv H as max Emax. bind_inv H as q Eq.
  bind_inv H as r Er. bind_inv H as shard Es. injection H as <-.
  eexists. split; [done|]. simpl.
  apply udiv_Ok_inv in Eq as [Hk ->]. apply umod_Ok_inv in Er as [Hn ->].
  apply vecAt_Ok_inv in Es as [_ Es].
  assert (0 ≤ toSizeT k) by (unfold toSizeT; apply Z.mod_pos_bound; lia).
  rewrite Z.quot_div_nonneg, Z.rem_mod_nonneg in Es; [done| | | |]; unfold vsize in *;
    try lia.
  apply Z.div_pos; lia.
Qed.

Lemma generateChunk_zero_divisor params pat fsp shards k st :
  toSizeT k = 0 →
  generateChunk params pat fsp shards k st 0 = Err UndefinedBehaviour.
Proof.
  intros Hk. unfold generateChunk.
  destruct fsp; simpl; unfold udiv; by rewrite Hk.
Qed.

Lemma generateChunks_shards params pat fsp shards k (count start : nat) st st' :
  foldM (generateChunk params pat fsp shards k) st
        (map Z.of_nat (seq start count)) = Ok st' →
  ∃ new, st'.2 = st.2 ++ new ∧ length new = count
         ∧ ∀ (i : nat) c, new !! i = Some c →
             shards !! Z.to_nat ((Z.of_nat (start + i) / toSizeT k)
                                 `mod` vsize shards)
             = Some (getShard c).
Proof.
  revert start st. induction count as [|count IH]; intros start st; simpl.
  - intros [= <-]. exists []. rewrite app_nil_r. done.
  - intros H. bind_inv H as st1 Estep.
    apply generateChunk_shard in Estep as (c & Hst1 & Hc).
    apply IH in H as (new & Hst' & Hlen & Hnew).
    exists (c :: new). rewrite Hst', Hst1, <- app_assoc. split; [done|].
    split; [simpl; by rewrite Hlen|].
    intros [|i] d; simpl.
    + intros [= <-]. by rewrite Nat.add_0_r.
    + intros Hd. apply Hnew in Hd.
      by replace (start + S i)%nat with (S start + i)%nat by lia.
Qed.

(** X6. [generateShardCollectionInitialChunks] fails the invariant when
    there is no shard, and divides by zero when there is a shard and
    [numContiguousChunksPerShard] is zero.  The chunks it returns are the
    ranges that the distinct split points, in ascending order, cut the key
    space into; chunk [i] is on the shard at position
    [(i / numContiguousChunksPerShard) mod |allShardIds|]; and when every
    split point lies strictly between [globalMin] and [globalMax], the
    min of every chunk is below its max. *)
Theorem generateShardCollectionInitialChunks_placements
    (opCtx : OperationContext) (params : SplitPolicyParams)
    (shardKeyPattern : ShardKeyPattern) (validAfter : Timestamp)
    (splitPoints : list BSONObj) (allShardIds : list ShardId)
    (numContiguousChunksPerShard : Z) :
  (allShardIds = [] →
   generateShardCollectionInitialChunks opCtx params shardKeyPattern
     validAfter splitPoints allShardIds numContiguousChunksPerShard
   = Err InvariantFailure)
  ∧ (allShardIds ≠ [] → toSizeT numContiguousChunksPerShard = 0 →
     generateShardCollectionInitialChunks opCtx params shardKeyPattern
       validAfter splitPoints allShardIds numContiguousChunksPerShard
     = Err UndefinedBehaviour)
  ∧ ∀ chunks,
      generateShardCollectionInitialChunks opCtx params shardKeyPattern
        validAfter splitPoints allShardIds numContiguousChunksPerShard
      = Ok chunks →
      map getRange chunks
      = cutRange (globalMin shardKeyPattern) (setInsertAll splitPoints [])
          (globalMax shardKeyPattern)
      ∧ (∀ (i : nat) c, chunks !! i = Some c →
           allShardIds !! Z.to_nat
             ((Z.of_nat i / toSizeT numContiguousChunksPerShard)
              `mod` vsize allShardIds)
           = Some (getShard c))
      ∧ (shardKeyPattern ≠ [] →
         (∀ p, p ∈ splitPoints →
               bsonLess (globalMin shardKeyPattern) p
               ∧ bsonLess p (globalMax shardKeyPattern)) →
         ∀ c, c ∈ chunks →
           bsonLess (getMin (getRange c)) (getMax (getRange c))).
Proof.
  unfold generateShardCollectionInitialChunks. split; [|split].
  - intros ->. done.
  - intros Hs Hk. rewrite bool_decide_eq_false_2 by done.
    cbn [invariant negb mbind Result_bind seq map foldM].
    change (Z.of_nat 0) with 0.
    by rewrite generateChunk_zero_divisor.
  - intros chunks H. bind_inv H as ? Einv. bind_inv H as st Eloop.
    injection H as <-.
    pose proof (generateChunks_ranges _ _ _ _ _ _ _ _ _ Eloop) as Hranges.
    simpl in Hranges.
    rewrite drop_0, firstn_all2 in Hranges
      by (rewrite TagsDriver.cutRange_length; lia).
    split; [exact Hranges|]. split.
    + intros i c Hi.
      apply generateChunks_shards in Eloop as (new & Hst & _ & Hnew).
      simpl in Hst. rewrite Hst in Hi. by apply Hnew in Hi.
    + intros Hpat Hin c Hc.
      apply (cutRange_ordered (globalMin shardKeyPattern)
               (setInsertAll splitPoints []) (globalMax shardKeyPattern)).
      * apply setInsertAll_isSet. constructor.
      * destruct shardKeyPattern as [|e pat]; [done|]. reflexivity.
      * intros p Hp.
        apply setInsertAll_elements in Hp as [Hp|Hp]; [by apply Hin|].
        by apply elem_of_nil in Hp.
      * rewrite <- Hranges. apply list_elem_of_fmap. eauto.
Qed.

(** ** The chunks of [SamplingBasedSplitPolicy] *)

Module SamplingChunks.
Import SamplingBasedSplitPolicy.

Lemma appendFromSample_elements samples nRemaining splitPoints :
  isSet splitPoints →
  isSet (appendFromSample samples nRemaining splitPoints).1
  ∧ (∀ p, p ∈ splitPoints → p ∈ (appendFromSample samples nRemaining splitPoints).1)
  ∧ (∀ p, p ∈ (appendFromSample samples nRemaining splitPoints).1 →
          p ∈ splitPoints ∨ p ∈ samples)
  ∧ ∃ taken, samples
             = taken ++ (appendFromSample samples nRemaining splitPoints).2.
Proof.
  revert nRemaining splitPoints.
  induction samples as [|key rest IH]; intros n sp Hsp; cbn [appendFromSample].
  - simpl. split; [done|]. split; [done|]. split; [by left|]. by exists [].
  - destruct (0 <? n).
    + destruct (IH (if (setInsert key sp).2 then n - 1 else n) (setInsert key sp).1)
        as (Hset & Hsub & Hsup & taken & Htaken); [by apply setInsert_isSet|].
      split; [done|]. split; [|split].
      * intros p Hp. apply Hsub, setInsert_elements. by right.
      * intros p Hp. apply Hsup in Hp as [Hp|Hp].
        -- apply setInsert_elements in Hp as [->|Hp]; [right; left|by left].
        -- right. by right.
      * exists (key :: taken). simpl. by rewrite <- Htaken.
    + simpl. split; [done|]. split; [done|]. split; [by left|]. by exists [key].
Qed.

(** What [createFirstSplitPoints] returns, for an [int] [numInitialChunks]
    above zero. *)
Lemma createFirstSplitPoints_Ok_inv self shardKey splitPoints self' :
  0 < _numInitialChunks self ≤ INT_MAX →
  createFirstSplitPoints self shardKey = Ok (splitPoints, self') →
  let seeds := extractSplitPointsFromZones shardKey
                 (map (extendZone shardKey) <$> _zones self) in
  isSet splitPoints
  ∧ vsize splitPoints = Z.max (_numInitialChunks self - 1) (vsize seeds)
  ∧ (∀ p, p ∈ seeds → p ∈ splitPoints)
  ∧ (∀ p, p ∈ splitPoints → p ∈ seeds ∨ p ∈ _samples self)
  ∧ _numInitialChunks self' = _numInitialChunks self
  ∧ _zones self' = map (extendZone shardKey) <$> _zones self
  ∧ ∃ taken, _samples self = taken ++ _samples self'.
Proof.
  intros Hn. unfold createFirstSplitPoints, INT_MAX in *.
  cbn [_numInitialChunks _zones _samples].
  set (n := _numInitialChunks self) in *.
  set (seeds := extractSplitPointsFromZones shardKey _).
  assert (isSet seeds) as Hseeds by apply extractSplitPointsFromZones_isSet.
  rewrite (SamplingSplitPoints.toSizeT_small (n - 1)) by lia.
  destruct (vsize seeds <? n - 1) eqn:E.
  - apply Z.ltb_lt in E.
    rewrite (SamplingSplitPoints.toSizeT_small (n - vsize seeds - 1))
      by (unfold vsize in *; lia).
    rewrite SamplingSplitPoints.toInt_small by (unfold vsize in *; lia).
    unfold _appendSplitPointsFromSample. cbn [_numInitialChunks _zones _samples].
    fold n. rewrite (SamplingSplitPoints.toSizeT_small (n - 1)) by lia.
    intros H. bind_inv H as ? Hcheck. injection H as <- <-.
    apply uassert_Ok_inv, Z.leb_le in Hcheck.
    destruct (appendFromSample_elements (_samples self) (n - vsize seeds - 1) seeds)
      as (Hset & Hsub & Hsup & Htaken); [done|].
    destruct (SamplingSplitPoints.appendFromSample_spec (_samples self)
                (n - vsize seeds - 1) seeds) as [Hlen Hall]; [lia|].
    cbn zeta in Hlen, Hall. cbn [fst snd _numInitialChunks _zones _samples] in *.
    split; [done|]. split; [|done].
    destruct (decide (vsize seeds + (n - vsize seeds - 1)
                      ≤ vsize (setInsertAll (_samples self) seeds))) as [Hle|Hgt].
    + rewrite Hlen by done. lia.
    + rewrite Hall in Hcheck by lia. lia.
  - apply Z.ltb_ge in E. cbn [_numInitialChunks]. fold n.
    rewrite (SamplingSplitPoints.toSizeT_small (n - 1)) by lia.
    intros H. bind_inv H as ? Hcheck. injection H as <- <-.
    cbn [_numInitialChunks _zones _samples].
    split; [done|]. split; [lia|]. split; [done|]. split; [by left|].
    split; [done|]. split; [done|]. by exists [].
Qed.

Lemma addRangesToZone_Ok_inv (zones : list TagsType) (zi zi' : ZoneInfo) :
  foldM (λ zi zone, addRangeToZone zi (zoneRangeOf zone)) zi zones = Ok zi' →
  zi' = zi ++ map zoneRangeOf zones.
Proof.
  revert zi. induction zones as [|zone zones IH]; intros zi; simpl.
  - intros [= <-]. by rewrite app_nil_r.
  - intros H. bind_inv H as zi1 Ezi. apply IH in H as ->.
    unfold addRangeToZone in Ezi. destruct (existsb _ zi); [done|].
    injection Ezi as <-. by rewrite <- app_assoc.
Qed.

Lemma selectBestShard_Ok_inv chunkMap zoneInfo zoneToShards chunkRange best :
  selectBestShard chunkMap zoneInfo zoneToShards chunkRange = Ok best →
  ∃ shards n,
    zoneToShards !! getZoneForChunk zoneInfo chunkRange = Some shards
    ∧ best ∈ shards ∧ chunkMap !! best = Some n
    ∧ ∀ s m, s ∈ shards → chunkMap !! s = Some m → n ≤ m.
Proof.
  unfold selectBestShard. intros H.
  destruct (zoneToShards !! _) as [shards|]; [|done].
  bind_inv H as ? Hne. bind_inv H as b Escan.
  destruct b as [[b n]|]; [|done]. injection H as <-.
  apply selectBestShard_scan in Escan as (i & Hi & Hb & Hmin). simpl in *.
  exists shards, n. split; [done|]. split; [by eapply list_elem_of_lookup_2|].
  split; [done|]. intros s m Hs Hm.
  apply list_elem_of_lookup in Hs as [j Hj]. by destruct (Hmin j s m Hj Hm).
Qed.

End SamplingChunks.

(** X7. For an [int] [numInitialChunks] above zero, the chunks of
    [SamplingBasedSplitPolicy::createFirstChunks] are the ranges that its
    split points cut the key space into.  The split points are in strictly
    ascending order, hold every boundary of the (extended) zones other
    than [globalMin] and [globalMax], and beyond these only samples; the
    chunks are [numInitialChunks], or one more than the zone boundaries
    when that is more; and when all zone boundaries and samples lie
    strictly between [globalMin] and [globalMax], the min of every chunk is
    below its max. *)
Theorem SamplingBased_createFirstChunks_ranges
    (self : SamplingBasedSplitPolicy.t) (opCtx : OperationContext)
    (shardKey : ShardKeyPattern) (params : SplitPolicyParams)
    (chunks : ShardCollectionConfig) :
  0 < SamplingBasedSplitPolicy._numInitialChunks self ≤ INT_MAX →
  SamplingBasedSplitPolicy.createFirstChunks self opCtx shardKey params
  = Ok chunks →
  let seeds :=
    extractSplitPointsFromZones shardKey
      (map (SamplingBasedSplitPolicy.extendZone shardKey)
         <$> SamplingBasedSplitPolicy._zones self) in
  ∃ splitPoints,
    map getRange chunks
    = cutRange (globalMin shardKey) splitPoints (globalMax shardKey)
    ∧ StronglySorted (λ a b, woCompare a b = Lt) splitPoints
    ∧ (∀ p, p ∈ seeds → p ∈ splitPoints)
    ∧ (∀ p, p ∈ splitPoints →
            p ∈ seeds ∨ p ∈ SamplingBasedSplitPolicy._samples self)
    ∧ Z.of_nat (length chunks)
      = Z.max (SamplingBasedSplitPolicy._numInitialChunks self) (vsize seeds + 1)
    ∧ (shardKey ≠ [] →
       (∀ p, p ∈ seeds ∨ p ∈ SamplingBasedSplitPolicy._samples self →
             bsonLess (globalMin shardKey) p ∧ bsonLess p (globalMax shardKey)) →
       ∀ c, c ∈ chunks → bsonLess (getMin (getRange c)) (getMax (getRange c))).
Proof.
  intros Hn H. cbn zeta.
  unfold SamplingBasedSplitPolicy.createFirstChunks in H.
  bind_inv H as [points self'] Epoints.
  bind_inv H as zm Ezm. bind_inv H as zi Ezi. bind_inv H as st Eloop.
  injection H as <-.
  apply SamplingTiling.selectShardAndAppendChunk_ranges in Eloop.
  simpl in Eloop.
  apply SamplingChunks.createFirstSplitPoints_Ok_inv in Epoints
    as (Hset & Hsize & Hsub & Hsup & _); [|done].
  exists points. split; [done|]. split; [done|]. split; [done|].
  split; [done|]. split.
  - rewrite <- (length_map getRange), Eloop, TagsDriver.cutRange_length.
    unfold vsize in *. lia.
  - intros Hpat Hin c Hc.
    apply (cutRange_ordered (globalMin shardKey) points (globalMax shardKey)).
    + done.
    + destruct shardKey as [|e pat]; [done|]. reflexivity.
    + intros p Hp. by apply Hin, Hsup.
    + rewrite <- Eloop. apply list_elem_of_fmap. eauto.
Qed.

Lemma selectShardAndAppendChunk_Ok_inv params zi zm st chunkMax st' :
  SamplingBasedSplitPolicy.selectShardAndAppendChunk params zi zm st chunkMax
  = Ok st' →
  ∃ best shards n c,
    zm !! getZoneForChunk zi c = Some shards
    ∧ best ∈ shards
    ∧ SamplingBasedSplitPolicy.chunkDistribution st !! best = Some n
    ∧ (∀ s m, s ∈ shards →
         SamplingBasedSplitPolicy.chunkDistribution st !! s = Some m → n ≤ m)
    ∧ SamplingBasedSplitPolicy.chunkDistribution st'
      = <[best := n + 1]> (SamplingBasedSplitPolicy.chunkDistribution st)
    ∧ ∃ chunk, (SamplingBasedSplitPolicy.emitter st').2
               = (SamplingBasedSplitPolicy.emitter st).2 ++ [chunk]
               ∧ getRange chunk = c ∧ getShard chunk = best.
Proof.
  unfold SamplingBasedSplitPolicy.selectShardAndAppendChunk. intros H.
  bind_inv H as best Ebest. injection H as <-.
  apply SamplingChunks.selectBestShard_Ok_inv in Ebest
    as (shards & n & Hzone & Hin & Hn & Hmin).
  exists best, shards, n,
    {| getMin := SamplingBasedSplitPolicy.lastChunkMax st; getMax := chunkMax |}.
  split; [exact Hzone|]. split; [done|].
  split; [done|]. split; [done|]. simpl. split; [by rewrite Hn|].
  eexists. split; [done|]. done.
Qed.

(** X8. Every chunk of [SamplingBasedSplitPolicy::createFirstChunks] is on
    a shard of the zone that contains its range: a shard that
    [buildTagsToShardIdsMap] lists for the zone, or, for a range in no
    zone, a shard of the inventory (unless the map binds the empty zone
    name itself). *)
Theorem SamplingBased_createFirstChunks_zones
    (self : SamplingBasedSplitPolicy.t) (opCtx : OperationContext)
    (shardKey : ShardKeyPattern) (params : SplitPolicyParams)
    (chunks : ShardCollectionConfig) :
  SamplingBasedSplitPolicy.createFirstChunks self opCtx shardKey params
  = Ok chunks →
  let zones :=
    map (SamplingBasedSplitPolicy.extendZone shardKey)
      <$> SamplingBasedSplitPolicy._zones self in
  let zoneInfo :=
    map SamplingBasedSplitPolicy.zoneRangeOf (default [] zones) in
  ∃ zoneToShards : gmap string (list ShardId),
    match zones with
    | Some zs => buildTagsToShardIdsMap opCtx zs = Ok zoneToShards
    | None => zoneToShards = ∅
    end
    ∧ ∀ c, c ∈ chunks →
        ∃ shards,
          SamplingBasedSplitPolicy.emplace EmptyString
            (getAllShardIdsShuffled opCtx) zoneToShards
          !! getZoneForChunk zoneInfo (getRange c) = Some shards
          ∧ getShard c ∈ shards.
Proof.
  intros H. cbn zeta.
  unfold SamplingBasedSplitPolicy.createFirstChunks in H.
  bind_inv H as [points self'] Epoints.
  bind_inv H as zm Ezm. bind_inv H as zi Ezi. bind_inv H as st Eloop.
  injection H as <-.
  assert (SamplingBasedSplitPolicy._zones self'
          = map (SamplingBasedSplitPolicy.extendZone shardKey)
              <$> SamplingBasedSplitPolicy._zones self) as Hzones.
  { unfold SamplingBasedSplitPolicy.createFirstSplitPoints in Epoints.
    destruct (_ <? _) in Epoints; bind_inv Epoints as ? Hc;
      by injection Epoints as <- <-. }
  rewrite Hzones in Ezm, Ezi.
  apply SamplingChunks.addRangesToZone_Ok_inv in Ezi. simpl in Ezi. subst zi.
  exists zm. split.
  { destruct (SamplingBasedSplitPolicy._zones self); simpl in *;
      [done|by injection Ezm]. }
  eapply (foldM_invariant
            (λ st, ∀ c, c ∈ (SamplingBasedSplitPolicy.emitter st).2 →
               ∃ shards,
                 SamplingBasedSplitPolicy.emplace EmptyString
                   (getAllShardIdsShuffled opCtx) zm
                 !! getZoneForChunk
                      (map SamplingBasedSplitPolicy.zoneRangeOf
                         (default []
                            (map (SamplingBasedSplitPolicy.extendZone shardKey)
                               <$> SamplingBasedSplitPolicy._zones self)))
                      (getRange c) = Some shards
                 ∧ getShard c ∈ shards)); [| |exact Eloop].
  - intros c Hc. by apply elem_of_nil in Hc.
  - intros st0 x st1 Hinv _ Hstep c Hc.
    apply selectShardAndAppendChunk_Ok_inv in Hstep
      as (best & shards & n & r & Hzone & Hin & _ & _ & _ & chunk & Hem & <- & <-).
    rewrite Hem in Hc. apply elem_of_app in Hc as [Hc|Hc]; [by apply Hinv|].
    apply list_elem_of_singleton in Hc as ->. eauto.
Qed.

Lemma chunksOn_snoc shard chunks c :
  chunksOn shard (chunks ++ [c])
  = (chunksOn shard chunks + if decide (getShard c = shard) then 1 else 0)%nat.
Proof.
  unfold chunksOn. rewrite filter_app, length_app. f_equal.
  rewrite filter_cons, filter_nil. by case_decide.
Qed.

Lemma emplaceAll_lookup (shards : list ShardId) (m : gmap ShardId Z) (s : ShardId) :
  foldl (λ m shard, SamplingBasedSplitPolicy.emplace shard 0 m) m shards !! s
  = match m !! s with
    | Some n => Some n
    | None => if decide (s ∈ shards) then Some 0 else None
    end.
Proof.
  unfold ShardId in *.
  revert m. induction shards as [|shard shards IH]; intros m; simpl.
  - by destruct (m !! s).
  - rewrite IH. unfold SamplingBasedSplitPolicy.emplace.
    destruct (decide (s = shard)) as [->|Hne].
    + destruct (m !! shard) as [n|] eqn:E; [by rewrite E|].
      rewrite lookup_insert_eq. rewrite decide_True; [done|by left].
    + assert ((match m !! shard with Some _ => m | None => <[shard:=0]> m end) !! s
              = m !! s) as ->.
      { destruct (m !! shard); [done|]. by rewrite lookup_insert_ne. }
      destruct (m !! s); [done|].
      destruct (decide (s ∈ shards)) as [Hin|Hn].
      * rewrite decide_True; [done|by right].
      * rewrite decide_False; [done|]. rewrite elem_of_cons. tauto.
Qed.

(** X9. Without zones, [SamplingBasedSplitPolicy::createFirstChunks]
    places every chunk on a shard of the shuffled inventory, the list that
    [getAllShardIdsShuffled] returns, and keeps its shards level: none of
    them gets more than one chunk more than another.  When the shuffle
    permutes the shard ids of the registry, as [std::shuffle] does, the
    same holds of the shards of the registry. *)
Theorem SamplingBased_createFirstChunks_balanced
    (self : SamplingBasedSplitPolicy.t) (opCtx : OperationContext)
    (shardKey : ShardKeyPattern) (params : SplitPolicyParams)
    (chunks : ShardCollectionConfig) :
  SamplingBasedSplitPolicy._zones self = None →
  SamplingBasedSplitPolicy.createFirstChunks self opCtx shardKey params
  = Ok chunks →
  (∀ c, c ∈ chunks → getShard c ∈ getAllShardIdsShuffled opCtx)
  ∧ (∀ s t, s ∈ getAllShardIdsShuffled opCtx →
            t ∈ getAllShardIdsShuffled opCtx →
            (chunksOn s chunks ≤ chunksOn t chunks + 1)%nat)
  ∧ (Permutation (getAllShardIdsShuffled opCtx) (getAllShardIds opCtx) →
     (∀ c, c ∈ chunks → getShard c ∈ getAllShardIds opCtx)
     ∧ ∀ s t, s ∈ getAllShardIds opCtx → t ∈ getAllShardIds opCtx →
              (chunksOn s chunks ≤ chunksOn t chunks + 1)%nat).
Proof.
  intros Hnone H.
  unfold SamplingBasedSplitPolicy.createFirstChunks in H.
  bind_inv H as [points self'] Epoints.
  bind_inv H as zm Ezm. bind_inv H as zi Ezi. bind_inv H as st Eloop.
  injection H as <-.
  assert (SamplingBasedSplitPolicy._zones self' = None) as Hzones.
  { unfold SamplingBasedSplitPolicy.createFirstSplitPoints in Epoints.
    rewrite Hnone in Epoints.
    destruct (_ <? _) in Epoints; bind_inv Epoints as ? Hc;
      by injection Epoints as <- <-. }
  rewrite Hzones in Ezm, Ezi. simpl in Ezm, Ezi.
  injection Ezm as <-. injection Ezi as <-.
  set (all := getAllShardIdsShuffled opCtx) in *.
  assert (Hzm : ∀ r, SamplingBasedSplitPolicy.emplace EmptyString all ∅
                     !! getZoneForChunk [] r = Some all).
  { intros r. unfold SamplingBasedSplitPolicy.emplace.
    rewrite lookup_empty. apply lookup_insert_eq. }
  set (Inv := λ st : SamplingBasedSplitPolicy.LoopState,
    (∀ c, c ∈ (SamplingBasedSplitPolicy.emitter st).2 → getShard c ∈ all)
    ∧ (∀ s, s ∈ all →
         SamplingBasedSplitPolicy.chunkDistribution st !! s
         = Some (Z.of_nat (chunksOn s (SamplingBasedSplitPolicy.emitter st).2)))
    ∧ ∀ s t, s ∈ all → t ∈ all →
        (chunksOn s (SamplingBasedSplitPolicy.emitter st).2
         ≤ chunksOn t (SamplingBasedSplitPolicy.emitter st).2 + 1)%nat).
  assert (Inv st) as (Hin & _ & Hbal).
  2:{ split; [done|]. split; [done|]. intros Hperm. split.
      - intros c Hc. rewrite <- Hperm. by apply Hin.
      - intros s t Hs Ht. rewrite <- Hperm in Hs, Ht. by apply Hbal. }
  eapply (foldM_invariant Inv); [| |exact Eloop].
  - split; [|split]; simpl.
    + intros c Hc. by apply elem_of_nil in Hc.
    + intros s Hs. rewrite emplaceAll_lookup, lookup_empty.
      by rewrite decide_True.
    + intros s t _ _. unfold chunksOn. simpl. lia.
  - intros st0 x st1 (Hin & Hcount & Hbal) _ Hstep.
    apply selectShardAndAppendChunk_Ok_inv in Hstep
      as (best & shards & n & r & Hzone & Hbest & Hn & Hmin & Hcd & chunk
          & Hem & _ & Hshard).
    rewrite Hzm in Hzone. injection Hzone as <-.
    rewrite Hcount in Hn by done. injection Hn as <-.
    split; [|split].
    + intros c Hc. rewrite Hem in Hc.
      apply elem_of_app in Hc as [Hc|Hc]; [by apply Hin|].
      apply list_elem_of_singleton in Hc as ->. by rewrite Hshard.
    + intros s Hs. rewrite Hcd, Hem, chunksOn_snoc, Hshard.
      destruct (decide (best = s)) as [->|Hne].
      * rewrite lookup_insert_eq. f_equal. lia.
      * rewrite lookup_insert_ne by done. rewrite Hcount by done.
        f_equal. lia.
    + intros s t Hs Ht. rewrite Hem, !chunksOn_snoc, Hshard.
      pose proof (Hmin t _ Ht (Hcount t Ht)) as Hle.
      pose proof (Hbal s t Hs Ht).
      destruct (decide (best = s)) as [Es|Hs'];
        destruct (decide (best = t)) as [Et|Ht']; subst; lia.
Qed.

(** ** The chunks of [ShardDistributionSplitPolicy] *)

Module DistributionChunks.
Import ShardDistributionSplitPolicy.

Lemma appendChunk_placement params min max shard em :
  map placement (appendChunk params min max shard em).2
  = map placement em.2 ++ [({| getMin := min; getMax := max |}, shard)].
Proof. unfold appendChunk. simpl. by rewrite map_app. Qed.

(** Over a continuous distribution that ends at [globalMax], the call for
    the split point [globalMax] turns every shard range into a chunk. *)
Lemma appendChunksFrom_all pat params ranges placements idx em :
  Forall2 (λ r p, shardRange pat r = Some p) ranges placements →
  linked (lastMaxOf pat em.2) (map fst placements) (globalMax pat) →
  (∀ p, p ∈ placements → bsonLess (getMin p.1) (globalMax pat)) →
  ∃ em', appendChunksFrom ranges params (globalMax pat) pat idx em
         = Ok (idx + vsize ranges, em')
         ∧ map placement em'.2 = map placement em.2 ++ placements.
Proof.
  intros Hall. revert idx em.
  induction Hall as [|r p ranges placements Hr Hall IH]; intros idx em Hlinked Hlow.
  - exists em. simpl. rewrite app_nil_r. split; [|done]. do 2 f_equal.
    unfold vsize. simpl. lia.
  - simpl in Hlinked. destruct Hlinked as [Hmin Hlinked].
    unfold shardRange in Hr.
    destruct (skrMin r) as [rmin|] eqn:Emin; [|done].
    destruct (skrMax r) as [rmax|] eqn:Emax; [|done].
    injection Hr as <-. simpl in *.
    rewrite Emin, Emax. simpl.
    assert (bsonLt (extendRangeBound pat rmin false) (globalMax pat) = true) as ->.
    { unfold bsonLt.
      pose proof (Hlow ({| getMin := extendRangeBound pat rmin false;
                           getMax := extendRangeBound pat rmax false |}, skrShard r))
        as Hr.
      unfold bsonLess in Hr. simpl in Hr. rewrite Hr; [done|by left]. }
    assert (bsonLe (extendRangeBound pat rmax false) (globalMax pat) = true) as ->.
    { unfold bsonLe. destruct placements as [|q placements]; simpl in Hlinked.
      - rewrite Hlinked. by rewrite (cmp_refl woCompare).
      - destruct Hlinked as [Hq _]. rewrite <- Hq.
        pose proof (Hlow q) as Hr. unfold bsonLess in Hr.
        rewrite Hr; [done|right; left]. }
    destruct (IH (idx + 1)
                (appendChunk params (lastMaxOf pat em.2)
                   (extendRangeBound pat rmax false) (skrShard r) em))
      as (em' & Hem' & Hplaced).
    + by rewrite DistributionTiling.lastMaxOf_append.
    + intros q Hq. apply Hlow. by right.
    + exists em'. split.
      * rewrite Hem'. do 2 f_equal. unfold vsize. simpl. lia.
      * rewrite Hplaced, appendChunk_placement, <- app_assoc. simpl.
        by rewrite <- Hmin.
Qed.

Lemma addShardDocTags_wellFormed (docs : list ShardDoc)
    (m m' : gmap ShardId (gset string)) :
  foldM addShardDocTags m docs = Ok m' →
  ∃ shards, docs = map WellFormed shards.
Proof.
  revert m. induction docs as [|doc docs IH]; intros m; simpl.
  - intros _. by exists [].
  - intros H. bind_inv H as m1 Edoc. apply IH in H as [shards ->].
    destruct doc as [s|code reason]; [|done]. by exists (s :: shards).
Qed.

Lemma buildShardIdToTagsMap_Ok_inv opCtx (ranges : list ShardKeyRange)
    (m : gmap ShardId (gset string)) :
  ranges ≠ [] →
  buildShardIdToTagsMap opCtx ranges = Ok m →
  ∃ shards,
    exhaustiveFindOnConfig opCtx = Ok (map WellFormed shards)
    ∧ ∀ shard zones zone, m !! shard = Some zones → zone ∈ zones →
        ∃ s, s ∈ shards ∧ getName s = shard ∧ zone ∈ getTags s.
Proof.
  unfold buildShardIdToTagsMap. destruct ranges as [|r ranges]; [done|].
  intros _ H. bind_inv H as docs Edocs. bind_inv H as ? Hdocs.
  destruct (addShardDocTags_wellFormed _ _ _ H) as [shards ->].
  exists shards. split; [done|].
  destruct (addShardDocsTags_lookup shards
              (foldl (λ m shard, <[skrShard shard := ∅]> m) ∅ (r :: ranges)))
    as (m' & Hm' & Hk).
  rewrite Hm' in H. injection H as ->.
  intros shard zones zone Hm Hz. destruct (Hk shard) as [_ Hzones].
  specialize (Hzones zone).
  pose proof (shard_keys_lookup (r :: ranges) ∅ shard) as Hinit.
  rewrite lookup_empty in Hinit.
  unfold ShardId in *. rewrite Hm, Hinit in Hzones.
  apply Hzones in Hz as [Hz|Hz]; [|done].
  case_decide; simpl in Hz; by apply elem_of_empty in Hz.
Qed.

End DistributionChunks.

(** X10. [ShardDistributionSplitPolicy::make] refuses an empty shard
    distribution with 7661501, and [createFirstChunks] refuses a
    distribution whose first range has no min with InvalidOptions.
    Without zones, for a distribution whose ranges have both bounds, are
    continuous from [globalMin] to [globalMax] and each start below
    [globalMax], [createFirstChunks] returns exactly one chunk per shard
    range, in order, with the (extended) bounds and the shard of that
    range. *)
Theorem ShardDistribution_createFirstChunks_ranges (opCtx : OperationContext)
    (shardKeyPattern : ShardKeyPattern) (params : SplitPolicyParams) :
  (∀ zones,
     ShardDistributionSplitPolicy.make [] zones
     = Err (UserAssertion 7661501 "ShardDistribution should not be empty"))
  ∧ (∀ self first rest,
       ShardDistributionSplitPolicy._shardDistribution self = first :: rest →
       skrMin first = None →
       ShardDistributionSplitPolicy.createFirstChunks self opCtx
         shardKeyPattern params
       = Err (UserAssertion InvalidOptions
                "ShardDistribution without min/max is not supported."))
  ∧ ∀ self placements,
      ShardDistributionSplitPolicy._zones self = None →
      ShardDistributionSplitPolicy._shardDistribution self ≠ [] →
      Forall2 (λ r p, shardRange shardKeyPattern r = Some p)
        (ShardDistributionSplitPolicy._shardDistribution self) placements →
      linked (globalMin shardKeyPattern) (map fst placements)
        (globalMax shardKeyPattern) →
      (∀ p, p ∈ placements →
            bsonLess (getMin p.1) (globalMax shardKeyPattern)) →
      ∃ chunks,
        ShardDistributionSplitPolicy.createFirstChunks self opCtx
          shardKeyPattern params = Ok chunks
        ∧ map placement chunks = placements.
Proof.
  split; [done|]. split.
  - intros self first rest Hdist Hmin.
    unfold ShardDistributionSplitPolicy.createFirstChunks.
    cbn [ShardDistributionSplitPolicy._shardDistribution]. rewrite Hdist.
    simpl. by rewrite Hmin.
  - intros self placements Hzones Hne Hall Hlinked Hlow.
    unfold ShardDistributionSplitPolicy.createFirstChunks.
    cbn [ShardDistributionSplitPolicy._shardDistribution
         ShardDistributionSplitPolicy._zones].
    rewrite Hzones.
    destruct (ShardDistributionSplitPolicy._shardDistribution self)
      as [|first rest] eqn:Edist; [done|].
    assert (∃ m, skrMin first = Some m) as [m Hm].
    { inversion Hall as [|? p ? ? Hp]; subst. unfold shardRange in Hp.
      destruct (skrMin first); [eauto|done]. }
    cbn [fmap option_fmap option_map extractSplitPointsFromZones app].
    change (vecAt (first :: rest) 0) with (Ok first).
    cbn [mbind Result_bind]. rewrite Hm. cbn [uassert mbind Result_bind foldM].
    unfold ShardDistributionSplitPolicy._appendChunks.
    cbn [ShardDistributionSplitPolicy._shardDistribution fst snd].
    change (drop (Z.to_nat 0) (first :: rest)) with (first :: rest).
    destruct (DistributionChunks.appendChunksFrom_all shardKeyPattern params
                (first :: rest) placements 0
                (initialVersion opCtx (clusterTime opCtx), []))
      as (em' & -> & Hplaced); [done|done|done|].
    cbn [mbind Result_bind]. eexists. split; [done|]. exact Hplaced.
Qed.

(** X11. When zones are given and [ShardDistributionSplitPolicy::
    createFirstChunks] returns, every shard document of [config.shards]
    parses, and every chunk is on a shard whose document lists the zone
    that contains the range of the chunk (the zone of the empty name for a
    range in no zone). *)
Theorem ShardDistribution_createFirstChunks_zones
    (self : ShardDistributionSplitPolicy.t) (opCtx : OperationContext)
    (shardKeyPattern : ShardKeyPattern) (params : SplitPolicyParams)
    (zones : list TagsType) (chunks : ShardCollectionConfig) :
  ShardDistributionSplitPolicy._zones self = Some zones →
  ShardDistributionSplitPolicy.createFirstChunks self opCtx shardKeyPattern
    params = Ok chunks →
  let zoneInfo :=
    map SamplingBasedSplitPolicy.zoneRangeOf
      (map (SamplingBasedSplitPolicy.extendZone shardKeyPattern) zones) in
  ∃ shards,
    exhaustiveFindOnConfig opCtx = Ok (map WellFormed shards)
    ∧ ∀ c, c ∈ chunks →
        ∃ s, s ∈ shards ∧ getName s = getShard c
             ∧ getZoneForChunk zoneInfo (getRange c) ∈ getTags s.
Proof.
  intros Hzones H. cbn zeta.
  unfold ShardDistributionSplitPolicy.createFirstChunks in H.
  rewrite Hzones in H. cbn [fmap option_fmap option_map] in H.
  bind_inv H as first Efirst. bind_inv H as ? Hmin. bind_inv H as st Eloop.
  bind_inv H as ? Hcheck. injection H as <-.
  unfold ShardDistributionSplitPolicy._checkShardsMatchZones in Hcheck.
  cbn [ShardDistributionSplitPolicy._shardDistribution] in Hcheck.
  bind_inv Hcheck as shardIdToTags Emap. bind_inv Hcheck as zi Ezi.
  apply SamplingChunks.addRangesToZone_Ok_inv in Ezi. simpl in Ezi. subst zi.
  apply DistributionChunks.buildShardIdToTagsMap_Ok_inv in Emap
    as (shards & Hdocs & Hmap).
  2:{ intros E. rewrite E in Efirst. done. }
  exists shards. split; [done|].
  assert (∀ c, c ∈ st.2.2 →
            match shardIdToTags !! getShard c with
            | Some tags =>
                bool_decide
                  (getZoneForChunk
                     (map SamplingBasedSplitPolicy.zoneRangeOf
                        (map (SamplingBasedSplitPolicy.extendZone shardKeyPattern)
                           zones)) (getRange c) ∈ tags)
            | None => false
            end = true) as Hchunks.
  { revert Hcheck. generalize tt at 1. generalize st.2.2 as l.
    induction l as [|d l IH]; intros u Hl c Hc; [by apply elem_of_nil in Hc|].
    simpl in Hl. bind_inv Hl as ? Hd. apply uassert_Ok_inv in Hd.
    apply elem_of_cons in Hc as [->|Hc]; [done|]. by eapply IH. }
  intros c Hc. specialize (Hchunks c Hc).
  destruct (shardIdToTags !! getShard c) as [tags|] eqn:Etags; [|done].
  apply bool_decide_eq_true in Hchunks.
  by eapply Hmap.
Qed.

(** ** [PresplitHashedZonesSplitPolicy::_validate] *)

Module PresplitValidation.
Import AbstractTagsBasedSplitPolicy PresplitHashedZonesSplitPolicy.

Lemma elemWoCompare_eq_iff (a b : BSONElement) :
  bool_decide (elemWoCompare a b = Eq) = bool_decide (a = b).
Proof.
  apply bool_decide_ext. split.
  - apply (cmp_eq (cmp:=elemWoCompare)).
  - intros ->. apply (cmp_refl elemWoCompare).
Qed.

(** The loop over the fields preceding the hashed field stops in front of
    the first field, after the first one, that has the name of the hashed
    field; the fields it passed hold no MinKey and no MaxKey. *)
Lemma validatePrefix_Ok_inv hashedName tag startItr endItr diff diff' rest :
  validatePrefix hashedName tag startItr endItr diff = Ok (diff', rest) →
  ∃ prefix maxPrefix h suffix maxRest,
    startItr = prefix ++ h :: suffix
    ∧ endItr = maxPrefix ++ maxRest
    ∧ length maxPrefix = length prefix
    ∧ prefix ≠ []
    ∧ (∀ e, e ∈ prefix → e.2 ≠ VMinKey ∧ e.2 ≠ VMaxKey)
    ∧ h.1 = hashedName
    ∧ rest = h :: suffix
    ∧ (diff' = true ↔ diff = true ∨ prefix ≠ maxPrefix).
Proof.
  revert endItr diff.
  induction startItr as [|s startItr IH]; intros endItr diff; [done|].
  destruct endItr as [|e endItr]; [done|]. cbn [validatePrefix].
  intros H. bind_inv H as ? Hs. apply uassert_Ok_inv in Hs.
  apply andb_true_iff in Hs as [Hmin Hmax].
  apply negb_true_iff, bool_decide_eq_false in Hmin.
  apply negb_true_iff, bool_decide_eq_false in Hmax.
  destruct startItr as [|next startItr]; [done|].
  rewrite elemWoCompare_eq_iff in H.
  destruct (bool_decide (next.1 = hashedName)) eqn:Enext.
  - apply bool_decide_eq_true in Enext. injection H as <- <-.
    exists [s], [e], next, startItr, endItr. split_and!; try done.
    + intros fld Hx. apply list_elem_of_singleton in Hx as ->. done.
    + split.
      * intros Hd. apply orb_true_iff in Hd as [?|Hd]; [by left|right].
        apply negb_true_iff, bool_decide_eq_false in Hd. congruence.
      * intros [->|Hne]; [done|]. apply orb_true_iff. right.
        apply negb_true_iff, bool_decide_eq_false. congruence.
  - apply IH in H
      as (prefix & maxPrefix & h & suffix & maxRest & Hstart & Hend & Hlen
          & Hne & Hvals & Hh & Hrest & Hdiff).
    exists (s :: prefix), (e :: maxPrefix), h, suffix, maxRest.
    rewrite Hstart, Hend. split_and!; try done.
    + simpl. by rewrite Hlen.
    + intros fld Hx. apply elem_of_cons in Hx as [->|Hx]; [done|]. by apply Hvals.
    + split.
      * intros Hd. apply Hdiff in Hd as [Hd|Hd].
        -- apply orb_true_iff in Hd as [?|Hd]; [by left|right].
           apply negb_true_iff, bool_decide_eq_false in Hd. congruence.
        -- right. congruence.
      * intros [->|Hd]; apply Hdiff; [by left|].
        destruct (decide (s = e)) as [->|Hse].
        -- right. congruence.
        -- left. apply orb_true_iff. right.
           by apply negb_true_iff, bool_decide_eq_false.
Qed.

Lemma validateZone_Ok_inv pat tag u :
  validateZone pat tag = Ok u →
  ∃ prefix suffix maxPrefix maxRest,
    getMinKey tag = prefix ++ (hashedFieldName pat, VMinKey) :: suffix
    ∧ getMaxKey tag = maxPrefix ++ maxRest
    ∧ length maxPrefix = length prefix
    ∧ prefix ≠ []
    ∧ (∀ e, e ∈ prefix → e.2 ≠ VMinKey ∧ e.2 ≠ VMaxKey)
    ∧ (∀ e, e ∈ suffix → e.2 = VMinKey)
    ∧ prefix ≠ maxPrefix.
Proof.
  unfold validateZone. intros H. bind_inv H as [diff rest] Eprefix.
  bind_inv H as ? Hdiff. bind_inv H as ? Hhashed.
  apply uassert_Ok_inv in Hdiff, Hhashed, H.
  apply validatePrefix_Ok_inv in Eprefix
    as (prefix & maxPrefix & h & suffix & maxRest & Hstart & Hend & Hlen
        & Hne & Hvals & Hh & -> & Hd).
  apply bool_decide_eq_true in Hhashed.
  simpl in H. apply andb_true_iff in H as [_ Hsuffix].
  exists prefix, suffix, maxPrefix, maxRest.
  split_and!; try done.
  - rewrite Hstart. do 2 f_equal. destruct h as [name v]. simpl in *. congruence.
  - intros e He. rewrite forallb_forall in Hsuffix.
    eapply bool_decide_eq_true_1, Hsuffix. by apply list_elem_of_In.
  - apply Hd in Hdiff as [?|?]; done.
Qed.

End PresplitValidation.

(** X12. [_validate] fails with 31387 unless the collection is empty, there
    are zones and the shard key has a hashed field, and for a key with a
    hashed prefix with 31412 unless there is a single zone from
    [globalMin] to [globalMax].  When it passes for a key without a hashed
    prefix, the lower bound of every zone is made of one or more fields
    that hold neither MinKey nor MaxKey, then the hashed field with
    MinKey, then fields that all hold MinKey; and the upper bound differs
    from the lower bound in one of the fields preceding the hashed
    field. *)
Theorem PresplitHashedZones_validate_rules (self : AbstractTagsBasedSplitPolicy.t)
    (shardKeyPattern : ShardKeyPattern) (isCollectionEmpty : bool) :
  let tags := AbstractTagsBasedSplitPolicy._tags self in
  (isCollectionEmpty = false ∨ tags = []
   ∨ isHashedPattern shardKeyPattern = false →
   ∃ reason,
     PresplitHashedZonesSplitPolicy._validate self shardKeyPattern
       isCollectionEmpty = Err (UserAssertion 31387 reason))
  ∧ (isCollectionEmpty = true → tags ≠ [] →
     isHashedPattern shardKeyPattern = true →
     hasHashedPrefix shardKeyPattern = true →
     (∃ tag, tags = [tag] ∧ getMinKey tag = globalMin shardKeyPattern
             ∧ getMaxKey tag = globalMax shardKeyPattern)
     ∧ PresplitHashedZonesSplitPolicy._validate self shardKeyPattern
         isCollectionEmpty = Ok tt
     ∨ ¬ (∃ tag, tags = [tag] ∧ getMinKey tag = globalMin shardKeyPattern
                 ∧ getMaxKey tag = globalMax shardKeyPattern)
       ∧ ∃ reason,
           PresplitHashedZonesSplitPolicy._validate self shardKeyPattern
             isCollectionEmpty = Err (UserAssertion 31412 reason))
  ∧ (PresplitHashedZonesSplitPolicy._validate self shardKeyPattern
       isCollectionEmpty = Ok tt →
     hasHashedPrefix shardKeyPattern = false →
     ∀ tag, tag ∈ tags →
       ∃ prefix suffix maxPrefix maxRest,
         getMinKey tag
         = prefix ++ (hashedFieldName shardKeyPattern, VMinKey) :: suffix
         ∧ getMaxKey tag = maxPrefix ++ maxRest
         ∧ length maxPrefix = length prefix
         ∧ prefix ≠ []
         ∧ (∀ e, e ∈ prefix → e.2 ≠ VMinKey ∧ e.2 ≠ VMaxKey)
         ∧ (∀ e, e ∈ suffix → e.2 = VMinKey)
         ∧ prefix ≠ maxPrefix).
Proof.
  cbn zeta. unfold PresplitHashedZonesSplitPolicy._validate.
  split; [|split].
  - intros Hbad. eexists.
    assert (isCollectionEmpty
            && negb (bool_decide (AbstractTagsBasedSplitPolicy._tags self = []))
            && isHashedPattern shardKeyPattern = false) as ->; [|done].
    destruct Hbad as [->|[->| ->]]; [done| |].
    + by rewrite andb_false_r.
    + by rewrite andb_false_r.
  - intros -> Htags -> ->. rewrite bool_decide_eq_false_2 by done. simpl.
    destruct (AbstractTagsBasedSplitPolicy._tags self) as [|tag [|tag' tags]];
      [done| |].
    + rewrite !(bool_decide_ext _ _ (cmp_eq_iff woCompare _ _)).
      destruct (decide (globalMin shardKeyPattern = getMinKey tag)) as [Emin|Emin];
        destruct (decide (globalMax shardKeyPattern = getMaxKey tag)) as [Emax|Emax].
      * left. rewrite !bool_decide_eq_true_2 by done. split; [|done].
        exists tag. done.
      * right. rewrite (bool_decide_eq_false_2 (_ = getMaxKey tag)) by done.
        rewrite andb_false_r. split; [|by eexists].
        intros (t & [= <-] & _ & ?). by destruct Emax.
      * right. rewrite (bool_decide_eq_false_2 (_ = getMinKey tag)) by done.
        split; [|by eexists]. intros (t & [= <-] & ? & _). by destruct Emin.
      * right. rewrite (bool_decide_eq_false_2 (_ = getMinKey tag)) by done.
        split; [|by eexists]. intros (t & [= <-] & ? & _). by destruct Emin.
    + right. split; [|by eexists]. intros (t & [=] & _).
  - intros H Hprefix tag Htag. rewrite Hprefix in H.
    bind_inv H as ? Hfirst.
    assert (∀ tags u, foldM (λ _ tag,
                               PresplitHashedZonesSplitPolicy.validateZone
                                 shardKeyPattern tag) u tags = Ok tt →
                      tag ∈ tags →
                      ∃ u', PresplitHashedZonesSplitPolicy.validateZone
                              shardKeyPattern tag = Ok u') as Hzone.
    { clear. induction tags as [|t tags IH]; intros u Hl Hin;
        [by apply elem_of_nil in Hin|].
      simpl in Hl. bind_inv Hl as u1 Et.
      apply elem_of_cons in Hin as [->|Hin]; [eauto|]. by eapply IH. }
    destruct (Hzone _ _ H Htag) as [u' Hu'].
    by apply PresplitValidation.validateZone_Ok_inv in Hu'.
Qed.

(** ** The chunks of [SingleChunkPerTagSplitPolicy] *)

Module SingleChunkPerTagChunks.
Import AbstractTagsBasedSplitPolicy.

Lemma zonesNamed_snoc name seen zone :
  zonesNamed name (seen ++ [zone])
  = (zonesNamed name seen + if decide (getTag zone = name) then 1 else 0)%nat.
Proof.
  unfold zonesNamed. rewrite filter_app, length_app. f_equal.
  rewrite filter_cons, filter_nil. by case_decide.
Qed.

Lemma buildSplitInfoForTag_single self next seen tag pat info self' :
  subclass self = SingleChunkPerTag next → zoneCounters seen next →
  buildSplitInfoForTag self tag pat = Ok (info, self') →
  ∃ shards shard next',
    _tagToShardIds self !! getTag tag = Some shards
    ∧ shards !! (zonesNamed (getTag tag) seen `mod` length shards)%nat
      = Some shard
    ∧ info = singleChunk shard
    ∧ _tags self' = _tags self ∧ _tagToShardIds self' = _tagToShardIds self
    ∧ subclass self' = SingleChunkPerTag next'
    ∧ zoneCounters (seen ++ [tag]) next'.
Proof.
  unfold buildSplitInfoForTag. intros -> Hcounts H.
  unfold buildSplitInfoForTag_SingleChunkPerTag in H.
  destruct (_tagToShardIds self !! getTag tag) as [shards|]; [|done].
  bind_inv H as i Emod. bind_inv H as shard Eat. injection H as <- <-.
  apply umod_Ok_inv in Emod as [Hsize ->].
  apply vecAt_Ok_inv in Eat as [_ Eat].
  rewrite Hcounts in Eat. unfold vsize in *.
  rewrite Z.rem_mod_nonneg, <- Nat2Z.inj_mod, Nat2Z.id in Eat by lia.
  exists shards, shard. eexists. split; [done|]. split; [done|].
  split; [done|]. split; [done|]. split; [done|]. split; [done|].
  intros name. rewrite zonesNamed_snoc.
  destruct (decide (getTag tag = name)) as [<-|Hne].
  - rewrite lookup_insert_eq. simpl. rewrite Hcounts. lia.
  - rewrite lookup_insert_ne by done. rewrite Hcounts. lia.
Qed.

Lemma builds_single pat self tags infos self' next seen :
  builds pat self tags infos self' →
  subclass self = SingleChunkPerTag next → zoneCounters seen next →
  ∃ shards,
    infos = map singleChunk shards
    ∧ ∀ (i : nat) tag shard,
        tags !! i = Some tag → shards !! i = Some shard →
        ∃ zoneShards,
          _tagToShardIds self !! getTag tag = Some zoneShards
          ∧ zoneShards !! (zonesNamed (getTag tag) (seen ++ take i tags)
                           `mod` length zoneShards)%nat = Some shard.
Proof.
  intros Hb. revert next seen.
  induction Hb as [|self tag info self1 tags infos self2 Hinfo Hb IH];
    intros next seen Hsub Hcounts.
  - exists []. split; [done|]. intros i tag shard Hi. done.
  - eapply buildSplitInfoForTag_single in Hinfo
      as (zoneShards & shard & next' & Hzone & Hshard & -> & _ & Hmap & Hsub'
          & Hcounts'); [|exact Hsub|exact Hcounts].
    destruct (IH next' (seen ++ [tag]) Hsub' Hcounts') as (shards & -> & Hrest).
    exists (shard :: shards). split; [done|].
    intros [|i] t s Ht Hs; simpl in *.
    + injection Ht as <-. injection Hs as <-. rewrite app_nil_r. eauto.
    + destruct (Hrest i t s Ht Hs) as (zs & Hzs & Hat).
      rewrite Hmap in Hzs. exists zs. split; [done|].
      by rewrite <- app_assoc in Hat.
Qed.

End SingleChunkPerTagChunks.

(** X13. The chunks of a [SingleChunkPerTagSplitPolicy] whose counters
    start at zero, as its constructor leaves them: beside the hole chunks,
    every zone gets exactly one chunk, with the min and max of the zone,
    on the shard that the round robin over the shards of the zone selects:
    the shard at the position, modulo their number, that is the number of
    the zones of the same name before it. *)
Theorem SingleChunkPerTag_one_chunk_per_zone
    (self : AbstractTagsBasedSplitPolicy.t) (opCtx : OperationContext)
    (shardKeyPattern : ShardKeyPattern) (params : SplitPolicyParams)
    (chunks : ShardCollectionConfig) :
  AbstractTagsBasedSplitPolicy.subclass self
  = AbstractTagsBasedSplitPolicy.SingleChunkPerTag ∅ →
  AbstractTagsBasedSplitPolicy.createFirstChunks self opCtx shardKeyPattern
    params = Ok chunks →
  let tags := AbstractTagsBasedSplitPolicy._tags self in
  ∃ shards,
    length shards = length tags
    ∧ TagsLayout (getAllShardIdsShuffled opCtx) (globalMax shardKeyPattern)
        (globalMin shardKeyPattern) 0
        (zip tags (map singleChunk shards)) (map placement chunks)
    ∧ (∀ zone shard,
         zonePlacements zone (singleChunk shard)
         = [({| getMin := getMinKey zone; getMax := getMaxKey zone |}, shard)])
    ∧ ∀ (i : nat) zone shard,
        tags !! i = Some zone → shards !! i = Some shard →
        ∃ zoneShards,
          AbstractTagsBasedSplitPolicy._tagToShardIds self !! getTag zone
          = Some zoneShards
          ∧ zoneShards !! (zonesNamed (getTag zone) (take i tags)
                           `mod` length zoneShards)%nat = Some shard.
Proof.
  intros Hsub H. cbn zeta.
  apply TagsDriver.createFirstChunks_layout in H
    as (infos & self' & Hb & _ & _ & _ & Hlayout).
  pose proof Hb as Hb'.
  eapply (SingleChunkPerTagChunks.builds_single _ _ _ _ _ ∅ []) in Hb
    as (shards & -> & Hshards); [|exact Hsub|done].
  exists shards. split; [|split; [done|split; [done|]]].
  - clear -Hb'. remember (map singleChunk shards) as infos eqn:E.
    revert shards E. induction Hb'; intros shards E.
    + by destruct shards.
    + destruct shards as [|s shards]; [done|]. injection E as _ E.
      simpl. f_equal. by apply IHHb'.
  - exact Hshards.
Qed.

Module SingleChunkPerTagOutcome.
Import AbstractTagsBasedSplitPolicy.

Lemma vecAt_total {A} (v : list A) (i : Z) :
  0 ≤ i < vsize v → ∃ x, vecAt v i = Ok x.
Proof.
  intros Hi. unfold vecAt, vsize in *. rewrite (proj2 (Z.leb_le 0 i)) by lia.
  destruct (lookup_lt_is_Some_2 v (Z.to_nat i)) as [x ->]; [lia|eauto].
Qed.

Lemma roundRobin_total (shards : list ShardId) (i : Z) :
  shards ≠ [] → 0 ≤ i →
  ∃ shard, (r ← umod i (vsize shards); vecAt shards r) = Ok shard.
Proof.
  intros Hne Hi. unfold umod, vsize.
  assert (0 < Z.of_nat (length shards)) as Hlen
    by (destruct shards; simpl; [done|lia]).
  rewrite (proj2 (Z.eqb_neq _ 0)) by lia. simpl.
  apply vecAt_total. unfold vsize.
  rewrite Z.rem_mod_nonneg by lia. by apply Z.mod_pos_bound.
Qed.

Lemma appendHole_total params shardIds lastMax bound indx em :
  shardIds ≠ [] → 0 ≤ indx →
  ∃ em', appendHole params shardIds lastMax bound indx em = Ok (indx + 1, em').
Proof.
  intros Hne Hi. unfold appendHole, nextShardIdForHole.
  destruct (roundRobin_total shardIds indx Hne Hi) as [shard Hshard].
  destruct (umod indx (vsize shardIds)) as [r|]; [|done]. simpl in *.
  rewrite Hshard. simpl. eauto.
Qed.

Lemma hole_total params shardIds (st : LoopState) (bound : BSONObj)
    (c : comparison) (wanted : comparison) :
  shardIds ≠ [] → 0 ≤ indx st →
  ∃ i em,
    (if decide (c = wanted)
     then appendHole params shardIds (lastChunkMax st) bound (indx st) (emitter st)
     else Ok (indx st, emitter st)) = Ok (i, em)
    ∧ 0 ≤ i.
Proof.
  intros Hne Hi. case_decide.
  - destruct (appendHole_total params shardIds (lastChunkMax st) bound
                (indx st) (emitter st) Hne Hi) as [em' ->].
    eexists _, _. split; [done|lia].
  - eexists _, _. split; [done|lia].
Qed.

Lemma createChunksForTag_assigned params pat shardIds tagToShards seen st tag
    shards :
  shardIds ≠ [] → tagsLoopReady tagToShards seen st →
  tagToShards !! getTag tag = Some shards → shards ≠ [] →
  ∃ st', createChunksForTag params pat shardIds tagToShards st tag = Ok st'
         ∧ tagsLoopReady tagToShards (seen ++ [tag]) st'.
Proof.
  intros Hne (Hi & Hmap & next & Hsub & Hcounts) Hshards Hassigned.
  unfold createChunksForTag.
  assert (∃ i em,
            match woCompare (getMinKey tag) (lastChunkMax st) with
            | Gt => appendHole params shardIds (lastChunkMax st) (getMinKey tag)
                      (indx st) (emitter st)
            | _ => Ok (indx st, emitter st)
            end = Ok (i, em) ∧ 0 ≤ i) as (i & em & -> & Hi').
  { destruct (hole_total params shardIds st (getMinKey tag)
                (woCompare (getMinKey tag) (lastChunkMax st)) Gt Hne Hi)
      as (i & em & Hhole & Hi').
    exists i, em. split; [|done].
    by destruct (woCompare (getMinKey tag) (lastChunkMax st)). }
  cbn [mbind Result_bind]. rewrite Hshards.
  rewrite bool_decide_eq_false_2 by done. cbn [negb uassert mbind Result_bind].
  unfold buildSplitInfoForTag. rewrite Hsub.
  unfold buildSplitInfoForTag_SingleChunkPerTag. rewrite Hmap, Hshards.
  destruct (roundRobin_total shards (default 0 (next !! getTag tag)))
    as [shard Hshard]; [done|rewrite Hcounts; lia|].
  destruct (umod (default 0 (next !! getTag tag)) (vsize shards)) as [r|];
    [|done].
  cbn [mbind Result_bind] in *. rewrite Hshard. cbn [mbind Result_bind].
  eexists. split; [reflexivity|].
  split; [done|]. split; [done|]. eexists. split; [done|].
  intros name. rewrite SingleChunkPerTagChunks.zonesNamed_snoc.
  destruct (decide (getTag tag = name)) as [<-|Hn].
  - rewrite lookup_insert_eq. simpl. rewrite Hcounts. lia.
  - rewrite lookup_insert_ne by done. rewrite Hcounts. lia.
Qed.

Lemma createChunksForTag_unassigned params pat shardIds tagToShards seen st tag :
  shardIds ≠ [] → tagsLoopReady tagToShards seen st →
  (tagToShards !! getTag tag = Some [] →
   createChunksForTag params pat shardIds tagToShards st tag
   = Err (UserAssertion 50973 (notAssignedToShard tag)))
  ∧ (tagToShards !! getTag tag = None →
     createChunksForTag params pat shardIds tagToShards st tag
     = Err InvariantFailure).
Proof.
  intros Hne (Hi & _). unfold createChunksForTag.
  assert (∃ i em,
            match woCompare (getMinKey tag) (lastChunkMax st) with
            | Gt => appendHole params shardIds (lastChunkMax st) (getMinKey tag)
                      (indx st) (emitter st)
            | _ => Ok (indx st, emitter st)
            end = Ok (i, em) ∧ 0 ≤ i) as (i & em & -> & Hi').
  { destruct (hole_total params shardIds st (getMinKey tag)
                (woCompare (getMinKey tag) (lastChunkMax st)) Gt Hne Hi)
      as (i & em & Hhole & Hi').
    exists i, em. split; [|done].
    by destruct (woCompare (getMinKey tag) (lastChunkMax st)). }
  cbn [mbind Result_bind]. split; intros ->; done.
Qed.

Lemma tagsLoop_assigned params pat shardIds tagToShards tags seen st :
  shardIds ≠ [] → tagsLoopReady tagToShards seen st →
  (∀ tag, tag ∈ tags →
     ∃ shards, tagToShards !! getTag tag = Some shards ∧ shards ≠ []) →
  ∃ st', foldM (createChunksForTag params pat shardIds tagToShards) st tags
         = Ok st'
         ∧ tagsLoopReady tagToShards (seen ++ tags) st'.
Proof.
  intros Hne. revert seen st.
  induction tags as [|tag tags IH]; intros seen st Hready Hall; simpl.
  - exists st. by rewrite app_nil_r.
  - destruct (Hall tag) as (shards & Hshards & Hassigned); [by left|].
    destruct (createChunksForTag_assigned params pat shardIds tagToShards seen
                st tag shards) as (st1 & -> & Hready1); try done.
    cbn [mbind Result_bind].
    destruct (IH (seen ++ [tag]) st1 Hready1) as (st' & -> & Hready').
    { intros t Ht. apply Hall. by right. }
    exists st'. split; [done|]. by rewrite <- app_assoc in Hready'.
Qed.

End SingleChunkPerTagOutcome.

(** X14. [AbstractTagsBasedSplitPolicy::createFirstChunks] fails the
    invariant without zones.  For a [SingleChunkPerTagSplitPolicy] whose
    counters start at zero and a non-empty shard inventory, it returns
    chunks when every zone is assigned to a shard; it fails with 50973,
    naming the zone, at the first zone that is bound to no shard, and fails
    the invariant at the first zone that the map of zones to shards does
    not bind. *)
Theorem SingleChunkPerTag_createFirstChunks_outcome
    (self : AbstractTagsBasedSplitPolicy.t) (opCtx : OperationContext)
    (shardKeyPattern : ShardKeyPattern) (params : SplitPolicyParams) :
  let tags := AbstractTagsBasedSplitPolicy._tags self in
  let tagToShards := AbstractTagsBasedSplitPolicy._tagToShardIds self in
  let assigned (tag : TagsType) :=
    ∃ shards, tagToShards !! getTag tag = Some shards ∧ shards ≠ [] in
  (tags = [] →
   AbstractTagsBasedSplitPolicy.createFirstChunks self opCtx shardKeyPattern
     params = Err InvariantFailure)
  ∧ (AbstractTagsBasedSplitPolicy.subclass self
     = AbstractTagsBasedSplitPolicy.SingleChunkPerTag ∅ →
     getAllShardIdsShuffled opCtx ≠ [] →
     (tags ≠ [] → (∀ tag, tag ∈ tags → assigned tag) →
      ∃ chunks,
        AbstractTagsBasedSplitPolicy.createFirstChunks self opCtx
          shardKeyPattern params = Ok chunks)
     ∧ (∀ before tag after,
          tags = before ++ tag :: after →
          (∀ t, t ∈ before → assigned t) →
          (tagToShards !! getTag tag = Some [] →
           AbstractTagsBasedSplitPolicy.createFirstChunks self opCtx
             shardKeyPattern params
           = Err (UserAssertion 50973
                    (AbstractTagsBasedSplitPolicy.notAssignedToShard tag)))
          ∧ (tagToShards !! getTag tag = None →
             AbstractTagsBasedSplitPolicy.createFirstChunks self opCtx
               shardKeyPattern params = Err InvariantFailure))).
Proof.
  cbn zeta. unfold AbstractTagsBasedSplitPolicy.createFirstChunks.
  split; [by intros ->|]. intros Hsub Hne.
  assert (tagsLoopReady
            (AbstractTagsBasedSplitPolicy._tagToShardIds self) []
            {| AbstractTagsBasedSplitPolicy.policy := self;
               AbstractTagsBasedSplitPolicy.indx := 0;
               AbstractTagsBasedSplitPolicy.emitter :=
                 (initialVersion opCtx (clusterTime opCtx), []);
               AbstractTagsBasedSplitPolicy.lastChunkMax :=
                 globalMin shardKeyPattern |}) as Hready.
  { split; [done|]. split; [done|]. exists ∅. split; [done|]. done. }
  split.
  - intros Htags Hall. rewrite bool_decide_eq_false_2 by done.
    cbn [negb invariant mbind Result_bind].
    destruct (SingleChunkPerTagOutcome.tagsLoop_assigned params shardKeyPattern
                (getAllShardIdsShuffled opCtx)
                (AbstractTagsBasedSplitPolicy._tagToShardIds self)
                (AbstractTagsBasedSplitPolicy._tags self) [] _ Hne Hready Hall)
      as (st' & -> & Hi & _).
    cbn [mbind Result_bind].
    destruct (woCompare (AbstractTagsBasedSplitPolicy.lastChunkMax st')
                (globalMax shardKeyPattern)); [by eexists| |by eexists].
    destruct (SingleChunkPerTagOutcome.appendHole_total params
                (getAllShardIdsShuffled opCtx)
                (AbstractTagsBasedSplitPolicy.lastChunkMax st')
                (globalMax shardKeyPattern)
                (AbstractTagsBasedSplitPolicy.indx st')
                (AbstractTagsBasedSplitPolicy.emitter st') Hne Hi)
      as [em ->].
    cbn [mbind Result_bind]. eauto.
  - intros before tag after Htags Hbefore. rewrite Htags.
    rewrite bool_decide_eq_false_2 by by destruct before.
    cbn [negb invariant mbind Result_bind]. rewrite foldM_app.
    destruct (SingleChunkPerTagOutcome.tagsLoop_assigned params shardKeyPattern
                (getAllShardIdsShuffled opCtx)
                (AbstractTagsBasedSplitPolicy._tagToShardIds self)
                before [] _ Hne Hready Hbefore)
      as (st' & -> & Hready').
    cbn [mbind Result_bind foldM].
    destruct (SingleChunkPerTagOutcome.createChunksForTag_unassigned params
                shardKeyPattern (getAllShardIdsShuffled opCtx)
                (AbstractTagsBasedSplitPolicy._tagToShardIds self)
                ([] ++ before) st' tag Hne Hready') as [Hnone Hunbound].
    split; intros Hcase.
    + by rewrite Hnone.
    + by rewrite Hunbound.
Qed.

(** ** The hashed split points in closed form *)

Lemma sorted_NoDup_strict (l : list BSONObj) :
  StronglySorted bsonLessEq l → NoDup l → isSet l.
Proof.
  induction 1 as [|x l Hl IH Hx]; intros Hnd; [constructor|].
  apply NoDup_cons in Hnd as [Hnotin Hnd].
  constructor; [by apply IH|].
  rewrite Forall_forall in *. intros y Hy. specialize (Hx y Hy).
  unfold bsonLessEq, bsonLess in *.
  destruct (woCompare x y) eqn:E; [|done|done].
  apply (cmp_eq (cmp:=woCompare)) in E. by subst.
Qed.

(** Sorting yields the one strictly ascending arrangement. *)
Lemma sort_unique (l s : list BSONObj) : l ≡ₚ s → isSet s → sort l = s.
Proof.
  intros Hperm Hs. apply isSet_ext; [|done|].
  - apply sorted_NoDup_strict; [apply sort_sorted|].
    rewrite sort_Permutation, Hperm. by apply isSet_NoDup.
  - intros z. by rewrite sort_Permutation, Hperm.
Qed.

Lemma increasing_sorted (f : nat → Z) (start len : nat) :
  (∀ i j : nat, (i < j)%nat → f i < f j) →
  StronglySorted Z.lt (map f (seq start len)).
Proof.
  intros Hf. revert start. induction len as [|len IH]; intros start; simpl.
  - constructor.
  - constructor; [apply IH|]. apply Forall_forall. intros z Hz.
    apply list_elem_of_fmap in Hz as (j & -> & Hj).
    apply elem_of_seq in Hj. apply Hf. lia.
Qed.

Lemma hashedStep_bounds n :
  2 ≤ n ≤ INT_MAX → 2 ^ 32 ≤ LLONG_MAX / n ∧ n * (LLONG_MAX / n) ≤ LLONG_MAX.
Proof.
  unfold INT_MAX, LLONG_MAX. intros Hn. split.
  - apply Z.div_le_lower_bound; [lia|]. nia.
  - apply Z.mul_div_le. lia.
Qed.

Lemma hashedSplitValues_sorted n :
  2 ≤ n ≤ INT_MAX → StronglySorted Z.lt (hashedSplitValues n).
Proof.
  intros Hn. apply increasing_sorted. intros i j Hij. unfold hashedSplitValue.
  pose proof (hashedStep_bounds n Hn) as [Hh _]. nia.
Qed.

Lemma hashedSplitValues_elem n z :
  z ∈ hashedSplitValues n
  ↔ ∃ k : nat, Z.of_nat k < n - 1 ∧ z = hashedSplitValue n k.
Proof.
  unfold hashedSplitValues. rewrite list_elem_of_fmap. split.
  - intros (k & -> & Hk). apply elem_of_seq in Hk. exists k. split; [lia|done].
  - intros (k & Hk & ->). exists k. split; [done|]. apply elem_of_seq. lia.
Qed.

(** The values the function pushes are, in another order, the values of
    the closed form. *)
Lemma expectedHashedValues_closed n :
  2 ≤ n ≤ INT_MAX → expectedHashedValues n ≡ₚ hashedSplitValues n.
Proof.
  intros Hn. pose proof (hashedStep_bounds n Hn) as [Hh Hnh].
  apply submseteq_length_Permutation.
  - apply NoDup_submseteq.
    + apply expectedHashedValues_NoDup. unfold INT_MAX in Hn. lia.
    + intros z Hz. apply hashedSplitValues_elem.
      unfold expectedHashedValues, hashedInterval, hashedSplitValue in *.
      change (2 ^ 63 - 1) with LLONG_MAX in *.
      set (h := LLONG_MAX / n) in *.
      destruct (Z.even n) eqn:Ev.
      * apply Z.even_spec in Ev as [m Hm].
        assert ((n - 1) / 2 = m - 1) as Hc
          by (symmetry; apply (Z.div_unique _ _ _ 1); lia).
        rewrite Hc in Hz. apply elem_of_cons in Hz as [->|Hz].
        -- exists (Z.to_nat (m - 1)). split; [lia|]. nia.
        -- apply hashedPairs_elem in Hz as (k & Hk & [->| ->]).
           ++ exists (Z.to_nat (m + Z.of_nat k)). split; [lia|]. nia.
           ++ exists (Z.to_nat (m - Z.of_nat k - 2)). split; [lia|]. nia.
      * rewrite <- Z.negb_odd in Ev.
        apply negb_false_iff, Z.odd_spec in Ev as [m Hm].
        assert ((n - 1) / 2 = m) as Hc
          by (symmetry; apply (Z.div_unique _ _ _ 0); lia).
        rewrite Hc, Z.div_mul in Hz by lia.
        apply hashedPairs_elem in Hz as (k & Hk & [->| ->]).
        -- exists (Z.to_nat (m + Z.of_nat k)). split; [lia|]. nia.
        -- exists (Z.to_nat (m - Z.of_nat k - 1)). split; [lia|]. nia.
  - rewrite expectedHashedValues_length by lia.
    unfold hashedSplitValues. by rewrite length_map, length_seq.
Qed.

Lemma calculateHashedSplitPoints_closed pat prefix n :
  isHashedPattern pat = true → 1 ≤ n ≤ INT_MAX →
  calculateHashedSplitPoints pat prefix n
  = Ok (map (buildSplitPoint pat prefix) (hashedSplitValues n)).
Proof.
  intros Hp Hn. destruct (decide (n = 1)) as [->|Hne].
  - unfold calculateHashedSplitPoints. by rewrite Hp.
  - rewrite calculateHashedSplitPoints_unsorted by (try done; lia).
    f_equal. apply sort_unique.
    + apply fmap_Permutation, expectedHashedValues_closed. lia.
    + apply sorted_values_splitPoints, hashedSplitValues_sorted. lia.
Qed.

(** X15. [calculateHashedSplitPoints] fails the invariant for a pattern
    without a hashed field and for a number of chunks below one.  For a
    hashed pattern and [n] chunks, [1 ≤ n] (an [int]), its [k]-th split
    point, in ascending order, has the hashed value
    [(2k + 2 - n) * (INT64_MAX / n)]: neighbouring split points are
    [(INT64_MAX / n) * 2] apart, the split points are symmetric around 0,
    and the outermost two are [(n - 2) * (INT64_MAX / n)] away from 0. *)
Theorem calculateHashedSplitPoints_closed_form
    (shardKeyPattern : ShardKeyPattern) (prefix : BSONObj)
    (numInitialChunks : Z) :
  (isHashedPattern shardKeyPattern = false ∨ numInitialChunks ≤ 0 →
   calculateHashedSplitPoints shardKeyPattern prefix numInitialChunks
   = Err InvariantFailure)
  ∧ (isHashedPattern shardKeyPattern = true →
     1 ≤ numInitialChunks ≤ INT_MAX →
     calculateHashedSplitPoints shardKeyPattern prefix numInitialChunks
     = Ok (map (buildSplitPoint shardKeyPattern prefix)
             (hashedSplitValues numInitialChunks)))
  ∧ (∀ k : nat,
       hashedSplitValue numInitialChunks (S k)
       - hashedSplitValue numInitialChunks k
       = LLONG_MAX / numInitialChunks * 2)
  ∧ (∀ k : nat,
       Z.of_nat k < numInitialChunks - 1 →
       hashedSplitValue numInitialChunks
         (Z.to_nat (numInitialChunks - 2 - Z.of_nat k))
       = - hashedSplitValue numInitialChunks k)
  ∧ (2 ≤ numInitialChunks →
     head (hashedSplitValues numInitialChunks)
     = Some (- ((numInitialChunks - 2) * (LLONG_MAX / numInitialChunks)))
     ∧ last (hashedSplitValues numInitialChunks)
       = Some ((numInitialChunks - 2) * (LLONG_MAX / numInitialChunks))).
Proof.
  split; [|split; [|split; [|split]]].
  - unfold calculateHashedSplitPoints. intros [->|Hn]; [done|].
    destruct (isHashedPattern shardKeyPattern); [|done]. simpl.
    by rewrite (proj2 (Z.ltb_ge 0 numInitialChunks)).
  - apply calculateHashedSplitPoints_closed.
  - intros k. unfold hashedSplitValue. lia.
  - intros k Hk. unfold hashedSplitValue. rewrite Z2Nat.id by lia. lia.
  - intros Hn. unfold hashedSplitValues.
    assert (Z.to_nat (numInitialChunks - 1)
            = S (Z.to_nat (numInitialChunks - 2))) as -> by lia.
    split.
    + simpl. unfold hashedSplitValue. f_equal. simpl. lia.
    + rewrite seq_S, map_app. cbn [map]. rewrite last_snoc.
      unfold hashedSplitValue. f_equal.
      rewrite Nat.add_0_l, Z2Nat.id by lia. lia.
Qed.

(** ** The split info of a zone under [PresplitHashedZonesSplitPolicy] *)

Module PresplitZones.
Import AbstractTagsBasedSplitPolicy.

(** The running total of the chunks of the zone is kept in an [int]. *)
Lemma quotaOnShard_total cps ntps shards acc acc' :
  0 ≤ cps → (∀ s c, ntps !! s = Some c → 0 ≤ c) →
  foldM (quotaOnShard cps ntps) acc shards = Ok acc' →
  0 ≤ acc.2 →
  acc.2 + sumZ (map (λ s, ceiling cps (default 0 (ntps !! s))) shards) ≤ INT_MAX →
  acc'.2 = acc.2 + sumZ (map (λ s, ceiling cps (default 0 (ntps !! s))) shards).
Proof.
  intros Hcps Hntps. revert acc.
  induction shards as [|s shards IH]; intros acc; simpl.
  - intros [= <-] _ _. lia.
  - intros H Hacc Hsum. bind_inv H as acc1 Estep.
    unfold quotaOnShard in Estep. bind_inv Estep as c Ec.
    injection Estep as <-.
    assert (0 ≤ default 0 (ntps !! s)) as Hs.
    { destruct (ntps !! s) as [c'|] eqn:E; simpl; [by eapply Hntps|done]. }
    apply PresplitCounts.ceilOfXOverY_ceiling in Ec as [Hpos ->]; [|done|done].
    assert (0 ≤ ceiling cps (default 0 (ntps !! s))) as Hc
      by (apply PresplitCounts.ceiling_nonneg; lia).
    assert (0 ≤ sumZ (map (λ s, ceiling cps (default 0 (ntps !! s))) shards))
      as Hrest.
    { clear -Hcps Hntps. induction shards as [|x shards IH]; simpl; [done|].
      assert (0 ≤ ceiling cps (default 0 (ntps !! x))); [|lia].
      apply PresplitCounts.ceiling_nonneg; [done|].
      destruct (ntps !! x) as [c'|] eqn:E; simpl; [by eapply Hntps|done]. }
    unfold INT_MAX in *.
    apply IH in H; cbn [snd] in *.
    + rewrite H.
      rewrite (SamplingSplitPoints.toSizeT_small acc.2) by lia.
      rewrite SamplingSplitPoints.toSizeT_small by lia.
      rewrite SamplingSplitPoints.toInt_small by lia. lia.
    + rewrite (SamplingSplitPoints.toSizeT_small acc.2) by lia.
      rewrite SamplingSplitPoints.toSizeT_small by lia.
      rewrite SamplingSplitPoints.toInt_small by lia. lia.
    + rewrite (SamplingSplitPoints.toSizeT_small acc.2) by lia.
      rewrite SamplingSplitPoints.toSizeT_small by lia.
      rewrite SamplingSplitPoints.toInt_small by lia. lia.
Qed.

Lemma calculateHashedSplitPoints_Ok_inv pat prefix n points :
  calculateHashedSplitPoints pat prefix n = Ok points →
  isHashedPattern pat = true ∧ 1 ≤ n.
Proof.
  unfold calculateHashedSplitPoints. intros H.
  bind_inv H as ? Hp. bind_inv H as ? Hn.
  apply invariant_Ok_inv in Hp, Hn. apply Z.ltb_lt in Hn. split; [done|lia].
Qed.

End PresplitZones.

(** X16. For a policy that [PresplitHashedZonesSplitPolicy] constructs
    with a number of chunks that is not zero (as given, or by default),
    [buildSplitInfoForTag] on a zone of the tag list leaves the policy
    unchanged and gives every shard of the zone at least one chunk and at
    most [ceil(_numInitialChunks / |_numTagsPerShard|)]; and when the
    chunks of the zone are within an [int], its split points are the
    hashed split points for that many chunks under the fields of the
    zone's min that precede the hashed field, one fewer than the chunks. *)
Theorem PresplitHashedZones_zone_split (opCtx : OperationContext)
    (shardKeyPattern : ShardKeyPattern) (tags : list TagsType)
    (numInitialChunks : Z) (isCollectionEmpty : bool)
    (self : AbstractTagsBasedSplitPolicy.t) :
  0 ≤ numInitialChunks < 2 ^ 64 →
  PresplitHashedZonesSplitPolicy.make opCtx shardKeyPattern tags
    numInitialChunks isCollectionEmpty = Ok self →
  ∃ n ntps,
    AbstractTagsBasedSplitPolicy.subclass self
    = AbstractTagsBasedSplitPolicy.PresplitHashedZones n ntps
    ∧ (numInitialChunks ≠ 0 ∨ Z.of_nat (size ntps) < 2 ^ 63 → 1 ≤ n)
    ∧ ∀ tag info self',
        1 ≤ n → tag ∈ tags →
        AbstractTagsBasedSplitPolicy.buildSplitInfoForTag self tag
          shardKeyPattern = Ok (info, self') →
        self' = self
        ∧ (∀ s c,
             (s, c) ∈ AbstractTagsBasedSplitPolicy.chunkDistribution info →
             1 ≤ c ≤ ceiling n (Z.of_nat (size ntps)))
        ∧ let total :=
            sumZ (map snd (AbstractTagsBasedSplitPolicy.chunkDistribution info)) in
          (total ≤ INT_MAX →
           AbstractTagsBasedSplitPolicy.splitPoints info
           = map (buildSplitPoint shardKeyPattern
                    (fieldsBefore (hashedFieldName shardKeyPattern)
                       (getMinKey tag)))
                 (hashedSplitValues total)
           ∧ vsize (AbstractTagsBasedSplitPolicy.splitPoints info) + 1 = total).
Proof.
  intros HN H. unfold PresplitHashedZonesSplitPolicy.make in H.
  bind_inv H as base Ebase. bind_inv H as ? Evalid.
  bind_inv H as ntps Entps. bind_inv H as ? Einv. injection H as <-.
  unfold AbstractTagsBasedSplitPolicy.make in Ebase.
  bind_inv Ebase as tagToShardIds Emap. injection Ebase as <-.
  cbn [AbstractTagsBasedSplitPolicy._tagToShardIds
       AbstractTagsBasedSplitPolicy._tags
       AbstractTagsBasedSplitPolicy.subclass] in *.
  apply PresplitCounts.countTag_flat in Entps.
  set (carrying := shardsCarrying tagToShardIds tags) in *.
  set (n := if numInitialChunks =? 0 then toSizeT (Z.of_nat (size ntps) * 2)
            else numInitialChunks).
  assert (∀ s c, ntps !! s = Some c → 1 ≤ c) as Hpos.
  { intros s c Hs. rewrite Entps in Hs.
    apply PresplitCounts.increment_positive in Hs; [lia|].
    intros ? ?. by rewrite lookup_empty. }
  assert (∀ s c, ntps !! s = Some c → 0 ≤ c) as Hntps.
  { intros s c Hs. apply Hpos in Hs. lia. }
  assert (0 < Z.of_nat (size ntps)) as Hsize.
  { apply invariant_Ok_inv, negb_true_iff, bool_decide_eq_false in Einv.
    destruct (decide (size ntps = 0%nat)) as [E|E]; [|lia].
    by apply map_size_empty_inv in E. }
  exists n, ntps. split; [done|]. split.
  { unfold n. intros [Hne|Hsmall].
    - rewrite (proj2 (Z.eqb_neq _ 0)) by done. lia.
    - destruct (numInitialChunks =? 0) eqn:E0; [|apply Z.eqb_neq in E0; lia].
      rewrite SamplingSplitPoints.toSizeT_small by lia. lia. }
  intros tag info self' Hn Htag Hinfo.
  unfold AbstractTagsBasedSplitPolicy.buildSplitInfoForTag in Hinfo.
  cbn [AbstractTagsBasedSplitPolicy.subclass] in Hinfo.
  unfold AbstractTagsBasedSplitPolicy.buildSplitInfoForTag_PresplitHashedZones
    in Hinfo.
  cbn [AbstractTagsBasedSplitPolicy._tagToShardIds] in Hinfo.
  bind_inv Hinfo as cps Ecps.
  destruct (tagToShardIds !! getTag tag) as [shards|] eqn:Eshards; [|done].
  bind_inv Hinfo as [dist total] Edist. bind_inv Hinfo as points Ep.
  injection Hinfo as <- <-. split; [done|].
  cbn [AbstractTagsBasedSplitPolicy.chunkDistribution
       AbstractTagsBasedSplitPolicy.splitPoints].
  apply PresplitCounts.ceilOfXOverY_ceiling in Ecps as [_ ->]; [|lia|lia].
  pose proof (PresplitCounts.ceiling_spec n (Z.of_nat (size ntps)) Hsize) as Hcps.
  set (cps := ceiling n (Z.of_nat (size ntps))) in *.
  assert (1 ≤ cps) as Hcps1 by nia.
  assert (0 ≤ cps) as Hcps0 by lia.
  pose proof (PresplitCounts.quotaOnShard_formula _ _ _ _ _
                Hcps0 Hntps Edist) as Hdist.
  simpl in Hdist.
  assert (∀ s, s ∈ shards → 1 ≤ default 0 (ntps !! s)) as Hshards.
  { intros s Hs.
    assert (s ∈ carrying) as Hc.
    { unfold carrying, shardsCarrying. apply list_elem_of_In, in_flat_map.
      exists tag. split; [by apply list_elem_of_In|].
      rewrite Eshards. simpl. by apply list_elem_of_In. }
    assert (is_Some (ntps !! s)) as [c Hc'].
    { rewrite Entps. apply PresplitCounts.increment_keys. by right. }
    rewrite Hc'. simpl. by eapply Hpos. }
  split.
  - intros s c Hsc. rewrite Hdist in Hsc.
    apply list_elem_of_fmap in Hsc as (s' & [= -> ->] & Hs').
    specialize (Hshards _ Hs').
    assert (0 < default 0 (ntps !! s')) as Hy by lia.
    pose proof (PresplitCounts.ceiling_spec cps _ Hy).
    unfold ShardId in *. nia.
  - cbn zeta. intros Htotal.
    assert (map snd dist
            = map (λ s, ceiling cps (default 0 (ntps !! s))) shards) as Hsnd.
    { rewrite Hdist, map_map. done. }
    rewrite Hsnd in *.
    assert (total = 0 + sumZ (map (λ s, ceiling cps (default 0 (ntps !! s)))
                                 shards)) as ->.
    { apply (PresplitZones.quotaOnShard_total cps ntps shards ([], 0)
               (dist, total) Hcps0 Hntps Edist); simpl; lia. }
    rewrite Z.add_0_l in Ep.
    pose proof (PresplitZones.calculateHashedSplitPoints_Ok_inv _ _ _ _ Ep)
      as [Hp Hone].
    rewrite calculateHashedSplitPoints_closed in Ep by done.
    injection Ep as <-. split; [done|].
    unfold vsize, hashedSplitValues. rewrite !length_map, length_seq. lia.
Qed.

(** ** [calculateOptimizationStrategy] with [presplitHashedZones] *)

(** X17. With [presplitHashedZones] set and no [numInitialChunks],
    [calculateOptimizationStrategy] constructs the presplit policy also
    when the collection is not empty, there are no zones or the shard key
    has no hashed field: it then fails as [buildTagsToShardIdsMap] fails
    on the tag list, and with 31387 when that succeeds.  Whatever its
    arguments, it returns no sampling-based and no shard-distribution
    policy, and a tag-based policy it returns holds the tag list it was
    given. *)
Theorem calculateOptimizationStrategy_presplit_validation
    (opCtx : OperationContext) (shardKeyPattern : ShardKeyPattern)
    (numInitialChunks : Z) (presplitHashedZones : bool)
    (tags : list TagsType) (numShards : Z) (collectionIsEmpty : bool) :
  (presplitHashedZones = true → numInitialChunks = 0 →
   collectionIsEmpty = false ∨ tags = []
   ∨ isHashedPattern shardKeyPattern = false →
   match buildTagsToShardIdsMap opCtx tags with
   | Ok _ =>
       ∃ reason,
         calculateOptimizationStrategy opCtx shardKeyPattern numInitialChunks
           presplitHashedZones tags numShards collectionIsEmpty
         = Err (UserAssertion 31387 reason)
   | Err e =>
       calculateOptimizationStrategy opCtx shardKeyPattern numInitialChunks
         presplitHashedZones tags numShards collectionIsEmpty = Err e
   end)
  ∧ ∀ policy,
      calculateOptimizationStrategy opCtx shardKeyPattern numInitialChunks
        presplitHashedZones tags numShards collectionIsEmpty = Ok policy →
      match policy with
      | SingleChunkOnPrimary | SplitPointsBased _ => True
      | TagsBased p =>
          AbstractTagsBasedSplitPolicy._tags p = tags
          ∧ buildTagsToShardIdsMap opCtx tags
            = Ok (AbstractTagsBasedSplitPolicy._tagToShardIds p)
      | SamplingBased _ | ShardDistribution _ => False
      end.
Proof.
  unfold calculateOptimizationStrategy, chooseStrategy. split.
  - intros -> -> Hbad. cbn [Z.eqb orb uassert mbind Result_bind construct].
    unfold PresplitHashedZonesSplitPolicy.make,
      AbstractTagsBasedSplitPolicy.make.
    destruct (buildTagsToShardIdsMap opCtx tags) as [m|e]; [|done].
    cbn [mbind Result_bind fmap Result_fmap].
    unfold PresplitHashedZonesSplitPolicy._validate.
    cbn [AbstractTagsBasedSplitPolicy._tags].
    assert (collectionIsEmpty && negb (bool_decide (tags = []))
            && isHashedPattern shardKeyPattern = false) as ->.
    { destruct Hbad as [->|[->| ->]]; [done| |].
      - by rewrite andb_false_r.
      - by rewrite andb_false_r. }
    by eexists.
  - intros policy H. bind_inv H as m Echoose.
    bind_inv Echoose as ? H1. bind_inv Echoose as ? H2.
    assert (∀ p, TagsBased <$> PresplitHashedZonesSplitPolicy.make opCtx
                   shardKeyPattern tags (toSizeT numInitialChunks)
                   collectionIsEmpty = Ok policy →
                 policy = TagsBased p →
                 AbstractTagsBasedSplitPolicy._tags p = tags
                 ∧ buildTagsToShardIdsMap opCtx tags
                   = Ok (AbstractTagsBasedSplitPolicy._tagToShardIds p)) as Hpre.
    { intros p Hmake ->. apply fmap_Ok_inv in Hmake as (q & Hq & [= <-]).
      unfold PresplitHashedZonesSplitPolicy.make,
        AbstractTagsBasedSplitPolicy.make in Hq.
      bind_inv Hq as base Ebase. bind_inv Ebase as mp Emp.
      injection Ebase as <-. bind_inv Hq as ? Ev. bind_inv Hq as ntps En.
      bind_inv Hq as ? Einv. injection Hq as <-. done. }
    assert (∀ p, TagsBased <$> SingleChunkPerTagSplitPolicy.make opCtx tags
                 = Ok policy →
                 policy = TagsBased p →
                 AbstractTagsBasedSplitPolicy._tags p = tags
                 ∧ buildTagsToShardIdsMap opCtx tags
                   = Ok (AbstractTagsBasedSplitPolicy._tagToShardIds p)) as Hsingle.
    { intros p Hmake ->. apply fmap_Ok_inv in Hmake as (q & Hq & [= <-]).
      unfold SingleChunkPerTagSplitPolicy.make,
        AbstractTagsBasedSplitPolicy.make in Hq.
      bind_inv Hq as mp Emp. by injection Hq as <-. }
    destruct presplitHashedZones.
    { injection Echoose as <-. simpl in H.
      destruct policy as [|p|p|p|p]; try done.
      - by apply Hpre.
      - by apply fmap_Ok_inv in H as (q & _ & [=]).
      - by apply fmap_Ok_inv in H as (q & _ & [=]). }
    destruct (bool_decide (tags = []) && hasHashedPrefix shardKeyPattern
              && collectionIsEmpty).
    { injection Echoose as <-. simpl in H.
      apply fmap_Ok_inv in H as (q & _ & ->). done. }
    destruct (negb (bool_decide (tags = []))).
    + destruct collectionIsEmpty.
      * injection Echoose as <-. simpl in H.
        destruct policy as [|p|p|p|p]; try done.
        -- by apply Hsingle.
        -- by apply fmap_Ok_inv in H as (q & _ & [=]).
        -- by apply fmap_Ok_inv in H as (q & _ & [=]).
      * injection Echoose as <-. by injection H as <-.
    + destruct collectionIsEmpty; injection Echoose as <-; by injection H as <-.
Qed.

(** ** When [SamplingBasedSplitPolicy::createFirstChunks] returns *)

Lemma selectBestShard_total chunkMap zoneInfo zoneToShards chunkRange shards :
  zoneToShards !! getZoneForChunk zoneInfo chunkRange = Some shards →
  shards ≠ [] → (∀ s, s ∈ shards → is_Some (chunkMap !! s)) →
  ∃ best, selectBestShard chunkMap zoneInfo zoneToShards chunkRange = Ok best.
Proof.
  intros Hzone Hne Hall. unfold selectBestShard. rewrite Hzone.
  rewrite bool_decide_eq_false_2 by done. cbn [negb uassert mbind Result_bind].
  destruct (selectBestShard_scan_total chunkMap shards Hall)
    as (best & -> & Hsome).
  destruct (Hsome Hne) as [b ->]. cbn [mbind Result_bind]. eauto.
Qed.

Lemma selectShardAndAppendChunk_total params zi zm st chunkMax shards :
  zm !! getZoneForChunk zi
          {| getMin := SamplingBasedSplitPolicy.lastChunkMax st;
             getMax := chunkMax |} = Some shards →
  shards ≠ [] →
  (∀ s, s ∈ shards →
     is_Some (SamplingBasedSplitPolicy.chunkDistribution st !! s)) →
  ∃ st',
    SamplingBasedSplitPolicy.selectShardAndAppendChunk params zi zm st chunkMax
    = Ok st'
    ∧ length (SamplingBasedSplitPolicy.emitter st').2
      = S (length (SamplingBasedSplitPolicy.emitter st).2)
    ∧ ∀ s, is_Some (SamplingBasedSplitPolicy.chunkDistribution st !! s) →
           is_Some (SamplingBasedSplitPolicy.chunkDistribution st' !! s).
Proof.
  intros Hzone Hne Hall.
  unfold SamplingBasedSplitPolicy.selectShardAndAppendChunk. cbn zeta.
  destruct (selectBestShard_total _ _ _ _ _ Hzone Hne Hall) as [best ->].
  cbn [mbind Result_bind]. eexists. split; [done|]. split.
  - cbn [SamplingBasedSplitPolicy.emitter]. unfold appendChunk. cbn [snd].
    rewrite length_app. simpl. lia.
  - intros s Hs. cbn [SamplingBasedSplitPolicy.chunkDistribution].
    destruct (decide (best = s)) as [->|Hn].
    + rewrite lookup_insert_eq. eauto.
    + by rewrite lookup_insert_ne.
Qed.

(** X18. Without zones, once the split points are there,
    [SamplingBasedSplitPolicy::createFirstChunks] fails with 4952607 for
    an empty shard inventory, and otherwise returns one chunk more than
    there are split points. *)
Theorem SamplingBased_createFirstChunks_returns
    (self self' : SamplingBasedSplitPolicy.t) (opCtx : OperationContext)
    (shardKey : ShardKeyPattern) (params : SplitPolicyParams)
    (splitPoints : list BSONObj) :
  SamplingBasedSplitPolicy._zones self = None →
  SamplingBasedSplitPolicy.createFirstSplitPoints self shardKey
  = Ok (splitPoints, self') →
  (getAllShardIdsShuffled opCtx = [] →
   SamplingBasedSplitPolicy.createFirstChunks self opCtx shardKey params
   = Err (UserAssertion 4952607 (noShardsForZone EmptyString)))
  ∧ (getAllShardIdsShuffled opCtx ≠ [] →
     ∃ chunks,
       SamplingBasedSplitPolicy.createFirstChunks self opCtx shardKey params
       = Ok chunks
       ∧ length chunks = S (length splitPoints)).
Proof.
  intros Hnone Hpoints.
  assert (SamplingBasedSplitPolicy._zones self' = None) as Hzones.
  { unfold SamplingBasedSplitPolicy.createFirstSplitPoints in Hpoints.
    rewrite Hnone in Hpoints.
    destruct (_ <? _) in Hpoints; bind_inv Hpoints as ? Hc;
      by injection Hpoints as <- <-. }
  unfold SamplingBasedSplitPolicy.createFirstChunks. rewrite Hpoints.
  cbn [mbind Result_bind]. rewrite Hzones.
  cbn [mbind Result_bind default foldM].
  assert (Hzm : ∀ (shards : list ShardId) r,
            SamplingBasedSplitPolicy.emplace EmptyString shards ∅
            !! getZoneForChunk [] r = Some shards).
  { intros shards r. unfold SamplingBasedSplitPolicy.emplace.
    rewrite lookup_empty. apply lookup_insert_eq. }
  split.
  - intros Hall. rewrite Hall.
    destruct splitPoints as [|p ps]; cbn [app foldM];
      unfold SamplingBasedSplitPolicy.selectShardAndAppendChunk,
        selectBestShard; rewrite Hzm; done.
  - intros Hall. set (all := getAllShardIdsShuffled opCtx) in *.
    specialize (Hzm all).
    assert (∀ points st,
              (∀ s, s ∈ all →
                 is_Some (SamplingBasedSplitPolicy.chunkDistribution st !! s)) →
              ∃ st',
                foldM (SamplingBasedSplitPolicy.selectShardAndAppendChunk params
                         [] (SamplingBasedSplitPolicy.emplace EmptyString all ∅))
                  st points = Ok st'
                ∧ length (SamplingBasedSplitPolicy.emitter st').2
                  = (length (SamplingBasedSplitPolicy.emitter st).2
                     + length points)%nat) as Hloop.
    { induction points as [|p points IH]; intros st Hst; cbn [foldM].
      - exists st. split; [done|]. simpl. lia.
      - destruct (selectShardAndAppendChunk_total params []
                    (SamplingBasedSplitPolicy.emplace EmptyString all ∅)
                    st p all (Hzm _) Hall Hst) as (st1 & -> & Hlen1 & Hkeys).
        cbn [mbind Result_bind].
        destruct (IH st1) as (st' & -> & Hlen).
        + intros s Hs. by apply Hkeys, Hst.
        + exists st'. split; [done|]. rewrite Hlen, Hlen1. simpl. lia. }
    match goal with
    | |- ∃ chunks, foldM _ ?st0 _ ≫= _ = _ ∧ _ =>
        destruct (Hloop (splitPoints ++ [globalMax shardKey]) st0)
          as (st' & -> & Hlen)
    end.
    + intros s Hs. cbn [SamplingBasedSplitPolicy.chunkDistribution].
      rewrite emplaceAll_lookup, lookup_empty. rewrite decide_True by done.
      eauto.
    + cbn [mbind Result_bind]. eexists. split; [done|].
      rewrite Hlen. cbn [SamplingBasedSplitPolicy.emitter snd].
      rewrite length_app. simpl. lia.
Qed.

(** ** The presplit policy on a key with a hashed prefix *)

Module PresplitHashedPrefix.
Import AbstractTagsBasedSplitPolicy.

Lemma buildSplitInfoForTag_points self n ntps tag pat info self' :
  subclass self = PresplitHashedZones n ntps →
  0 ≤ n → (∀ s c, ntps !! s = Some c → 0 ≤ c) →
  buildSplitInfoForTag self tag pat = Ok (info, self') →
  ∃ shards,
    _tagToShardIds self !! getTag tag = Some shards
    ∧ chunkDistribution info
      = map (λ s, (s, ceiling (ceiling n (Z.of_nat (size ntps)))
                        (default 0 (ntps !! s)))) shards
    ∧ (sumZ (map (λ s, ceiling (ceiling n (Z.of_nat (size ntps)))
                         (default 0 (ntps !! s))) shards) ≤ INT_MAX →
       1 ≤ sumZ (map (λ s, ceiling (ceiling n (Z.of_nat (size ntps)))
                            (default 0 (ntps !! s))) shards)
       ∧ splitPoints info
         = map (buildSplitPoint pat
                  (fieldsBefore (hashedFieldName pat) (getMinKey tag)))
               (hashedSplitValues
                  (sumZ (map (λ s, ceiling (ceiling n (Z.of_nat (size ntps)))
                                     (default 0 (ntps !! s))) shards)))).
Proof.
  unfold buildSplitInfoForTag. intros -> Hn Hntps H.
  unfold buildSplitInfoForTag_PresplitHashedZones in H.
  bind_inv H as cps Ecps.
  destruct (_tagToShardIds self !! getTag tag) as [shards|]; [|done].
  bind_inv H as [dist total] Edist. bind_inv H as points Ep.
  injection H as <- <-. exists shards. split; [done|].
  apply PresplitCounts.ceilOfXOverY_ceiling in Ecps as [Hsize ->]; [|done|lia].
  assert (0 ≤ ceiling n (Z.of_nat (size ntps))) as Hcps
    by (apply PresplitCounts.ceiling_nonneg; lia).
  pose proof (PresplitCounts.quotaOnShard_formula _ _ _ _ _ Hcps Hntps Edist)
    as Hdist.
  simpl in Hdist. split; [done|]. intros Htotal. cbn [splitPoints].
  assert (total
          = 0 + sumZ (map (λ s, ceiling (ceiling n (Z.of_nat (size ntps)))
                                  (default 0 (ntps !! s))) shards)) as ->.
  { apply (PresplitZones.quotaOnShard_total _ ntps shards ([], 0) (dist, total)
             Hcps Hntps Edist); simpl; lia. }
  rewrite Z.add_0_l in Ep.
  pose proof (PresplitZones.calculateHashedSplitPoints_Ok_inv _ _ _ _ Ep)
    as [Hp Hone].
  rewrite calculateHashedSplitPoints_closed in Ep by done.
  injection Ep as <-. done.
Qed.

Lemma shardsOf_quotas (g : ShardId → Z) (shards : list ShardId) :
  shardsOf (map (λ s, (s, g s)) shards)
  = flat_map (λ s, replicate (Z.to_nat (g s)) s) shards.
Proof.
  unfold shardsOf. induction shards as [|s shards IH]; simpl; [done|].
  by rewrite IH.
Qed.

Lemma fieldsBefore_hashed_prefix (pat : ShardKeyPattern) :
  hasHashedPrefix pat = true →
  fieldsBefore (hashedFieldName pat) (globalMin pat) = [].
Proof.
  destruct pat as [|e pat]; [done|]. simpl. intros He.
  unfold hashedFieldName, getHashedField. simpl. rewrite He. simpl.
  by rewrite bool_decide_eq_true_2.
Qed.

Lemma zip_fst_snd {A B} (l : list A) (k : list B) :
  length l = length k → map fst (zip l k) = l ∧ map snd (zip l k) = k.
Proof.
  revert k. induction l as [|x l IH]; intros [|y k] Hlen; try done.
  simpl in *. destruct (IH k) as [-> ->]; [lia|done].
Qed.

End PresplitHashedPrefix.

(** X19. For a shard key with a hashed prefix, a policy that
    [PresplitHashedZonesSplitPolicy] constructs has a single zone, from
    [globalMin] to [globalMax]; and when the chunks of the zone are within
    an [int], [createFirstChunks] returns no hole chunk: the chunks are
    the ranges that the hashed split points for that many chunks cut the
    key space into, on the shards of the zone in order, each shard as
    often as its quota. *)
Theorem PresplitHashedZones_hashed_prefix_chunks (opCtx : OperationContext)
    (shardKeyPattern : ShardKeyPattern) (tags : list TagsType)
    (numInitialChunks : Z) (isCollectionEmpty : bool)
    (self : AbstractTagsBasedSplitPolicy.t) :
  0 ≤ numInitialChunks < 2 ^ 64 →
  hasHashedPrefix shardKeyPattern = true →
  PresplitHashedZonesSplitPolicy.make opCtx shardKeyPattern tags
    numInitialChunks isCollectionEmpty = Ok self →
  ∃ zone shards n ntps,
    tags = [zone]
    ∧ getMinKey zone = globalMin shardKeyPattern
    ∧ getMaxKey zone = globalMax shardKeyPattern
    ∧ AbstractTagsBasedSplitPolicy._tagToShardIds self !! getTag zone
      = Some shards
    ∧ AbstractTagsBasedSplitPolicy.subclass self
      = AbstractTagsBasedSplitPolicy.PresplitHashedZones n ntps
    ∧ let quota (s : ShardId) :=
        ceiling (ceiling n (Z.of_nat (size ntps))) (default 0 (ntps !! s)) in
      let total := sumZ (map quota shards) in
      ∀ opCtx' params chunks,
        total ≤ INT_MAX →
        AbstractTagsBasedSplitPolicy.createFirstChunks self opCtx'
          shardKeyPattern params = Ok chunks →
        map getRange chunks
        = cutRange (globalMin shardKeyPattern)
            (map (buildSplitPoint shardKeyPattern []) (hashedSplitValues total))
            (globalMax shardKeyPattern)
        ∧ map getShard chunks
          = flat_map (λ s, replicate (Z.to_nat (quota s)) s) shards
        ∧ Z.of_nat (length chunks) = total.
Proof.
  intros HN Hprefix H. unfold PresplitHashedZonesSplitPolicy.make in H.
  bind_inv H as base Ebase. bind_inv H as ? Evalid.
  bind_inv H as ntps Entps. bind_inv H as ? Einv. injection H as <-.
  unfold AbstractTagsBasedSplitPolicy.make in Ebase.
  bind_inv Ebase as tagToShardIds Emap. injection Ebase as <-.
  cbn [AbstractTagsBasedSplitPolicy._tagToShardIds
       AbstractTagsBasedSplitPolicy._tags
       AbstractTagsBasedSplitPolicy.subclass] in *.
  apply PresplitCounts.countTag_flat in Entps.
  set (n := if numInitialChunks =? 0 then toSizeT (Z.of_nat (size ntps) * 2)
            else numInitialChunks).
  assert (0 ≤ n) as Hn.
  { unfold n. destruct (numInitialChunks =? 0); [|lia].
    unfold toSizeT. apply Z.mod_pos_bound. lia. }
  assert (∀ s c, ntps !! s = Some c → 0 ≤ c) as Hntps.
  { intros s c Hs. rewrite Entps in Hs.
    apply PresplitCounts.increment_positive in Hs; [lia|].
    intros ? ?. by rewrite lookup_empty. }
  unfold PresplitHashedZonesSplitPolicy._validate in Evalid.
  cbn [AbstractTagsBasedSplitPolicy._tags] in Evalid.
  bind_inv Evalid as ? E31387. rewrite Hprefix in Evalid.
  apply uassert_Ok_inv in Evalid.
  destruct tags as [|zone [|zone' tags]]; [done| |done].
  apply andb_true_iff in Evalid as [Emin Emax].
  apply bool_decide_eq_true, (cmp_eq (cmp:=woCompare)) in Emin.
  apply bool_decide_eq_true, (cmp_eq (cmp:=woCompare)) in Emax.
  assert (∃ shards, tagToShardIds !! getTag zone = Some shards) as [shards Hshards].
  { simpl in Entps.
    destruct (tagToShardIds !! getTag zone) as [shards|] eqn:E; [eauto|].
    exfalso. simpl in Entps. rewrite Entps in Einv.
    apply invariant_Ok_inv in Einv. by rewrite bool_decide_true in Einv. }
  exists zone, shards, n, ntps. split; [done|]. split; [done|]. split; [done|].
  split; [done|]. split; [done|]. cbn zeta.
  intros opCtx' params chunks Htotal Hchunks.
  apply TagsDriver.createFirstChunks_layout in Hchunks
    as (infos & self' & Hb & Hcons & _ & _ & Hlayout).
  cbn [AbstractTagsBasedSplitPolicy._tags] in *.
  inversion Hb as [|? ? info self1 ? infos' ? Hinfo Hb']; subst.
  inversion Hb'; subst. clear Hb Hb'.
  apply Forall_cons in Hcons as [Hcons _].
  eapply PresplitHashedPrefix.buildSplitInfoForTag_points in Hinfo
    as (shards' & Hshards' & Hdist & Hpoints); [|done|done|done].
  cbn [AbstractTagsBasedSplitPolicy._tagToShardIds] in Hshards'.
  rewrite Hshards in Hshards'. injection Hshards' as <-.
  destruct (Hpoints Htotal) as [Hone Hsps]. clear Hpoints.
  rewrite <- Emin, PresplitHashedPrefix.fieldsBefore_hashed_prefix in Hsps
    by done.
  assert (map placement chunks = zonePlacements zone info) as Hplaced.
  { simpl in Hlayout. inversion Hlayout as [| |? ? ? ? ? ? ? Hgt|? ? ? ? ? ? Hngt Hrest];
      subst.
    - exfalso. rewrite <- Emin in Hgt. by rewrite (cmp_refl woCompare) in Hgt.
    - inversion Hrest as [? ? ? Hlt| | |]; subst.
      + exfalso. rewrite <- Emax in Hlt. by rewrite (cmp_refl woCompare) in Hlt.
      + by rewrite app_nil_r. }
  assert (length (shardsOf (AbstractTagsBasedSplitPolicy.chunkDistribution info))
          = S (length (AbstractTagsBasedSplitPolicy.splitPoints info))) as Hfull.
  { apply TagsTiling.consistent_full; [done|].
    intros e He. rewrite Hdist in He.
    apply list_elem_of_fmap in He as (s & -> & _). simpl.
    by apply PresplitCounts.quota_nonneg. }
  unfold zonePlacements in Hplaced.
  destruct (PresplitHashedPrefix.zip_fst_snd
              (cutRange (getMinKey zone)
                 (AbstractTagsBasedSplitPolicy.splitPoints info) (getMaxKey zone))
              (shardsOf (AbstractTagsBasedSplitPolicy.chunkDistribution info)))
    as [Hfst Hsnd].
  { by rewrite TagsDriver.cutRange_length, Hfull. }
  rewrite <- Hplaced in Hfst, Hsnd. rewrite map_map in Hfst, Hsnd.
  cbn [placement fst snd] in Hfst, Hsnd.
  split; [|split].
  - etrans; [exact Hfst|]. by rewrite Hsps, <- Emin, <- Emax.
  - etrans; [exact Hsnd|]. rewrite Hdist.
    apply PresplitHashedPrefix.shardsOf_quotas.
  - apply (f_equal length) in Hfst.
    rewrite length_map, TagsDriver.cutRange_length, Hsps in Hfst.
    unfold hashedSplitValues in Hfst. rewrite !length_map, length_seq in Hfst.
    lia.
Qed.

(** ** Chunks stay inside the ranges of their shards *)

Module DistributionContainment.
Import ShardDistributionSplitPolicy.

Lemma bsonLessEq_refl a : bsonLessEq a a.
Proof. unfold bsonLessEq. by rewrite (cmp_refl woCompare). Qed.

Lemma bsonLt_bsonLessEq a b : bsonLt a b = true → bsonLessEq a b.
Proof. unfold bsonLt, bsonLessEq. by destruct (woCompare a b). Qed.

Lemma bsonLe_false a b : bsonLe a b = false → bsonLessEq b a.
Proof.
  unfold bsonLe, bsonLessEq. destruct (woCompare a b) eqn:E; [done|done|].
  intros _. apply (cmp_gt_lt woCompare) in E. by rewrite E.
Qed.

Lemma appendChunksFrom_within all pat params sp up ranges ps :
  Forall2 (λ r p, shardRange pat r = Some p) ranges ps →
  ∀ idx em idx' em' lo,
    linked lo (map fst ps) up →
    (∀ p, p ∈ ps → p ∈ all) →
    (ps ≠ [] → bsonLessEq lo (lastMaxOf pat em.2)) →
    Forall (insideShardRange all) em.2 →
    appendChunksFrom ranges params sp pat idx em = Ok (idx', em') →
    ∃ k : nat,
      idx' = idx + Z.of_nat k ∧ (k ≤ length ps)%nat
      ∧ Forall (insideShardRange all) em'.2
      ∧ ∀ p, ps !! k = Some p →
             bsonLessEq (getMin p.1) (lastMaxOf pat em'.2).
Proof.
  induction 1 as [|r p ranges ps Hr Hall IH];
    intros idx em idx' em' lo Hlinked Hsub Hlo Hin H.
  - simpl in H. injection H as <- <-. exists 0%nat.
    split; [lia|]. split; [done|]. split; [done|]. done.
  - simpl in Hlinked. destruct Hlinked as [Hmin Hlinked].
    specialize (Hlo ltac:(done)).
    unfold shardRange in Hr.
    destruct (skrMin r) as [rmin|] eqn:Emin; [|done].
    destruct (skrMax r) as [rmax|] eqn:Emax; [|done].
    injection Hr as <-. cbn [fst snd getMin getMax] in *.
    simpl in H. rewrite Emin, Emax in H. simpl in H.
    destruct (bsonLt (extendRangeBound pat rmin false) sp) eqn:Elt.
    + destruct (bsonLe (extendRangeBound pat rmax false) sp) eqn:Ele.
      * eapply IH in H as (k & -> & Hk & Hin' & Hnext); [|exact Hlinked| | |].
        -- exists (S k). split; [lia|]. split; [simpl; lia|].
           split; [done|]. done.
        -- intros q Hq. apply Hsub. by right.
        -- intros _. rewrite DistributionTiling.lastMaxOf_append.
           apply bsonLessEq_refl.
        -- unfold appendChunk. cbn [snd]. apply Forall_app. split; [done|].
           apply Forall_singleton.
           exists ({| getMin := extendRangeBound pat rmin false;
                      getMax := extendRangeBound pat rmax false |}, skrShard r).
           split; [apply Hsub; left|]. split; [done|]. simpl.
           split; [by rewrite Hmin|apply bsonLessEq_refl].
      * injection H as <- <-. exists 0%nat. split; [lia|].
        split; [simpl; lia|]. split.
        -- unfold appendChunk. cbn [snd]. apply Forall_app. split; [done|].
           apply Forall_singleton.
           exists ({| getMin := extendRangeBound pat rmin false;
                      getMax := extendRangeBound pat rmax false |}, skrShard r).
           split; [apply Hsub; left|]. split; [done|]. simpl.
           split; [by rewrite Hmin|by apply bsonLe_false].
        -- intros q [= <-]. rewrite DistributionTiling.lastMaxOf_append.
           simpl. by apply bsonLt_bsonLessEq.
    + injection H as <- <-. exists 0%nat. split; [lia|].
      split; [simpl; lia|]. split; [done|].
      intros q [= <-]. simpl. by rewrite Hmin.
Qed.

Lemma linked_drop lo (l : list ChunkRange) up (k : nat) :
  linked lo l up → ∃ lo', linked lo' (drop k l) up.
Proof.
  revert lo k. induction l as [|r l IH]; intros lo k Hl.
  - exists up. by rewrite drop_nil.
  - destruct k as [|k]; [by exists lo|]. simpl. destruct Hl as [_ Hl].
    by eapply IH.
Qed.

End DistributionContainment.

(** X20. When the ranges of a shard distribution have both bounds and are
    continuous from [globalMin] to [globalMax], every chunk that
    [ShardDistributionSplitPolicy::createFirstChunks] returns, with or
    without zones, is on the shard of one of the shard ranges and lies
    inside that range. *)
Theorem ShardDistribution_createFirstChunks_inside
    (self : ShardDistributionSplitPolicy.t) (opCtx : OperationContext)
    (shardKeyPattern : ShardKeyPattern) (params : SplitPolicyParams)
    (placements : list (ChunkRange * ShardId))
    (chunks : ShardCollectionConfig) :
  Forall2 (λ r p, shardRange shardKeyPattern r = Some p)
    (ShardDistributionSplitPolicy._shardDistribution self) placements →
  linked (globalMin shardKeyPattern) (map fst placements)
    (globalMax shardKeyPattern) →
  ShardDistributionSplitPolicy.createFirstChunks self opCtx shardKeyPattern
    params = Ok chunks →
  ∀ c, c ∈ chunks → insideShardRange placements c.
Proof.
  intros Hall Hlinked H.
  unfold ShardDistributionSplitPolicy.createFirstChunks in H.
  bind_inv H as first Efirst. bind_inv H as ? Hmin. bind_inv H as st Eloop.
  bind_inv H as ? Hcheck. injection H as <-.
  cbn [ShardDistributionSplitPolicy._shardDistribution] in *.
  set (Inv := λ st : Z * Emitter,
    ∃ k : nat,
      st.1 = Z.of_nat k
      ∧ Forall (insideShardRange placements) st.2.2
      ∧ ∀ p, placements !! k = Some p →
             bsonLessEq (getMin p.1)
               (ShardDistributionSplitPolicy.lastMaxOf shardKeyPattern st.2.2)).
  assert (Inv st) as (k & _ & Hin & _).
  2:{ intros c Hc. rewrite Forall_forall in Hin. by apply Hin. }
  eapply (foldM_invariant Inv); [| |exact Eloop].
  - exists 0%nat. split; [done|]. split; [constructor|].
    intros p Hp. simpl. destruct placements as [|q ps]; [done|].
    injection Hp as <-. destruct Hlinked as [-> _].
    apply DistributionContainment.bsonLessEq_refl.
  - intros [idx em] sp [idx' em'] (k & Hk & Hin & Hlo) _ Hstep.
    simpl in Hk. subst idx.
    unfold ShardDistributionSplitPolicy._appendChunks in Hstep.
    cbn [fst snd ShardDistributionSplitPolicy._shardDistribution] in Hstep.
    rewrite Nat2Z.id in Hstep.
    destruct (DistributionContainment.linked_drop _ _ _ k Hlinked)
      as [lo Hlo'].
    rewrite skipn_map in Hlo'.
    eapply (DistributionContainment.appendChunksFrom_within placements) in Hstep
      as (j & -> & Hj & Hin' & Hnext);
      [|by apply Forall2_drop|exact Hlo'| |  |exact Hin].
    + exists (k + j)%nat. split; [simpl; lia|]. split; [done|].
      intros p Hp. apply Hnext. by rewrite lookup_drop.
    + intros p Hp. apply list_elem_of_lookup in Hp as [i Hi].
      rewrite lookup_drop in Hi. by eapply list_elem_of_lookup_2.
    + intros Hne. simpl.
      destruct (drop k placements) as [|p ps] eqn:Edrop; [done|].
      simpl in Hlo'. destruct Hlo' as [<- _]. apply Hlo.
      pose proof (lookup_drop placements k 0) as Hl.
      rewrite Edrop, Nat.add_0_r in Hl. done.
Qed.

(** ** The properties at the example inputs *)

Import Examples MoreExamples.

Lemma getNext_every_kth_witness :
  yields 5 everySecond = [xAt 2; xAt 4; xAt 5].
Proof.
  apply list_eq. intros i.
  destruct (getNext_every_kth everySecond) as (_ & Hlookup & _).
  cbn zeta in Hlookup. etrans; [apply Hlookup|].
  do 4 (destruct i as [|i]; [reflexivity|]). reflexivity.
Defined.

Lemma extractSplitPointsFromZones_boundaries_witness :
  xAt 10 ∈ extractSplitPointsFromZones keyX (Some ascendingZones)
  ∧ globalMin keyX ∉ extractSplitPointsFromZones keyX (Some ascendingZones).
Proof.
  destruct (extractSplitPointsFromZones_boundaries keyX) as [_ Hzones].
  destruct (Hzones ascendingZones) as [_ Hin]. split.
  - apply Hin. split; [|split; discriminate].
    exists (zone "A" (globalMin keyX) (xAt 10)). split; [left|by right].
  - intros H. apply Hin in H as (_ & Hne & _). by apply Hne.
Defined.

Lemma buildTagsToShardIdsMap_contents_witness :
  ∃ m, buildTagsToShardIdsMap cluster ascendingZones = Ok m
       ∧ ∀ l, m !! "A"%string = Some l → l = ["S1"; "S2"]%string.
Proof.
  destruct (buildTagsToShardIdsMap_contents cluster ascendingZones
              ltac:(discriminate)) as (_ & _ & Hall).
  destruct (Hall shardDocs ltac:(discriminate) ltac:(reflexivity))
    as (m & Hm & _ & Hvalues).
  exists m. split; [exact Hm|]. intros l Hl.
  apply (Hvalues "A"%string l Hl).
Defined.

Lemma buildShardIdToTagsMap_contents_witness :
  ∃ m, buildShardIdToTagsMap cluster
         (ShardDistributionSplitPolicy._shardDistribution twoRanges) = Ok m
       ∧ is_Some (m !! "S3"%string).
Proof.
  destruct (buildShardIdToTagsMap_contents cluster) as [_ Hranges].
  destruct (Hranges (ShardDistributionSplitPolicy._shardDistribution twoRanges)
              ltac:(discriminate)) as (_ & _ & _ & Hall).
  destruct (Hall shardDocs ltac:(discriminate) ltac:(reflexivity))
    as (m & Hm & Hkeys & _).
  exists m. split; [exact Hm|]. apply Hkeys. right.
  exists {| getName := "S3"; getTags := ["B"%string] |}.
  split; [right; right; left|]. split; [reflexivity|discriminate].
Defined.

Lemma createFirstChunks_chunk_metadata_witness :
  ∃ chunks,
    createFirstChunks (ShardDistribution twoRanges) cluster keyX params
    = Ok chunks
    ∧ ∀ c, c ∈ chunks →
        getCollectionUUID c = 7
        ∧ getOnCurrentShardSince c = Some 100
        ∧ getHistory c = [ {| getValidAfter := 100;
                              historyShard := getShard c |} ].
Proof.
  eexists. split; [vm_compute; reflexivity|].
  apply (createFirstChunks_chunk_metadata (ShardDistribution twoRanges) cluster
           keyX params).
  vm_compute. reflexivity.
Defined.

Lemma generateShardCollectionInitialChunks_placements_witness :
  ∃ chunks,
    generateShardCollectionInitialChunks cluster params keyX 100
      [xAt 7; xAt 3; xAt 7] ["S1"; "S2"]%string 2 = Ok chunks
    ∧ map getRange chunks
      = [ {| getMin := globalMin keyX; getMax := xAt 3 |};
          {| getMin := xAt 3; getMax := xAt 7 |};
          {| getMin := xAt 7; getMax := globalMax keyX |} ]
    ∧ ∀ c, c ∈ chunks → bsonLess (getMin (getRange c)) (getMax (getRange c)).
Proof.
  eexists. split; [vm_compute; reflexivity|].
  destruct (generateShardCollectionInitialChunks_placements cluster params keyX
              100 [xAt 7; xAt 3; xAt 7] ["S1"; "S2"]%string 2)
    as (_ & _ & Hchunks).
  destruct (Hchunks _ ltac:(vm_compute; reflexivity)) as (Hranges & _ & Hordered).
  split; [exact Hranges|]. apply Hordered; [discriminate|].
  intros p Hp.
  repeat (apply elem_of_cons in Hp as [->|Hp]; [split; reflexivity|]).
  by apply elem_of_nil in Hp.
Defined.

Lemma SamplingBased_createFirstChunks_ranges_witness :
  ∃ chunks,
    SamplingBasedSplitPolicy.createFirstChunks threeChunks cluster keyX params
    = Ok chunks
    ∧ Z.of_nat (length chunks) = 3.
Proof.
  eexists. split; [vm_compute; reflexivity|].
  destruct (SamplingBased_createFirstChunks_ranges threeChunks cluster keyX
              params _ ltac:(vm_compute; split; [reflexivity|discriminate])
              ltac:(vm_compute; reflexivity))
    as (splitPoints & _ & _ & _ & _ & Hlen & _).
  exact Hlen.
Defined.

Lemma SamplingBased_createFirstChunks_zones_witness :
  ∃ chunks zoneToShards,
    SamplingBasedSplitPolicy.createFirstChunks aroundZoneB cluster keyX params
    = Ok chunks
    ∧ buildTagsToShardIdsMap cluster [zone "B" (xAt 10) (xAt 20)]
      = Ok zoneToShards
    ∧ ∀ c, c ∈ chunks →
        ∃ shards,
          SamplingBasedSplitPolicy.emplace EmptyString
            ["S1"; "S2"; "S3"]%string zoneToShards
          !! getZoneForChunk
               [ {| zoneMin := xAt 10; zoneMax := xAt 20; zoneName := "B" |} ]
               (getRange c) = Some shards
          ∧ getShard c ∈ shards.
Proof.
  eexists.
  destruct (SamplingBased_createFirstChunks_zones aroundZoneB cluster keyX
              params _ ltac:(vm_compute; reflexivity))
    as (zoneToShards & Hmap & Hchunks).
  exists zoneToShards. split; [vm_compute; reflexivity|].
  split; [exact Hmap|exact Hchunks].
Defined.

Lemma SamplingBased_createFirstChunks_balanced_witness :
  ∃ chunks,
    SamplingBasedSplitPolicy.createFirstChunks threeChunks cluster keyX params
    = Ok chunks
    ∧ map getShard chunks = ["S1"; "S2"; "S3"]%string
    ∧ (∀ c, c ∈ chunks → getShard c ∈ getAllShardIds cluster)
    ∧ (chunksOn "S1" chunks ≤ chunksOn "S3" chunks + 1)%nat.
Proof.
  eexists. split; [vm_compute; reflexivity|]. split; [reflexivity|].
  destruct (SamplingBased_createFirstChunks_balanced threeChunks cluster keyX
              params _ ltac:(reflexivity) ltac:(vm_compute; reflexivity))
    as (_ & _ & Hregistry).
  destruct (Hregistry ltac:(reflexivity)) as [Hon Hbalanced].
  split; [exact Hon|].
  apply Hbalanced; [left|right; right; left].
Defined.

Lemma ShardDistribution_createFirstChunks_ranges_witness :
  ∃ chunks,
    ShardDistributionSplitPolicy.createFirstChunks twoRanges cluster keyX params
    = Ok chunks
    ∧ map placement chunks = twoPlacements.
Proof.
  destruct (ShardDistribution_createFirstChunks_ranges cluster keyX params)
    as (_ & _ & Hranges).
  apply (Hranges twoRanges twoPlacements).
  - reflexivity.
  - discriminate.
  - repeat constructor.
  - repeat split.
  - intros p Hp.
    repeat (apply elem_of_cons in Hp as [->|Hp]; [reflexivity|]).
    by apply elem_of_nil in Hp.
Defined.

Lemma ShardDistribution_createFirstChunks_zones_witness :
  ∃ chunks shards,
    ShardDistributionSplitPolicy.createFirstChunks twoRangesZoned cluster keyX
      params = Ok chunks
    ∧ length chunks = 3%nat
    ∧ exhaustiveFindOnConfig cluster = Ok (map WellFormed shards)
    ∧ ∀ c, c ∈ chunks →
        ∃ s, s ∈ shards ∧ getName s = getShard c
             ∧ getZoneForChunk
                 [ {| zoneMin := globalMin keyX; zoneMax := xAt 25;
                      zoneName := "A" |};
                   {| zoneMin := xAt 25; zoneMax := globalMax keyX;
                      zoneName := "A" |} ] (getRange c) ∈ getTags s.
Proof.
  eexists.
  destruct (ShardDistribution_createFirstChunks_zones twoRangesZoned cluster
              keyX params _ _ ltac:(reflexivity) ltac:(vm_compute; reflexivity))
    as (shards & Hdocs & Hchunks).
  exists shards. split; [vm_compute; reflexivity|]. split; [reflexivity|].
  split; [exact Hdocs|exact Hchunks].
Defined.

Lemma PresplitHashedZones_validate_rules_witness :
  PresplitHashedZonesSplitPolicy._validate presplitCountries keyCH true = Ok tt
  ∧ ∃ prefix suffix maxPrefix maxRest,
      country "EU" = prefix ++ ("h"%string, VMinKey) :: suffix
      ∧ country "FR" = maxPrefix ++ maxRest
      ∧ length maxPrefix = length prefix
      ∧ prefix ≠ []
      ∧ (∀ e, e ∈ prefix → e.2 ≠ VMinKey ∧ e.2 ≠ VMaxKey)
      ∧ (∀ e, e ∈ suffix → e.2 = VMinKey)
      ∧ prefix ≠ maxPrefix.
Proof.
  split; [vm_compute; reflexivity|].
  destruct (PresplitHashedZones_validate_rules presplitCountries keyCH true)
    as (_ & _ & Hzones).
  apply (Hzones ltac:(vm_compute; reflexivity) ltac:(reflexivity)
           (zone "A" (country "EU") (country "FR"))).
  left.
Defined.

Lemma SingleChunkPerTag_one_chunk_per_zone_witness :
  ∃ chunks shards,
    AbstractTagsBasedSplitPolicy.createFirstChunks
      (singleChunkPerTag repeatedZones) cluster keyX params = Ok chunks
    ∧ length shards = 3%nat
    ∧ TagsLayout ["S1"; "S2"; "S3"]%string (globalMax keyX) (globalMin keyX) 0
        (zip repeatedZones (map singleChunk shards)) (map placement chunks)
    ∧ ∀ shard, shards !! 1%nat = Some shard → shard = "S2"%string.
Proof.
  eexists.
  destruct (SingleChunkPerTag_one_chunk_per_zone
              (singleChunkPerTag repeatedZones) cluster keyX params _
              ltac:(reflexivity) ltac:(vm_compute; reflexivity))
    as (shards & Hlen & Hlayout & _ & Hround).
  exists shards. split; [vm_compute; reflexivity|].
  split; [exact Hlen|]. split; [exact Hlayout|].
  intros shard Hshard.
  destruct (Hround 1%nat (zone "A" (xAt 10) (xAt 20)) shard
              ltac:(reflexivity) Hshard) as (zoneShards & Hzone & Hat).
  vm_compute in Hzone. injection Hzone as <-.
  vm_compute in Hat. by injection Hat as <-.
Defined.

Lemma SingleChunkPerTag_createFirstChunks_outcome_witness :
  (∃ chunks,
     AbstractTagsBasedSplitPolicy.createFirstChunks
       (singleChunkPerTag ascendingZones) cluster keyX params = Ok chunks)
  ∧ AbstractTagsBasedSplitPolicy.createFirstChunks
      (singleChunkPerTag strayZone) cluster keyX params = Err InvariantFailure.
Proof.
  split.
  - destruct (SingleChunkPerTag_createFirstChunks_outcome
                (singleChunkPerTag ascendingZones) cluster keyX params)
      as [_ Hsingle].
    destruct (Hsingle ltac:(reflexivity) ltac:(discriminate)) as [Hreturns _].
    apply Hreturns; [discriminate|].
    intros tag Htag.
    apply elem_of_cons in Htag as [->|Htag];
      [by exists ["S1"; "S2"]%string|].
    apply elem_of_cons in Htag as [->|Htag];
      [by exists ["S3"%string]|].
    by apply elem_of_nil in Htag.
  - destruct (SingleChunkPerTag_createFirstChunks_outcome
                (singleChunkPerTag strayZone) cluster keyX params)
      as [_ Hsingle].
    destruct (Hsingle ltac:(reflexivity) ltac:(discriminate)) as [_ Hfails].
    apply (Hfails [zone "A" (globalMin keyX) (xAt 10)]
             (zone "C" (xAt 20) (globalMax keyX)) []); [reflexivity| |].
    + intros t Ht. apply list_elem_of_singleton in Ht as ->.
      by exists ["S1"; "S2"]%string.
    + reflexivity.
Defined.

Lemma calculateHashedSplitPoints_closed_form_witness :
  calculateHashedSplitPoints keyH [] 4
  = Ok (map (buildSplitPoint keyH []) (hashedSplitValues 4))
  ∧ hashedSplitValues 4
    = [- (2 * (LLONG_MAX / 4)); 0; 2 * (LLONG_MAX / 4)].
Proof.
  destruct (calculateHashedSplitPoints_closed_form keyH [] 4)
    as (_ & Hpoints & _).
  split; [|reflexivity].
  apply Hpoints; [reflexivity|]. vm_compute. split; discriminate.
Defined.

Lemma PresplitHashedZones_zone_split_witness :
  match PresplitHashedZonesSplitPolicy.make cluster keyCH countryZones 0 true with
  | Ok self =>
      ∃ info,
        AbstractTagsBasedSplitPolicy.buildSplitInfoForTag self
          (zone "A" (country "EU") (country "FR")) keyCH = Ok (info, self)
        ∧ AbstractTagsBasedSplitPolicy.splitPoints info
          = map (buildSplitPoint keyCH [("c"%string, VString "EU")])
              (hashedSplitValues 4)
  | Err _ => False
  end.
Proof.
  destruct (PresplitHashedZonesSplitPolicy.make cluster keyCH countryZones 0
              true) as [self|] eqn:Emake; [|by vm_compute in Emake].
  destruct (PresplitHashedZones_zone_split cluster keyCH countryZones 0 true
              self ltac:(vm_compute; split; [discriminate|reflexivity]) Emake)
    as (n & ntps & Hsub & _ & Hzone).
  vm_compute in Emake. injection Emake as <-.
  injection Hsub as <- <-.
  eexists. split; [vm_compute; reflexivity|].
  destruct (Hzone (zone "A" (country "EU") (country "FR")) _ _
              ltac:(vm_compute; discriminate) ltac:(left)
              ltac:(vm_compute; reflexivity)) as (_ & _ & Hpoints).
  apply Hpoints. vm_compute. discriminate.
Defined.

Lemma calculateOptimizationStrategy_presplit_validation_witness :
  ∃ reason,
    calculateOptimizationStrategy cluster keyX 0 true [] 3 true
    = Err (UserAssertion 31387 reason).
Proof.
  destruct (calculateOptimizationStrategy_presplit_validation cluster keyX 0
              true [] 3 true) as [Hfails _].
  exact (Hfails eq_refl eq_refl (or_intror (or_introl eq_refl))).
Defined.

Lemma SamplingBased_createFirstChunks_returns_witness :
  ∃ chunks,
    SamplingBasedSplitPolicy.createFirstChunks threeChunks cluster keyX params
    = Ok chunks
    ∧ length chunks = 3%nat.
Proof.
  destruct (SamplingBased_createFirstChunks_returns threeChunks
              {| SamplingBasedSplitPolicy._numInitialChunks := 3;
                 SamplingBasedSplitPolicy._zones := None;
                 SamplingBasedSplitPolicy._samples := [xAt 3] |}
              cluster keyX params [xAt 1; xAt 2] eq_refl
              ltac:(vm_compute; reflexivity)) as [_ Hreturns].
  apply Hreturns. discriminate.
Defined.

Lemma PresplitHashedZones_hashed_prefix_chunks_witness :
  match PresplitHashedZonesSplitPolicy.make cluster keyH wholeHashSpace 0 true with
  | Ok self =>
      ∃ chunks,
        AbstractTagsBasedSplitPolicy.createFirstChunks self cluster keyH params
        = Ok chunks
        ∧ map getShard chunks = ["S1"; "S1"; "S2"; "S2"]%string
  | Err _ => False
  end.
Proof.
  destruct (PresplitHashedZonesSplitPolicy.make cluster keyH wholeHashSpace 0
              true) as [self|] eqn:Emake; [|by vm_compute in Emake].
  destruct (PresplitHashedZones_hashed_prefix_chunks cluster keyH
              wholeHashSpace 0 true self
              ltac:(vm_compute; split; [discriminate|reflexivity])
              ltac:(reflexivity) Emake)
    as (z & shards & n & ntps & Htags & _ & _ & Hshards & Hsub & Hchunks).
  vm_compute in Emake. injection Emake as <-.
  injection Htags as <-. vm_compute in Hshards. injection Hshards as <-.
  injection Hsub as <- <-.
  eexists. split; [vm_compute; reflexivity|].
  destruct (Hchunks cluster params _ ltac:(vm_compute; discriminate)
              ltac:(vm_compute; reflexivity)) as (_ & Hon & _).
  exact Hon.
Defined.

Lemma ShardDistribution_createFirstChunks_inside_witness :
  ∃ chunks,
    ShardDistributionSplitPolicy.createFirstChunks twoRangesZoned cluster keyX
      params = Ok chunks
    ∧ length chunks = 3%nat
    ∧ ∀ c, c ∈ chunks → insideShardRange twoPlacements c.
Proof.
  eexists. split; [vm_compute; reflexivity|]. split; [reflexivity|].
  apply (ShardDistribution_createFirstChunks_inside twoRangesZoned cluster keyX
           params twoPlacements).
  - repeat constructor.
  - repeat split.
  - vm_compute. reflexivity.
Defined.
